(** * recursive-reducer: a shallow embedding and its verified properties

    The library folds nested JavaScript data (arrays and objects embedded in
    each other) with an ordered chain of node handlers, and resolves promises
    nested anywhere in such data.  The embedding below follows
    [recursiveReducer.ts] (the handler chain, the array and record folds, the
    two combinators) and [helpers.ts] ([recordLookup], [promiseAll],
    [extractPromises]).

    JavaScript containers are mutable and have an identity, so they live in a
    heap; every library function is a computation in a state-and-exception
    monad over that heap.  Recursion through heap references is bounded by
    fuel, since a cyclic input makes the source recurse for ever. *)

From Stdlib Require Import ZArith Lia Permutation Sorted.
From stdpp Require Import base list strings pretty.

Open Scope string_scope.
Open Scope list_scope.

#[local] Set Warnings "-register-all".

(** ** Values, objects and the heap *)

Abbreviation loc := nat.

(** Primitive values.  Numbers are the integers among the doubles. *)
Inductive prim :=
| PUndefined
| PNull
| PBool (b : bool)
| PNum (n : Z)
| PStr (s : string).

(** A value is a primitive or a reference to a heap object: arrays, plain
    objects and promises all satisfy [typeof a === 'object']. *)
Inductive val :=
| VPrim (p : prim)
| VRef (l : loc).

Coercion VPrim : prim >-> val.

Arguments PNum n%_Z.

(** A promise is modelled by the way it eventually settles; [await] suspends
    until then, so that is all the resolver observes. *)
Inductive settlement :=
| Fulfilled (v : val)
| Rejected (reason : val).

(** Heap objects.  An array without holes is the list of its items; an
    array with holes is the list of its slots, an empty slot being a hole.
    A plain object lists its own enumerable string-keyed properties in
    enumeration order (taken to be insertion order).  Objects have own
    properties only: what an object inherits from its prototype is not
    modelled, except that an assignment to [__proto__] runs the setter a
    plain object inherits (see [setOwn]). *)
Inductive obj :=
| OArr (items : list val)
| OObj (props : list (string * val))
| OPromise (s : settlement)
| OHoles (slots : list (option val)).

Abbreviation heap := (list obj).

(** [TPath = (string | number)[]]: paths are never mutated once built, so
    they are plain lists of steps. *)
Inductive step :=
| KStr (s : string)
| KNum (n : nat).

Abbreviation TPath := (list step).

#[global] Instance prim_eq_dec : EqDecision prim.
Proof. solve_decision. Defined.
#[global] Instance val_eq_dec : EqDecision val.
Proof. solve_decision. Defined.
#[global] Instance step_eq_dec : EqDecision step.
Proof. solve_decision. Defined.

Definition undefined : val := VPrim PUndefined.

(** The property key a path step denotes: numbers are rendered in decimal. *)
Definition key_string (k : step) : string :=
  match k with
  | KStr s => s
  | KNum n => pretty n
  end.

(** ** Exceptions and the monad *)

Inductive exn :=
| LimitError (limit : Z)
| TypeError (msg : string)
| Rejection (reason : val)
| RangeError (msg : string).

Arguments LimitError limit%_Z.

(** The text of a thrown error, as [String(e)] shows it after ["Error: "]. *)
Definition message (e : exn) : string :=
  match e with
  | LimitError limit =>
      "Could not resolve all promises with limit " ++ pretty limit ++ ". Sorry."
  | TypeError msg => msg
  | Rejection _ => "rejected"
  | RangeError msg => msg
  end.

Inductive res (S A : Type) :=
| Done (a : A) (s : S)
| Throw (e : exn) (s : S)
| OutOfFuel.

Arguments Done {S A} a s.
Arguments Throw {S A} e s.
Arguments OutOfFuel {S A}.

Definition M (S A : Type) := S -> res S A.

Definition ret {S A} (a : A) : M S A := fun s => Done a s.

Definition bind {S A B} (m : M S A) (k : A -> M S B) : M S B :=
  fun s =>
    match m s with
    | Done a s' => k a s'
    | Throw e s' => Throw e s'
    | OutOfFuel => OutOfFuel
    end.

Definition throw {S A} (e : exn) : M S A := fun s => Throw e s.

Definition out_of_fuel {S A} : M S A := fun _ => OutOfFuel.

Notation "'let*' x ':=' m 'in' k" := (bind m (fun x => k))
  (at level 10, x pattern, m at level 200, k at level 200).

(** The state of a computation: the heap, and the variables [U] that the
    caller's closures capture. *)
Definition world (U : Type) := (heap * U)%type.

(** Runs [m] with a local variable that starts as [l0] and is dropped when
    [m] is done; the enclosing variables are not visible to [m]. *)
Definition with_local {U L A} (l0 : L) (m : M (world L) A) : M (world U) (A * L) :=
  fun s =>
    match m (s.1, l0) with
    | Done a s' => Done (a, s'.2) (s'.1, s.2)
    | Throw e s' => Throw e (s'.1, s.2)
    | OutOfFuel => OutOfFuel
    end.

(** ** Heap primitives *)

Section Heap.
Context {U : Type}.

(** [[]], [{}], [[a]]: a literal allocates a new object. *)
Definition alloc (o : obj) : M (world U) val :=
  fun s => Done (VRef (length s.1)) (s.1 ++ [o], s.2).

Definition deref (h : heap) (a : val) : option obj :=
  match a with
  | VRef l => h !! l
  | VPrim _ => None
  end.

Definition isArray (h : heap) (a : val) : bool :=
  match deref h a with
  | Some (OArr _) => true
  | Some (OHoles _) => true
  | _ => false
  end.

(** [a !== null && typeof a === 'object'] *)
Definition isObject (a : val) : bool :=
  match a with
  | VRef _ => true
  | VPrim _ => false
  end.

(** [b instanceof Promise] *)
Definition isPromise (h : heap) (b : val) : bool :=
  match deref h b with
  | Some (OPromise _) => true
  | _ => false
  end.

(** [value === null || value === undefined] *)
Definition nullish (v : val) : bool :=
  match v with
  | VPrim PNull | VPrim PUndefined => true
  | _ => false
  end.

Fixpoint assoc (k : string) (ps : list (string * val)) : option val :=
  match ps with
  | [] => None
  | (k', v) :: ps' => if bool_decide (k' = k) then Some v else assoc k ps'
  end.

(** Assignment to a property of a plain object: an existing key keeps its
    place, a new key goes last. *)
Fixpoint assoc_set (k : string) (x : val) (ps : list (string * val))
  : list (string * val) :=
  match ps with
  | [] => [(k, x)]
  | (k', v) :: ps' =>
      if bool_decide (k' = k) then (k', x) :: ps' else (k', v) :: assoc_set k x ps'
  end.

(** The index below [n] that the key [k] spells, if any. *)
Definition index_of_key (n : nat) (k : string) : option nat :=
  find (fun i => bool_decide (pretty i = k)) (seq 0 n).

Definition step_index (n : nat) (k : step) : option nat :=
  match k with
  | KNum i => Some i
  | KStr s => index_of_key n s
  end.

(** [Object.keys(o)] *)
Definition ownKeys (o : obj) : list string :=
  match o with
  | OArr xs => map (fun i : nat => pretty i) (seq 0 (length xs))
  | OObj ps => map fst ps
  | OPromise _ => []
  | OHoles slots =>
      map (fun i : nat => pretty i)
        (filter (fun i => is_Some (mjoin (slots !! i))) (seq 0 (length slots)))
  end.

(** [o[k]] for an own property; anything else reads as [undefined]. *)
Definition getOwn (o : obj) (k : step) : val :=
  match o with
  | OArr xs =>
      match step_index (length xs) k with
      | Some i => default undefined (xs !! i)
      | None =>
          if bool_decide (key_string k = "length")
          then VPrim (PNum (Z.of_nat (length xs)))
          else undefined
      end
  | OObj ps => default undefined (assoc (key_string k) ps)
  | OPromise _ => undefined
  | OHoles slots =>
      match step_index (length slots) k with
      | Some i => default undefined (mjoin (slots !! i))
      | None =>
          if bool_decide (key_string k = "length")
          then VPrim (PNum (Z.of_nat (length slots)))
          else undefined
      end
  end.

(** [o[k] = x].  Writing just past the end of an array appends, writing
    further leaves holes in between.  On a plain object that has no own
    property [__proto__], the assignment [o["__proto__"] = x] runs the
    setter the object inherits from [Object.prototype]: it creates no own
    property (the prototype it may replace is not part of the model).
    Properties of arrays that are not indices, and properties of promises,
    are not modelled. *)
Definition setOwn (o : obj) (k : step) (x : val) : obj :=
  match o with
  | OArr xs =>
      match step_index (length xs) k with
      | Some i =>
          if bool_decide (i < length xs)%nat
          then OArr (<[i := x]> xs)
          else if bool_decide (i = length xs)
          then OArr (xs ++ [x])
          else OHoles (map Some xs ++ replicate (i - length xs) None ++ [Some x])
      | None => o
      end
  | OObj ps =>
      if bool_decide (key_string k = "__proto__") &&
         bool_decide (assoc (key_string k) ps = None)
      then o
      else OObj (assoc_set (key_string k) x ps)
  | OPromise _ => o
  | OHoles slots =>
      match step_index (length slots) k with
      | Some i =>
          if bool_decide (i < length slots)%nat
          then OHoles (<[i := Some x]> slots)
          else OHoles (slots ++ replicate (i - length slots) None ++ [Some x])
      | None => o
      end
  end.

Definition keysOf (h : heap) (a : val) : list string :=
  match deref h a with
  | Some o => ownKeys o
  | None => []
  end.

(** [a[k]] where [a] is known not to be [null] or [undefined]. *)
Definition getProp (h : heap) (a : val) (k : step) : val :=
  match deref h a with
  | Some o => getOwn o k
  | None =>
      match a, k with
      | VPrim (PStr s), KNum i =>
          match String.get i s with
          | Some c => VPrim (PStr (String c EmptyString))
          | None => undefined
          end
      | _, _ => undefined
      end
  end.

(** [value[key]], the default step of [recordLookup]. *)
Definition getMember (a : val) (k : step) : M (world U) val :=
  fun s =>
    if nullish a
    then Throw (TypeError "Cannot read properties of null or undefined") s
    else Done (getProp s.1 a k) s.

(** [parent[key] = x] *)
Definition setMember (a : val) (k : step) (x : val) : M (world U) unit :=
  fun s =>
    match a with
    | VRef l =>
        match s.1 !! l with
        | Some o => Done tt (<[l := setOwn o k x]> s.1, s.2)
        | None => Done tt s
        end
    | VPrim _ => Throw (TypeError "Cannot set properties of a primitive") s
    end.

(** [prev.push(current)] *)
Definition push (a : val) (x : val) : M (world U) unit :=
  fun s =>
    match a with
    | VRef l =>
        match s.1 !! l with
        | Some (OArr xs) => Done tt (<[l := OArr (xs ++ [x])]> s.1, s.2)
        | Some (OHoles slots) => Done tt (<[l := OHoles (slots ++ [Some x])]> s.1, s.2)
        | _ => Throw (TypeError "prev.push is not a function") s
        end
    | VPrim _ => Throw (TypeError "prev.push is not a function") s
    end.

(** [rs.length] of an array *)
Definition arrayLength (h : heap) (a : val) : nat :=
  match deref h a with
  | Some (OArr xs) => length xs
  | Some (OHoles slots) => length slots
  | _ => 0%nat
  end.

(** [index in rs]: the array has an item at the index, which is not past
    its end and not a hole. *)
Definition hasIndex (h : heap) (a : val) (index : nat) : bool :=
  match deref h a with
  | Some (OArr xs) => bool_decide (index < length xs)%nat
  | Some (OHoles slots) => bool_decide (is_Some (mjoin (slots !! index)))
  | _ => false
  end.

(** The items [...current] spreads: those of an array, a hole giving
    [undefined]. *)
Definition spreadItems (h : heap) (a : val) : option (list val) :=
  match deref h a with
  | Some (OArr ys) => Some ys
  | Some (OHoles slots) => Some (map (default undefined) slots)
  | _ => None
  end.
End Heap.

(** ** The handler chain ([class RecursiveReducer]) *)

Section Engine.
Context {S : Type}.

(** [TPathFn<any, any>]: the descend function. *)
Definition Recurse := val -> TPath -> M S val.

(** [TPathFn<any, Optional<any>>]: a node handler.  [Some v] is
    [present(v)], [None] is [empty()]. *)
Definition PathFn := val -> TPath -> M S (option val).

Definition Factory := Recurse -> PathFn.

(** The loop of [reduceInternal] over the bound handlers. *)
Fixpoint run_chain (pathFns : list PathFn) (current : val) (path : TPath)
  : M S val :=
  match pathFns with
  | [] => ret current
  | converter :: rest =>
      let* r := converter current path in
      match r with
      | Some convertedValue => ret convertedValue
      | None => run_chain rest current path
      end
  end.

(** [reduceInternal]: the handlers are the factories applied to
    [reduceInternal] itself.  A factory has no effect of its own, so
    binding the handlers at each call is the same as binding them once in
    the constructor.  The fuel bounds the depth of the descent. *)
Fixpoint reduceInternal (fuel : nat) (pathFnFactories : list Factory)
  (current : val) (path : TPath) : M S val :=
  match fuel with
  | O => out_of_fuel
  | Datatypes.S fuel' =>
      run_chain
        (map (fun factory => factory (reduceInternal fuel' pathFnFactories))
           pathFnFactories)
        current path
  end.

(** [reduce(a)] and [recursiveReducerInternal(...factories)] *)
Definition recursiveReducerInternal (fuel : nat) (pathFnFactories : list Factory)
  (a : val) : M S val :=
  reduceInternal fuel pathFnFactories a [].
End Engine.

(** ** The record fold and the built-in handlers *)

Section Reducers.
Context {U : Type}.

(** The loop of [recordReducer]: [record[key]] is read when its turn
    comes. *)
Fixpoint recordReducer_loop (callback : val -> val -> string -> M (world U) val)
  (record : val) (keys : list string) (value : val) : M (world U) val :=
  match keys with
  | [] => ret value
  | key :: keys' =>
      let* value' :=
        (fun s => callback value (getProp s.1 record (KStr key)) key s) in
      recordReducer_loop callback record keys' value'
  end.

(** [recordReducer(callback, initial)(record)] *)
Definition recordReducer (callback : val -> val -> string -> M (world U) val)
  (initial : M (world U) val) (record : val) : M (world U) val :=
  let* value := initial in
  fun s => recordReducer_loop callback record (keysOf s.1 record) value s.

Record IArrReduction := {
  arr_callback : val -> val -> nat -> M (world U) val;
  arr_initial : M (world U) val
}.

Record IObjReduction := {
  obj_callback : val -> val -> string -> M (world U) val;
  obj_initial : M (world U) val
}.

Definition ARR_COPY_REDUCTION : IArrReduction := {|
  arr_callback := fun prev current _ => let* _ := push prev current in ret prev;
  arr_initial := alloc (OArr [])
|}.

Definition arrCopyReduction : IArrReduction := ARR_COPY_REDUCTION.

Definition OBJ_COPY_REDUCTION : IObjReduction := {|
  obj_callback := fun prev current key =>
    let* _ := setMember prev (KStr key) current in ret prev;
  obj_initial := alloc (OObj [])
|}.

Definition objCopyReduction : IObjReduction := OBJ_COPY_REDUCTION.

Definition extendArrPathFn (arrPathFn : val -> TPath -> M (world U) val) : PathFn :=
  fun a path s =>
    if isArray s.1 a
    then (let* r := arrPathFn a path in ret (Some r)) s
    else ret None s.

(** The loop of [rs.reduce]: the indices below the length the array had
    at the start, each element read when its turn comes; an index at which
    the array has no item by then (a hole) is skipped. *)
Fixpoint arr_reduce_loop (arrReduction : IArrReduction) (recurse : Recurse)
  (rs : val) (path : TPath) (indices : list nat) (prev : val) : M (world U) val :=
  match indices with
  | [] => ret prev
  | index :: indices' =>
      fun s =>
        if hasIndex s.1 rs index
        then
          (let* s' := recurse (getProp s.1 rs (KNum index)) (path ++ [KNum index]) in
           let* prev' := arr_callback arrReduction prev s' index in
           arr_reduce_loop arrReduction recurse rs path indices' prev') s
        else arr_reduce_loop arrReduction recurse rs path indices' prev s
  end.

Definition arrReductionToRecursivePathFn (arrReduction : IArrReduction)
  (recurse : Recurse) : val -> TPath -> M (world U) val :=
  fun rs path =>
    let* seed := arr_initial arrReduction in
    fun s =>
      arr_reduce_loop arrReduction recurse rs path
        (seq 0 (arrayLength s.1 rs)) seed s.

Definition extendObjPathFn (objPathFunction : val -> TPath -> M (world U) val) : PathFn :=
  fun a path s =>
    if isObject a
    then (let* r := objPathFunction a path in ret (Some r)) s
    else ret None s.

Definition objReductionToRecursivePathFn (objReduction : IObjReduction)
  (recurse : Recurse) : val -> TPath -> M (world U) val :=
  fun obj path =>
    recordReducer
      (fun prev current key =>
         let* reducedItem := recurse current (path ++ [KStr key]) in
         obj_callback objReduction prev reducedItem key)
      (obj_initial objReduction) obj.

(** [recursiveMapper(pathFnFactory)] *)
Definition recursiveMapper_factories (pathFnFactory : Factory) : list Factory :=
  [ pathFnFactory;
    (fun recurse =>
       extendArrPathFn (arrReductionToRecursivePathFn arrCopyReduction recurse));
    (fun recurse =>
       extendObjPathFn (objReductionToRecursivePathFn objCopyReduction recurse)) ].

Definition recursiveMapper (fuel : nat) (pathFnFactory : Factory) (a : val)
  : M (world U) val :=
  recursiveReducerInternal fuel (recursiveMapper_factories pathFnFactory) a.

(** [() => empty()], the default of [optionalMapper]: a call of
    [recursiveMapperReducer] with three arguments passes it. *)
Definition emptyMapper : val -> M (world U) (option val) := fun _ => ret None.

(** [recursiveMapperReducer(mapper, reduceCallback, reduceInitial,
    optionalMapper)] *)
Definition recursiveMapperReducer_factories (mapper : val -> M (world U) val)
  (reduceCallback : val -> val -> M (world U) val) (reduceInitial : M (world U) val)
  (optionalMapper : val -> M (world U) (option val)) : list Factory :=
  [ (fun _ => fun a _ => optionalMapper a);
    (fun recurse =>
       extendArrPathFn
         (arrReductionToRecursivePathFn
            {| arr_initial := reduceInitial;
               arr_callback := fun prev current _ => reduceCallback prev current |}
            recurse));
    (fun recurse =>
       extendObjPathFn
         (objReductionToRecursivePathFn
            {| obj_initial := reduceInitial;
               obj_callback := fun prev current _ => reduceCallback prev current |}
            recurse));
    (fun _ => fun a _ => let* r := mapper a in ret (Some r)) ].

Definition recursiveMapperReducer (fuel : nat) (mapper : val -> M (world U) val)
  (reduceCallback : val -> val -> M (world U) val) (reduceInitial : M (world U) val)
  (optionalMapper : val -> M (world U) (option val)) (a : val) : M (world U) val :=
  recursiveReducerInternal fuel
    (recursiveMapperReducer_factories mapper reduceCallback reduceInitial
       optionalMapper) a.
End Reducers.

(** ** Path lookup ([recordLookup]) *)

Record IRecordLookupResult := {
  resolvedPath : TPath;
  unresolvedPath : TPath;
  value : val;
  values : list val
}.

Section Lookup.
Context {S : Type}.

(** The [for (const key of path)] loop; [st] holds the four variables. *)
Fixpoint recordLookup_loop (valueKeyFn : val -> step -> M S val)
  (keys : TPath) (st : IRecordLookupResult) : M S IRecordLookupResult :=
  match keys with
  | [] => ret st
  | key :: keys' =>
      if nullish (value st)
      then ret st
      else
        let* value' := valueKeyFn (value st) key in
        recordLookup_loop valueKeyFn keys'
          {| resolvedPath := resolvedPath st ++ [key];
             unresolvedPath := tail (unresolvedPath st);
             value := value';
             values := values st ++ [value st] |}
  end.

Definition recordLookup (path : TPath) (valueKeyFn : val -> step -> M S val)
  (record : val) : M S IRecordLookupResult :=
  recordLookup_loop valueKeyFn path
    {| resolvedPath := [];
       unresolvedPath := path;
       value := record;
       values := [] |}.
End Lookup.

(** ** The nested-promise resolver ([promiseAll]) *)

Record IPromisePath := {
  promise : val;
  path : TPath
}.

(** [Array.prototype.sort] with a comparator.  The sort is the host's, not
    the library's.  The comparator of [promiseAll] never returns 0, and for
    such a comparator ECMAScript leaves the order to the engine, so the
    model follows V8, the engine of Node: V8 only ever calls the comparator
    on (a later element, an earlier element) and moves the later one in
    front exactly when the result is negative.  Each element in turn is
    therefore inserted before the first element already placed that the
    comparator puts after it (V8 finds the same place in the sorted prefix
    by binary search). *)
Section Sort.
Context {A : Type}.
Variable comparefn : A -> A -> Z.

Fixpoint sort_insert (pivot : A) (placed : list A) : list A :=
  match placed with
  | [] => [pivot]
  | e :: rest =>
      if (comparefn pivot e <? 0)%Z
      then pivot :: e :: rest
      else e :: sort_insert pivot rest
  end.

Definition array_sort (l : list A) : list A :=
  fold_left (fun placed pivot => sort_insert pivot placed) l [].



End Sort.

(** A sort of the host: a function of the comparator and the array. *)
Definition HostSort (A : Type) := (A -> A -> Z) -> list A -> list A.

(** The comparator [promiseAll] sorts with. *)
Definition comparePromisePaths (promisePath1 promisePath2 : IPromisePath) : Z :=
  if bool_decide (length (path promisePath2) < length (path promisePath1))%nat
  then (-1)%Z
  else 1%Z.

Section PromiseAll.
Context {U : Type}.

(** The handler [extractPromises] gives to [recursiveMapper]; the local
    variable is [promisePaths]. *)
Definition promiseHandler : @Factory (world (list IPromisePath)) :=
  fun _ b path s =>
    if isPromise s.1 b
    then Done (Some b) (s.1, s.2 ++ [{| promise := b; path := path |}])
    else Done None s.

(** [extractPromises(a)]: returns [promisified] and [promisePaths]. *)
Definition extractPromises (depth : nat) (a : val)
  : M (world U) (val * list IPromisePath) :=
  with_local []
    (let* wrapped := alloc (OArr [a]) in
     recursiveMapper depth promiseHandler wrapped).

(** [await Promise.all(promises)]: the values the promises are fulfilled
    with, or the reason of the first one that is rejected. *)
Fixpoint awaitAll (promises : list val) : M (world U) (list val) :=
  match promises with
  | [] => ret []
  | p :: rest =>
      fun s =>
        match deref s.1 p with
        | Some (OPromise (Fulfilled v)) =>
            (let* vs := awaitAll rest in ret (v :: vs)) s
        | Some (OPromise (Rejected r)) => Throw (Rejection r) s
        | _ => (let* vs := awaitAll rest in ret (p :: vs)) s
        end
  end.

(** The body of the splicing loop for one promise. *)
Definition spliceOne (promisified : val) (resolvedValue : val) (path : TPath)
  : M (world U) unit :=
  let parentPath := removelast path in
  let* r := recordLookup parentPath getMember promisified in
  setMember (value r) (List.last path (KStr "undefined")) resolvedValue.

Fixpoint spliceAll (promisified : val) (promisePaths : list IPromisePath)
  (resolvedValues : list val) : M (world U) unit :=
  match promisePaths, resolvedValues with
  | pp :: promisePaths', resolvedValue :: resolvedValues' =>
      let* _ := spliceOne promisified resolvedValue (path pp) in
      spliceAll promisified promisePaths' resolvedValues'
  | _, _ => ret tt
  end.

(** One pass after the scan, on a host with the given sort: sort, await,
    splice; returns the value the next scan starts from. *)
Definition splicePassWith (hostSort : HostSort IPromisePath) (promisified : val)
  (promisePaths : list IPromisePath) : M (world U) val :=
  let sorted := hostSort comparePromisePaths promisePaths in
  let promises := map promise sorted in
  let* resolvedValues := awaitAll promises in
  let* _ := spliceAll promisified sorted resolvedValues in
  getMember promisified (KNum 0).

(** The pass on V8. *)
Definition splicePass : val -> list IPromisePath -> M (world U) val :=
  splicePassWith array_sort.

(** [limit && count >= limit] *)
Definition limitReached (limit : Z) (count : nat) : bool :=
  negb (limit =? 0)%Z && (limit <=? Z.of_nat count)%Z.

(** The [for (let count = 0; ; count++)] loop.  [fuel] bounds the number
    of passes, [depth] the depth each scan may descend to. *)
Fixpoint promiseAll_loop (fuel depth : nat) (limit : Z) (count : nat)
  (valueToExtractPromisesFrom : val) : M (world U) val :=
  match fuel with
  | O => out_of_fuel
  | Datatypes.S fuel' =>
      let* scan := extractPromises depth valueToExtractPromisesFrom in
      let promisified := scan.1 in
      let promisePaths := scan.2 in
      if bool_decide (length promisePaths = 0%nat)
      then getMember promisified (KNum 0)
      else if limitReached limit count
      then throw (LimitError limit)
      else
        let* next := splicePass promisified promisePaths in
        promiseAll_loop fuel' depth limit (Datatypes.S count) next
  end.

(** [promiseAll(a, limit)].  [None] is a call without the second argument:
    the parameter then takes its default, [10]. *)
Definition promiseAll (fuel depth : nat) (a : val) (limit : option Z)
  : M (world U) val :=
  promiseAll_loop fuel depth (default 10%Z limit) 0 a.
End PromiseAll.

(** ** Nested structures and what it means for a value to hold one *)

(** The shape of a finite, acyclic nested value: primitives at the leaves,
    arrays and plain objects as containers. *)
Inductive tree :=
| TPrim (p : prim)
| TArr (items : list tree)
| TObj (props : list (string * tree)).

Fixpoint depth (t : tree) : nat :=
  match t with
  | TPrim _ => 1
  | TArr ts => Datatypes.S (fold_right (fun t d => Nat.max (depth t) d) 0%nat ts)
  | TObj kts =>
      Datatypes.S (fold_right (fun kt d => Nat.max (depth (snd kt)) d) 0%nat kts)
  end.

(** [repr_in lo hi h t v]: in the heap [h] the value [v] is deep-equal to
    [t], and every container of [v] is an object at an address in
    [[lo, hi)].  The arrays are arrays without holes; an object is well
    formed when its keys are distinct. *)
Inductive repr_in (lo hi : nat) (h : heap) : tree -> val -> Prop :=
| repr_prim p :
    repr_in lo hi h (TPrim p) (VPrim p)
| repr_arr l vs ts :
    (lo <= l < hi)%nat ->
    h !! l = Some (OArr vs) ->
    Forall2 (repr_in lo hi h) ts vs ->
    repr_in lo hi h (TArr ts) (VRef l)
| repr_obj l ps kts :
    (lo <= l < hi)%nat ->
    h !! l = Some (OObj ps) ->
    NoDup (map fst ps) ->
    Forall2 (fun kt kv => fst kt = fst kv /\ repr_in lo hi h (snd kt) (snd kv)) kts ps ->
    repr_in lo hi h (TObj kts) (VRef l).

(** [no_proto_key t]: no object of the structure has an own property named
    [__proto__]. *)
Fixpoint no_proto_key (t : tree) : Prop :=
  match t with
  | TPrim _ => True
  | TArr ts => fold_right (fun t Q => no_proto_key t /\ Q) True ts
  | TObj kts =>
      fold_right
        (fun kt Q => (fst kt <> "__proto__" /\ no_proto_key (snd kt)) /\ Q) True kts
  end.

(** The nested structure a value holds, read off the heap. *)
Fixpoint reify (fuel : nat) (h : heap) (v : val) : option tree :=
  match fuel with
  | O => None
  | Datatypes.S fuel' =>
      match v with
      | VPrim p => Some (TPrim p)
      | VRef l =>
          match h !! l with
          | Some (OArr vs) => TArr <$> mapM (reify fuel' h) vs
          | Some (OObj ps) =>
              TObj <$> mapM (fun kv => pair (fst kv) <$> reify fuel' h (snd kv)) ps
          | _ => None
          end
      end
  end.

(** The handler that never claims a node: [() => () => empty()]. *)
Definition alwaysAbsent {S : Type} : @Factory S := fun _ _ _ => ret None.

(** [all_absent fs node path s s']: run one after the other from [s], the
    handlers [fs] all return [empty()] and leave the state [s']. *)
Fixpoint all_absent {S : Type} (fs : list (@PathFn S)) (node : val) (path : TPath)
  (s s' : S) : Prop :=
  match fs with
  | [] => s' = s
  | f :: fs' => exists s1, f node path s = Done None s1 /\ all_absent fs' node path s1 s'
  end.

(** The value a walk along [p] reaches from [root] with the pure step [f]. *)
Definition walk (f : val -> step -> val) (root : val) (p : TPath) : val :=
  fold_left f p root.

(** [needsPasses depth k a s r s']: started on [a] in state [s], the
    resolver finds promises in each of its first [k] scans, splices them, and
    finds none in the scan after that, where it returns [r] in state [s']. *)
Fixpoint needsPasses {U : Type} (depth k : nat) (a : val) (s : world U) (r : val)
  (s' : world U) : Prop :=
  match k with
  | O =>
      exists promisified s1,
        extractPromises depth a s = Done (promisified, []) s1 /\
        getMember promisified (KNum 0) s1 = Done r s'
  | Datatypes.S k' =>
      exists promisified promisePaths s1 next s2,
        extractPromises depth a s = Done (promisified, promisePaths) s1 /\
        promisePaths <> [] /\
        splicePass promisified promisePaths s1 = Done next s2 /\
        needsPasses depth k' next s2 r s'
  end.

(** ** The examples of the documentation *)

(** [(prev, current) => prev + current] on numbers. *)
Definition addNumbers {S : Type} (prev current : val) : M S val :=
  match prev, current with
  | VPrim (PNum a), VPrim (PNum b) => ret (VPrim (PNum (a + b)))
  | _, _ => ret undefined
  end.

(** [countEmptyArrays] of the documentation of [recursiveMapperReducer]:
    the override claims every empty array with [present(1)]. *)
Definition emptyArrayOverride {U : Type} : val -> M (world U) (option val) :=
  fun a s =>
    if isArray s.1 a && bool_decide (arrayLength s.1 a = 0%nat)
    then Done (Some (VPrim (PNum 1))) s
    else Done None s.

Definition countEmptyArrays {U : Type} (fuel : nat) : val -> M (world U) val :=
  recursiveMapperReducer fuel
    (fun _ => ret (VPrim (PNum 0)))
    addNumbers
    (ret (VPrim (PNum 0)))
    emptyArrayOverride.

(** [{a: {}, b: [[]], c: []}], its root at address 4. *)
Definition heap_abc : heap :=
  [ OObj [];
    OArr [];
    OArr [VRef 1];
    OArr [];
    OObj [("a", VRef 0); ("b", VRef 2); ("c", VRef 3)] ].

(** [{a: true, b: [7]}], its root at address 1. *)
Definition heap_ab : heap :=
  [ OArr [VPrim (PNum 7)];
    OObj [("a", VPrim (PBool true)); ("b", VRef 0)] ].

(** [JSON.parse('{"__proto__": 1, "b": 2}')], an object with an own
    property named [__proto__], at address 0. *)
Definition heap_proto_key : heap :=
  [ OObj [("__proto__", VPrim (PNum 1)); ("b", VPrim (PNum 2))] ].

(** [[1, , 3]], an array with a hole, at address 0. *)
Definition heap_hole : heap :=
  [ OHoles [Some (VPrim (PNum 1)); None; Some (VPrim (PNum 3))] ].

(** [Promise.resolve([Promise.resolve(1)])], at address 2. *)
Definition heap_nested_promise : heap :=
  [ OPromise (Fulfilled (VPrim (PNum 1)));
    OArr [VRef 0];
    OPromise (Fulfilled (VRef 1)) ].

(** A promise of an array of a promise of an array ..., [n] promises deep,
    around the number [1]: the heap, and the value at the top. *)
Fixpoint promise_tower (n : nat) : heap * val :=
  match n with
  | O => ([], VPrim (PNum 1))
  | Datatypes.S n' =>
      let '(h, v) := promise_tower n' in
      (h ++ [OPromise (Fulfilled v); OArr [VRef (length h)]],
       VRef (Datatypes.S (length h)))
  end.

(** [[[1, 2]]]: an array around an array of two numbers. *)
Definition heap_pair_inside : heap :=
  [OArr [VPrim (PNum 1); VPrim (PNum 2)]; OArr [VRef 0]].

(** ** [extractAll] and the list-collecting record fold *)

Section Collectors.
Context {U : Type}.

(** A call with spread arguments passes every item of the array as an
    argument of its own, and the host bounds the number of arguments of a
    call: beyond the bound the call throws a [RangeError].  The language
    does not say where the bound is; [argumentsLimit] is the bound of the
    host, [None] for a host on which it is never reached. *)
Definition tooManyArguments (argumentsLimit : option nat) (n : nat) : bool :=
  match argumentsLimit with
  | Some limit => bool_decide (limit < n)%nat
  | None => false
  end.

(** [(prev, current) => { prev.push(...current); return prev; }] on a host
    with the given bound. *)
Definition spreadPushWithin (argumentsLimit : option nat) (prev current : val)
  : M (world U) val :=
  fun s =>
    match spreadItems s.1 current, prev with
    | Some ys, VRef l =>
        match s.1 !! l with
        | Some (OArr xs) =>
            if tooManyArguments argumentsLimit (length ys)
            then Throw (RangeError "Maximum call stack size exceeded") s
            else Done prev (<[l := OArr (xs ++ ys)]> s.1, s.2)
        | Some (OHoles slots) =>
            if tooManyArguments argumentsLimit (length ys)
            then Throw (RangeError "Maximum call stack size exceeded") s
            else Done prev (<[l := OHoles (slots ++ map Some ys)]> s.1, s.2)
        | _ => Throw (TypeError "prev.push is not a function") s
        end
    | Some _, VPrim _ => Throw (TypeError "prev.push is not a function") s
    | None, _ => Throw (TypeError "current is not iterable") s
    end.

(** The callback where the bound is not reached. *)
Definition spreadPush : val -> val -> M (world U) val := spreadPushWithin None.

(** The fourth argument [extractAll] builds from [optMapper]. *)
Definition extractAll_override (optMapper : val -> M (world U) (option val))
  : val -> M (world U) (option val) :=
  fun a_ =>
    let* optionalt := optMapper a_ in
    match optionalt with
    | Some v => let* r := alloc (OArr [v]) in ret (Some r)
    | None => ret None
    end.

(** [extractAll(optMapper)(a)] on a host with the given bound on the
    number of arguments. *)
Definition extractAllWithin (argumentsLimit : option nat) (fuel : nat)
  (optMapper : val -> M (world U) (option val)) (a : val) : M (world U) val :=
  recursiveMapperReducer fuel
    (fun _ => alloc (OArr []))
    (spreadPushWithin argumentsLimit)
    (alloc (OArr []))
    (extractAll_override optMapper)
    a.

(** [extractAll(optMapper)(a)] where the bound is not reached. *)
Definition extractAll : nat -> (val -> M (world U) (option val)) -> val -> M (world U) val :=
  extractAllWithin None.

(** [(a) => typeof a === 'number' ? present(a) : empty()] *)
Definition numberMapper : val -> M (world U) (option val) :=
  fun a =>
    match a with
    | VPrim (PNum n) => ret (Some a)
    | _ => ret None
    end.

(** [(prev, current, _key) => { prev.push(current); return prev; }], the
    callback of the documentation of [recordReducer]. *)
Definition pushValue (prev current : val) (_key : string) : M (world U) val :=
  let* _ := push prev current in ret prev.
End Collectors.

(** [[3, 'a']] at address 0 and [{b: 7}] at address 1. *)
Definition heap_two_inputs : heap :=
  [ OArr [VPrim (PNum 3); VPrim (PStr "a")];
    OObj [("b", VPrim (PNum 7))] ].

(** ** Folds whose functions keep to their own accumulator *)

(** [frame n h h']: the heap [h'] has every object of [h] below address [n]
    as it was, and is no shorter. *)
Definition frame (n : nat) (h h' : heap) : Prop :=
  (length h <= length h')%nat /\ forall l, (l < n)%nat -> h' !! l = h !! l.

Section FoldModel.
Context {U A : Type}.

(** [R lo hi h v a]: in the heap [h] the value [v] stands for the
    summary [a], and the objects it may write to lie in [[lo, hi)]. *)
Variable R : nat -> nat -> heap -> val -> A -> Prop.

(** What [v] stands for depends on the heap below [hi] only. *)
Definition stable_repr : Prop :=
  forall lo hi h h' v a,
    (forall l, (l < hi)%nat -> h' !! l = h !! l) ->
    R lo hi h v a -> R lo hi h' v a.

(** The seed factory returns a fresh accumulator on each call: it stands
    for [seedP], it writes to new objects only, and the call changes
    nothing that exists. *)
Definition fresh_seed (seedP : A) (seed : M (world U) val) : Prop :=
  forall h u,
    exists v h',
      seed (h, u) = Done v (h', u) /\
      frame (length h) h h' /\
      R (length h) (length h') h' v seedP.

(** The leaf mapper has no effect on what exists. *)
Definition local_mapper (mapperP : prim -> A) (mapper : val -> M (world U) val)
  : Prop :=
  forall p h u,
    exists v h',
      mapper (VPrim p) (h, u) = Done v (h', u) /\
      frame (length h) h h' /\
      R (length h) (length h') h' v (mapperP p).

(** The combine function has no effect on what existed before its
    accumulator was seeded: it may write to the accumulator and to the
    item, which is newer. *)
Definition local_combine (combineP : A -> A -> A)
  (reduceCallback : val -> val -> M (world U) val) : Prop :=
  forall lo mid h u prev current a b,
    (lo <= mid <= length h)%nat ->
    R lo mid h prev a ->
    R mid (length h) h current b ->
    exists prev' h',
      reduceCallback prev current (h, u) = Done prev' (h', u) /\
      frame lo h h' /\
      R lo (length h') h' prev' (combineP a b).

(** The same for the summaries for which [combineP] gives a summary in
    [ok]: a combine function that fails on the others. *)
Definition local_combine_on (ok : A -> Prop) (combineP : A -> A -> A)
  (reduceCallback : val -> val -> M (world U) val) : Prop :=
  forall lo mid h u prev current a b,
    (lo <= mid <= length h)%nat ->
    R lo mid h prev a ->
    R mid (length h) h current b ->
    ok (combineP a b) ->
    exists prev' h',
      reduceCallback prev current (h, u) = Done prev' (h', u) /\
      frame lo h h' /\
      R lo (length h') h' prev' (combineP a b).

(** The override decides from the structure the node holds, and has no
    effect on what exists. *)
Definition local_override (overrideP : tree -> option A)
  (optionalMapper : val -> M (world U) (option val)) : Prop :=
  forall t v h u,
    repr_in 0 (length h) h t v ->
    match overrideP t with
    | None => optionalMapper v (h, u) = Done None (h, u)
    | Some a =>
        exists x h',
          optionalMapper v (h, u) = Done (Some x) (h', u) /\
          frame (length h) h h' /\
          R (length h) (length h') h' x a
    end.

(** The combine function of a record fold: the item is the property
    value as it is. *)
Definition local_record_combine (combineP : A -> val -> string -> A)
  (callback : val -> val -> string -> M (world U) val) : Prop :=
  forall lo h u prev current key a,
    (lo <= length h)%nat ->
    R lo (length h) h prev a ->
    exists prev' h',
      callback prev current key (h, u) = Done prev' (h', u) /\
      frame lo h h' /\
      R lo (length h') h' prev' (combineP a current key).
End FoldModel.

(** The summary of a nested structure, computed with the pure counterparts
    of the four functions. *)
Fixpoint foldP {A : Type} (overrideP : tree -> option A) (mapperP : prim -> A)
  (combineP : A -> A -> A) (seedP : A) (t : tree) : A :=
  match overrideP t with
  | Some a => a
  | None =>
      match t with
      | TPrim p => mapperP p
      | TArr ts =>
          fold_left (fun a t => combineP a (foldP overrideP mapperP combineP seedP t))
            ts seedP
      | TObj kts =>
          fold_left
            (fun a kt => combineP a (foldP overrideP mapperP combineP seedP (snd kt)))
            kts seedP
      end
  end.

(** The summary of a record, computed with the pure counterparts. *)
Definition recordFoldP {A : Type} (combineP : A -> val -> string -> A) (seedP : A)
  (ps : list (string * val)) : A :=
  fold_left (fun a kv => combineP a (snd kv) (fst kv)) ps seedP.

(** The accumulators of [extractAll]: an array of primitives. *)
Definition collected (lo hi : nat) (h : heap) (v : val) (ps : list prim) : Prop :=
  exists l, v = VRef l /\ (lo <= l < hi)%nat /\ h !! l = Some (OArr (map VPrim ps)).

(** The accumulators of the list-collecting record fold: an array. *)
Definition collected_values (lo hi : nat) (h : heap) (v : val) (xs : list val) : Prop :=
  exists l, v = VRef l /\ (lo <= l < hi)%nat /\ h !! l = Some (OArr xs).

(** The pure counterpart of the override of [extractAll(numberMapper)]. *)
Definition numbersOnly (t : tree) : option (list prim) :=
  match t with
  | TPrim (PNum n) => Some [PNum n]
  | _ => None
  end.

(** [{a: true, b: [7], c: 90}] at address 1 and [{a: {}, b: null, c: "h"}]
    at address 3, the records of the documentation of [recordReducer]. *)
Definition heap_records : heap :=
  [ OArr [VPrim (PNum 7)];
    OObj [("a", VPrim (PBool true)); ("b", VRef 0); ("c", VPrim (PNum 90))];
    OObj [];
    OObj [("a", VRef 2); ("b", VPrim PNull); ("c", VPrim (PStr "h"))] ].

(** The same two records and, at address 4, an array that a seed could
    hand out again and again: [const shared = []; ... () => shared]. *)
Definition heap_shared : heap := heap_records ++ [OArr []].

(** ** Predicates used in the statements *)

(** [p] comes no later than [q] when the pairs are ordered deepest first. *)
Definition deeper_first (p q : IPromisePath) : Prop :=
  (length (path q) <= length (path p))%nat.

(** The computation never throws the limit-exceeded error. *)
Definition no_limit_error {S A} (m : M S A) : Prop :=
  forall s limit s', m s <> Throw (LimitError limit) s'.

(** ** Further notions used in the statements *)

(** [walks_to valueKeyFn s root pre v]: in the state [s] the step function
    takes the steps [pre] from [root] one after the other, none of the
    values on the way is null or undefined, no step changes the state, and
    the walk ends at [v]. *)
Fixpoint walks_to {S : Type} (valueKeyFn : val -> step -> M S val) (s : S)
  (root : val) (pre : TPath) (v : val) : Prop :=
  match pre with
  | [] => v = root
  | key :: pre' =>
      nullish root = false /\
      exists v1, valueKeyFn root key s = Done v1 s /\ walks_to valueKeyFn s v1 pre' v
  end.

(** The numbers at the leaves of a structure, in the order of a depth-first
    walk. *)
Fixpoint numbersOf (t : tree) : list prim :=
  match t with
  | TPrim (PNum n) => [PNum n]
  | TPrim _ => []
  | TArr ts => flat_map numbersOf ts
  | TObj kts => flat_map (fun kt => numbersOf (snd kt)) kts
  end.

(** [(a) => typeof a === 'number' ? a : 0], the leaf mapper of [sumNumbers]
    in the documentation of [recursiveMapperReducer]. *)
Definition numberOrZero (p : prim) : val :=
  match p with
  | PNum n => VPrim (PNum n)
  | _ => VPrim (PNum 0)
  end.

(** [prev + current] on two numbers; [undefined] stands for the other
    operands, which the examples do not use. *)
Definition plusP (prev current : val) : val :=
  match prev, current with
  | VPrim (PNum a), VPrim (PNum b) => VPrim (PNum (a + b))
  | _, _ => undefined
  end.

(** [{a: 3, b: 10, c: -8}], at address 0. *)
Definition heap_sum : heap :=
  [ OObj [("a", VPrim (PNum 3)); ("b", VPrim (PNum 10)); ("c", VPrim (PNum (-8)))] ].

(** ** What a traversal with [recursiveMapper] sees and builds *)

(** The shape of a value down to the nodes a traversal does not descend
    into: arrays and plain objects are containers, and a leaf is any other
    value, kept as it is. *)
Inductive shape :=
| SLeaf (v : val)
| SArr (items : list shape)
| SObj (props : list (string * shape)).

Fixpoint sdepth (sh : shape) : nat :=
  match sh with
  | SLeaf _ => 1
  | SArr shs => Datatypes.S (fold_right (fun sh d => Nat.max (sdepth sh) d) 0%nat shs)
  | SObj kshs =>
      Datatypes.S (fold_right (fun ksh d => Nat.max (sdepth (snd ksh)) d) 0%nat kshs)
  end.

(** [holds n h sh v]: in the heap [h] the value [v] has the shape [sh]; its
    containers and promises are objects below address [n], its arrays have
    no holes, its leaves are primitives and promises. *)
Inductive holds (n : nat) (h : heap) : shape -> val -> Prop :=
| holds_prim p :
    holds n h (SLeaf (VPrim p)) (VPrim p)
| holds_promise l st :
    (l < n)%nat ->
    h !! l = Some (OPromise st) ->
    holds n h (SLeaf (VRef l)) (VRef l)
| holds_arr l vs shs :
    (l < n)%nat ->
    h !! l = Some (OArr vs) ->
    Forall2 (holds n h) shs vs ->
    holds n h (SArr shs) (VRef l)
| holds_obj l ps kshs :
    (l < n)%nat ->
    h !! l = Some (OObj ps) ->
    NoDup (map fst ps) ->
    Forall2 (fun ksh kv => fst ksh = fst kv /\ holds n h (snd ksh) (snd kv)) kshs ps ->
    holds n h (SObj kshs) (VRef l).

(** The items of an array or an object laid out one after the other:
    [chain R lo hi xs ys] gives the items [xs], with the values [ys],
    consecutive ranges of addresses that fill [[lo, hi)]. *)
Inductive chain {A B : Type} (R : nat -> nat -> A -> B -> Prop)
  : nat -> nat -> list A -> list B -> Prop :=
| chain_nil lo : chain R lo lo [] []
| chain_cons lo mid hi x xs y ys :
    R lo mid x y -> chain R mid hi xs ys -> chain R lo hi (x :: xs) (y :: ys).

(** [layout h lo hi sh v]: the value [v] has the shape [sh], and the
    containers of the shape are the objects at the addresses [[lo, hi)],
    each of them used once, in the order of a depth-first walk: a
    container comes first, then its items one after the other.  A leaf
    takes no address, and its value may be anything. *)
Inductive layout (h : heap) : nat -> nat -> shape -> val -> Prop :=
| layout_leaf lo v :
    layout h lo lo (SLeaf v) v
| layout_arr lo hi vs shs :
    h !! lo = Some (OArr vs) ->
    chain (layout h) (Datatypes.S lo) hi shs vs ->
    layout h lo hi (SArr shs) (VRef lo)
| layout_obj lo hi ps kshs :
    h !! lo = Some (OObj ps) ->
    map fst kshs = map fst ps ->
    NoDup (map fst ps) ->
    chain (layout h) (Datatypes.S lo) hi (map snd kshs) (map snd ps) ->
    layout h lo hi (SObj kshs) (VRef lo).

(** The items of an array, each mapped at the path of its index. *)
Fixpoint mapItems {A B : Type} (F : A -> TPath -> B) (path : TPath)
  (xs : list A) (i : nat) : list B :=
  match xs with
  | [] => []
  | x :: xs' => F x (path ++ [KNum i]) :: mapItems F path xs' (Datatypes.S i)
  end.

(** The shape a traversal builds: every leaf replaced by what the handler
    chain returns for it at its path. *)
Fixpoint mapShape (leafOut : val -> TPath -> val) (sh : shape) (path : TPath)
  : shape :=
  match sh with
  | SLeaf v => SLeaf (leafOut v path)
  | SArr shs => SArr (mapItems (mapShape leafOut) path shs 0)
  | SObj kshs =>
      SObj (map (fun ksh =>
                   (fst ksh, mapShape leafOut (snd ksh) (path ++ [KStr (fst ksh)])))
              kshs)
  end.

(** The state the caller's variables are left in, each leaf having had its
    effect in the order of the walk. *)
Fixpoint logItems {A L : Type} (F : A -> TPath -> L -> L) (path : TPath)
  (xs : list A) (i : nat) (u : L) : L :=
  match xs with
  | [] => u
  | x :: xs' => logItems F path xs' (Datatypes.S i) (F x (path ++ [KNum i]) u)
  end.

Fixpoint logShape {L : Type} (leafLog : val -> TPath -> L -> L) (sh : shape)
  (path : TPath) (u : L) : L :=
  match sh with
  | SLeaf v => leafLog v path u
  | SArr shs => logItems (logShape leafLog) path shs 0 u
  | SObj kshs =>
      fold_left (fun u ksh => logShape leafLog (snd ksh) (path ++ [KStr (fst ksh)]) u)
        kshs u
  end.

(** Every leaf of the shape satisfies [P]. *)
Fixpoint all_leaves (P : val -> Prop) (sh : shape) : Prop :=
  match sh with
  | SLeaf v => P v
  | SArr shs => fold_right (fun sh Q => all_leaves P sh /\ Q) True shs
  | SObj kshs => fold_right (fun ksh Q => all_leaves P (snd ksh) /\ Q) True kshs
  end.

(** No object of the shape has an own property named [__proto__]. *)
Fixpoint shape_no_proto_key (sh : shape) : Prop :=
  match sh with
  | SLeaf _ => True
  | SArr shs => fold_right (fun sh Q => shape_no_proto_key sh /\ Q) True shs
  | SObj kshs =>
      fold_right
        (fun ksh Q => (fst ksh <> "__proto__" /\ shape_no_proto_key (snd ksh)) /\ Q)
        True kshs
  end.

(** The shape of a structure without promises. *)
Fixpoint tree_shape (t : tree) : shape :=
  match t with
  | TPrim p => SLeaf (VPrim p)
  | TArr ts => SArr (map tree_shape ts)
  | TObj kts => SObj (map (fun kt => (fst kt, tree_shape (snd kt))) kts)
  end.

(** ** Structures with promises *)

(** The promises among the leaves of a shape, each with its path, in the
    order of the walk: what [extractPromises] collects in [promisePaths].
    A leaf that is an object is a promise. *)
Fixpoint promisesOf (sh : shape) (path : TPath) : list IPromisePath :=
  match sh with
  | SLeaf (VRef l) => [{| promise := VRef l; path := path |}]
  | SLeaf (VPrim _) => []
  | SArr shs => concat (mapItems promisesOf path shs 0)
  | SObj kshs =>
      flat_map (fun ksh => promisesOf (snd ksh) (path ++ [KStr (fst ksh)])) kshs
  end.

(** What [promisePaths.push({promise: b, path})] does to the list when the
    leaf [b] is a promise. *)
Definition notePromise (b : val) (path : TPath) (promisePaths : list IPromisePath)
  : list IPromisePath :=
  match b with
  | VRef _ => promisePaths ++ [{| promise := b; path := path |}]
  | VPrim _ => promisePaths
  end.

(** What [await] gives for a value: the value a fulfilled promise holds,
    and any other value itself. *)
Definition awaited (h : heap) (v : val) : val :=
  match deref h v with
  | Some (OPromise (Fulfilled w)) => w
  | _ => v
  end.

(** A nested structure in which some values are fulfilled promises: a
    promise is given with its address and with the structure of the value
    it is fulfilled with, which may hold promises in turn. *)
Inductive ptree :=
| PPrim (p : prim)
| PProm (l : loc) (inner : ptree)
| PArr (items : list ptree)
| PObj (props : list (string * ptree)).

(** [pholds n h pt v]: in the heap [h] the value [v] is the structure
    [pt]; containers and promises are objects below address [n]. *)
Inductive pholds (n : nat) (h : heap) : ptree -> val -> Prop :=
| pholds_prim p :
    pholds n h (PPrim p) (VPrim p)
| pholds_prom l w inner :
    (l < n)%nat ->
    h !! l = Some (OPromise (Fulfilled w)) ->
    pholds n h inner w ->
    pholds n h (PProm l inner) (VRef l)
| pholds_arr l vs pts :
    (l < n)%nat ->
    h !! l = Some (OArr vs) ->
    Forall2 (pholds n h) pts vs ->
    pholds n h (PArr pts) (VRef l)
| pholds_obj l ps kpts :
    (l < n)%nat ->
    h !! l = Some (OObj ps) ->
    NoDup (map fst ps) ->
    Forall2 (fun kpt kv => fst kpt = fst kv /\ pholds n h (snd kpt) (snd kv)) kpts ps ->
    pholds n h (PObj kpts) (VRef l).

(** The structure with every promise replaced by what it is fulfilled
    with, all the way down. *)
Fixpoint settle (pt : ptree) : tree :=
  match pt with
  | PPrim p => TPrim p
  | PProm _ inner => settle inner
  | PArr pts => TArr (map settle pts)
  | PObj kpts => TObj (map (fun kpt => (fst kpt, settle (snd kpt))) kpts)
  end.

(** The largest number of promises one inside the other. *)
Fixpoint pnest (pt : ptree) : nat :=
  match pt with
  | PPrim _ => 0
  | PProm _ inner => Datatypes.S (pnest inner)
  | PArr pts => fold_right (fun pt d => Nat.max (pnest pt) d) 0%nat pts
  | PObj kpts => fold_right (fun kpt d => Nat.max (pnest (snd kpt)) d) 0%nat kpts
  end.

(** The shape a scan sees: it stops at the outermost promises. *)
Fixpoint shape_of (pt : ptree) : shape :=
  match pt with
  | PPrim p => SLeaf (VPrim p)
  | PProm l _ => SLeaf (VRef l)
  | PArr pts => SArr (map shape_of pts)
  | PObj kpts => SObj (map (fun kpt => (fst kpt, shape_of (snd kpt))) kpts)
  end.

(** The structure after one pass: every outermost promise replaced by
    what it is fulfilled with. *)
Fixpoint peel (pt : ptree) : ptree :=
  match pt with
  | PPrim p => PPrim p
  | PProm _ inner => inner
  | PArr pts => PArr (map peel pts)
  | PObj kpts => PObj (map (fun kpt => (fst kpt, peel (snd kpt))) kpts)
  end.

(** No object of the structure has an own property named [__proto__],
    neither outside nor inside a promise. *)
Fixpoint ptree_no_proto_key (pt : ptree) : Prop :=
  match pt with
  | PPrim _ => True
  | PProm _ inner => ptree_no_proto_key inner
  | PArr pts => fold_right (fun pt Q => ptree_no_proto_key pt /\ Q) True pts
  | PObj kpts =>
      fold_right
        (fun kpt Q => (fst kpt <> "__proto__" /\ ptree_no_proto_key (snd kpt)) /\ Q)
        True kpts
  end.

(** [set_leaf w p sh sh']: the shape [sh] has a leaf at the path [p], and
    [sh'] is [sh] with [w] at that leaf. *)
Inductive set_leaf (w : val) : TPath -> shape -> shape -> Prop :=
| set_here v :
    set_leaf w [] (SLeaf v) (SLeaf w)
| set_item i shs sh sh' p :
    shs !! i = Some sh ->
    set_leaf w p sh sh' ->
    set_leaf w (KNum i :: p) (SArr shs) (SArr (<[i := sh']> shs))
| set_prop j key kshs sh sh' p :
    kshs !! j = Some (key, sh) ->
    set_leaf w p sh sh' ->
    set_leaf w (KStr key :: p) (SObj kshs) (SObj (<[j := (key, sh')]> kshs)).

(** The keys of every object of the shape are distinct. *)
Fixpoint distinct_keys (sh : shape) : Prop :=
  match sh with
  | SLeaf _ => True
  | SArr shs => fold_right (fun sh Q => distinct_keys sh /\ Q) True shs
  | SObj kshs =>
      NoDup (map fst kshs) /\
      fold_right (fun ksh Q => distinct_keys (snd ksh) /\ Q) True kshs
  end.

(** The value reached from [v] along [p], as [recordLookup] walks with the
    default step: [None] when the walk meets null or undefined before the
    end. *)
Fixpoint descend (h : heap) (v : val) (p : TPath) : option val :=
  match p with
  | [] => Some v
  | k :: p' => if nullish v then None else descend h (getProp h v k) p'
  end.

(** The leaf handler of a scan after the promises at [done] have been
    replaced by their values. *)
Definition spliced (h : heap) (done : list IPromisePath) (v : val) (p : TPath) : val :=
  if bool_decide (p ∈ map path done) then awaited h v else v.

(** The structure with every leaf replaced by what a leaf function gives
    for it at its path; a leaf for which the function gives nothing is
    kept. *)
Fixpoint mapTree (g : prim -> TPath -> option prim) (t : tree) (path : TPath) : tree :=
  match t with
  | TPrim p => TPrim (default p (g p path))
  | TArr ts => TArr (mapItems (mapTree g) path ts 0)
  | TObj kts =>
      TObj (map (fun kt => (fst kt, mapTree g (snd kt) (path ++ [KStr (fst kt)]))) kts)
  end.

(** The value a leaf handler built on [g] puts in the place of a leaf. *)
Definition mappedLeaf (g : prim -> TPath -> option prim) (v : val) (path : TPath) : val :=
  match v with
  | VPrim p => VPrim (default p (g p path))
  | VRef _ => v
  end.

(** [`${path}`]: the steps, numbers in decimal, joined by commas. *)
Definition pathString (path : TPath) : string :=
  String.concat "," (map key_string path).

(** The handler of the test that prepends the path to every string:
    [() => (value, path) => typeof value === 'string'
                              ? present(`[${path}]:${value}`) : empty()] *)
Definition prependPath {S : Type} : @Factory S :=
  fun _ value path =>
    match value with
    | VPrim (PStr s) => ret (Some (VPrim (PStr ("[" ++ pathString path ++ "]:" ++ s))))
    | _ => ret None
    end.

Definition prependPathP (p : prim) (path : TPath) : option prim :=
  match p with
  | PStr s => Some (PStr ("[" ++ pathString path ++ "]:" ++ s))
  | _ => None
  end.

(** [{a: 'value1', b: ['b0']}], its root at address 1. *)
Definition heap_strings : heap :=
  [ OArr [VPrim (PStr "b0")];
    OObj [("a", VPrim (PStr "value1")); ("b", VRef 0)] ].

(** The second example of the documentation of [promiseAll]:
    [{a: Promise.resolve({aa: Promise.resolve(1), ab: 2,
                          ac: [Promise.resolve(3), '10']}),
      b: Promise.resolve(2)}], its root at address 6. *)
Definition heap_doc_promises : heap :=
  [ OPromise (Fulfilled (VPrim (PNum 1)));
    OPromise (Fulfilled (VPrim (PNum 3)));
    OArr [VRef 1; VPrim (PStr "10")];
    OObj [("aa", VRef 0); ("ab", VPrim (PNum 2)); ("ac", VRef 2)];
    OPromise (Fulfilled (VRef 3));
    OPromise (Fulfilled (VPrim (PNum 2)));
    OObj [("a", VRef 4); ("b", VRef 5)] ].

Definition doc_promises : ptree :=
  PObj [("a", PProm 4
                (PObj [("aa", PProm 0 (PPrim (PNum 1)));
                       ("ab", PPrim (PNum 2));
                       ("ac", PArr [PProm 1 (PPrim (PNum 3)); PPrim (PStr "10")])]));
        ("b", PProm 5 (PPrim (PNum 2)))].







(** [[Promise.resolve(1), Promise.reject('no')]], its root at address 2. *)
Definition heap_rejected : heap :=
  [ OPromise (Rejected (VPrim (PStr "no")));
    OPromise (Fulfilled (VPrim (PNum 1)));
    OArr [VRef 1; VRef 0] ].

(** ** The earlier version of the library ([recursiveReducers.ts]) *)

Module recursiveReducers.
Section Earlier.
Context {U : Type}.

(** [objReducer(callback, initial)(obj)] *)
Definition objReducer (callback : val -> val -> string -> M (world U) val)
  (initial : M (world U) val) (obj : val) : M (world U) val :=
  let* value := initial in
  fun s => recordReducer_loop callback obj (keysOf s.1 obj) value s.

(** [objCopyReduction()]: here [initial] is the object [{}] itself, not a
    function that returns one, so that calling it throws. *)
Definition objCopyReduction : @IObjReduction U := {|
  obj_callback := fun prev current key =>
    let* _ := setMember prev (KStr key) current in ret prev;
  obj_initial := throw (TypeError "initial is not a function")
|}.

Definition objReductionToRecursivePathFn (objReduction : @IObjReduction U)
  (recurse : Recurse) : val -> TPath -> M (world U) val :=
  fun obj path =>
    objReducer
      (fun prev current key =>
         let* reducedItem := recurse current (path ++ [KStr key]) in
         obj_callback objReduction prev reducedItem key)
      (obj_initial objReduction) obj.

(** [recursiveReducerFromMapper(mapper)] *)
Definition recursiveReducerFromMapper (fuel : nat)
  (mapper : val -> M (world U) (option val)) (a : val) : M (world U) val :=
  recursiveReducerInternal fuel
    [ (fun _ => fun a _ => mapper a);
      (fun recurse =>
         extendArrPathFn (arrReductionToRecursivePathFn arrCopyReduction recurse));
      (fun recurse =>
         extendObjPathFn (objReductionToRecursivePathFn objCopyReduction recurse)) ]
    a.

(** [recursiveReducerFromMapReduce(map, reduceCallback, reduceInitial)] *)
Definition recursiveReducerFromMapReduce (fuel : nat) (map : val -> M (world U) val)
  (reduceCallback : val -> val -> M (world U) val) (reduceInitial : M (world U) val)
  (a : val) : M (world U) val :=
  recursiveReducerInternal fuel
    [ (fun recurse =>
         extendArrPathFn
           (arrReductionToRecursivePathFn
              {| arr_initial := reduceInitial;
                 arr_callback := fun prev current _ => reduceCallback prev current |}
              recurse));
      (fun recurse =>
         extendObjPathFn
           (objReductionToRecursivePathFn
              {| obj_initial := reduceInitial;
                 obj_callback := fun prev current _ => reduceCallback prev current |}
              recurse));
      (fun _ => fun a _ => let* r := map a in ret (Some r)) ]
    a.
End Earlier.
End recursiveReducers.

(** * Properties *)

(** ** The monad *)

Lemma bind_done {S A B} (m : M S A) (k : A -> M S B) s a s' :
  m s = Done a s' -> bind m k s = k a s'.
Proof. unfold bind. intros ->. reflexivity. Qed.

(** ** Path lookup *)

Section LookupFacts.
Context {S : Type}.
Variable valueKeyFn : val -> step -> M S val.
Variable f : val -> step -> val.
Variable s : S.
Hypothesis valueKeyFn_pure :
  forall v k, nullish v = false -> valueKeyFn v k s = Done (f v k) s.

Lemma walk_snoc root p k : walk f root (p ++ [k]) = f (walk f root p) k.
Proof. unfold walk. rewrite fold_left_app. reflexivity. Qed.

(** The loop, started after [i] steps of [path] have been taken. *)
Lemma recordLookup_loop_walk path root :
  forall keys i st,
    path = take i path ++ keys ->
    i = length (resolvedPath st) ->
    resolvedPath st = take i path ->
    unresolvedPath st = keys ->
    value st = walk f root (take i path) ->
    values st = map (fun j => walk f root (take j path)) (seq 0 i) ->
    Forall (fun v => nullish v = false) (values st) ->
    exists n,
      (n <= length path)%nat /\
      recordLookup_loop valueKeyFn keys st s =
        Done {| resolvedPath := take n path;
                unresolvedPath := drop n path;
                value := walk f root (take n path);
                values := map (fun j => walk f root (take j path)) (seq 0 n) |} s /\
      Forall (fun v => nullish v = false)
        (map (fun j => walk f root (take j path)) (seq 0 n)) /\
      (n < length path -> nullish (walk f root (take n path)) = true)%nat.
Proof.
  induction keys as [|key keys IH]; intros i st Hpath Hi Hres Hunres Hval Hvals Hall.
  - rewrite app_nil_r in Hpath.
    assert (Hlen : (length path <= i)%nat).
    { destruct (decide (length path <= i)%nat) as [|Hn]; [assumption|].
      exfalso. apply (f_equal length) in Hpath.
      rewrite length_take in Hpath. lia. }
    exists i. simpl. unfold ret.
    assert (Hi' : i = length path).
    { rewrite Hres in Hi. rewrite length_take in Hi. lia. }
    split; [lia|]. split.
    + f_equal. destruct st as [rp up v vs]; simpl in *. subst rp up v vs.
      f_equal. rewrite drop_ge by lia. reflexivity.
    + split; [rewrite <- Hvals; exact Hall | lia].
  - assert (Hlt : (i < length path)%nat).
    { apply (f_equal length) in Hpath. rewrite length_app, length_take in Hpath.
      simpl in Hpath. lia. }
    assert (Hdrop : drop i path = key :: keys).
    { rewrite Hpath at 1. rewrite drop_app_length'; [reflexivity|].
      rewrite length_take. lia. }
    assert (Htake : take (Datatypes.S i) path = take i path ++ [key]).
    { rewrite (take_S_r path i key); [reflexivity|].
      rewrite <- (take_drop i path) at 1.
      rewrite lookup_app_r by (rewrite length_take; lia).
      rewrite length_take, Hdrop.
      replace (i - i `min` length path)%nat with 0%nat by lia. reflexivity. }
    simpl. destruct (nullish (value st)) eqn:Hnull.
    + exists i. unfold ret. split; [lia|]. split.
      * f_equal. destruct st as [rp up v vs]; simpl in *. subst rp up v vs.
        rewrite Hdrop. reflexivity.
      * split; [rewrite <- Hvals; exact Hall|].
        intros _. rewrite <- Hval. exact Hnull.
    + rewrite (bind_done _ _ _ _ _ (valueKeyFn_pure _ key Hnull)).
      apply (IH (Datatypes.S i)); cbn [resolvedPath unresolvedPath value values].
      * rewrite Htake, <- app_assoc. exact Hpath.
      * rewrite length_app. simpl. lia.
      * rewrite Htake, Hres. reflexivity.
      * rewrite Hunres. reflexivity.
      * rewrite Htake, walk_snoc, Hval. reflexivity.
      * rewrite Hvals, seq_S, map_app. simpl. rewrite Hval. reflexivity.
      * apply Forall_app. split; [exact Hall|]. constructor; [exact Hnull|constructor].
Qed.
End LookupFacts.

(** C7.  Path lookup walks the path from the root with the step function.
    For a step function that is pure on the values it is given, the lookup
    of any path from any root stops after some number [n] of steps: the
    first [n] steps are the resolved path, the others the unresolved path,
    the visited ancestors are the values reached after 0, ..., n-1 steps,
    none of them null or undefined, the value is the one reached after [n]
    steps, and if steps are left over that value is null or undefined.
    Looking up [['c', 0]] in [{a: true, b: [7]}] resolves [['c']], leaves
    [[0]], and returns [undefined] with the root as the only ancestor. *)
Theorem recordLookup_walks_path :
  (forall (S : Type) (valueKeyFn : val -> step -> M S val)
          (f : val -> step -> val) (s : S) (path : TPath) (root : val),
      (forall v k, nullish v = false -> valueKeyFn v k s = Done (f v k) s) ->
      exists n,
        (n <= length path)%nat /\
        recordLookup path valueKeyFn root s =
          Done {| resolvedPath := take n path;
                  unresolvedPath := drop n path;
                  value := walk f root (take n path);
                  values := map (fun j => walk f root (take j path)) (seq 0 n) |} s /\
        Forall (fun v => nullish v = false)
          (map (fun j => walk f root (take j path)) (seq 0 n)) /\
        (n < length path -> nullish (walk f root (take n path)) = true)%nat)
  /\ recordLookup [KStr "c"; KNum 0] getMember (VRef 1) (heap_ab, tt) =
       Done {| resolvedPath := [KStr "c"];
               unresolvedPath := [KNum 0];
               value := undefined;
               values := [VRef 1] |} (heap_ab, tt).
Proof.
  split; [|reflexivity].
  intros S valueKeyFn f s path root Hpure.
  unfold recordLookup.
  apply (recordLookup_loop_walk valueKeyFn f s Hpure path root path 0%nat);
    try reflexivity.
  constructor.
Qed.

Lemma recordLookup_walks_path_witness :
  exists n,
    (n <= 2)%nat /\
    recordLookup [KStr "b"; KNum 0] getMember (VRef 1) (heap_ab, tt) =
      Done {| resolvedPath := take n [KStr "b"; KNum 0];
              unresolvedPath := drop n [KStr "b"; KNum 0];
              value := walk (getProp heap_ab) (VRef 1) (take n [KStr "b"; KNum 0]);
              values := map (fun j => walk (getProp heap_ab) (VRef 1)
                                        (take j [KStr "b"; KNum 0])) (seq 0 n) |}
        (heap_ab, tt) /\
    Forall (fun v => nullish v = false)
      (map (fun j => walk (getProp heap_ab) (VRef 1) (take j [KStr "b"; KNum 0]))
         (seq 0 n)) /\
    (n < 2 -> nullish (walk (getProp heap_ab) (VRef 1)
                         (take n [KStr "b"; KNum 0])) = true)%nat.
Proof.
  apply (proj1 recordLookup_walks_path (world unit) getMember (getProp heap_ab)
           (heap_ab, tt) [KStr "b"; KNum 0] (VRef 1)).
  intros v k Hv. unfold getMember. rewrite Hv. reflexivity.
Defined.

(** C10.  With the empty path, the lookup returns the root as the value,
    whatever the root is (null and undefined included) and whatever the
    step function is; both paths and the list of ancestors are empty. *)
Theorem recordLookup_empty_path :
  forall (S : Type) (valueKeyFn : val -> step -> M S val) (root : val) (s : S),
    recordLookup [] valueKeyFn root s =
      Done {| resolvedPath := [];
              unresolvedPath := [];
              value := root;
              values := [] |} s.
Proof. reflexivity. Qed.

(** ** The handler chain *)

Section ChainFacts.
Context {S : Type}.

Lemma run_chain_all_absent (fs : list (@PathFn S)) node path s s' :
  all_absent fs node path s s' -> run_chain fs node path s = Done node s'.
Proof.
  revert s. induction fs as [|f fs IH]; simpl; intros s H.
  - subst. reflexivity.
  - destruct H as (s1 & Hf & Hrest).
    rewrite (bind_done _ _ _ _ _ Hf). apply IH, Hrest.
Qed.

Lemma run_chain_first_present (pre post : list (@PathFn S)) f node path s s1 x s2 :
  all_absent pre node path s s1 ->
  f node path s1 = Done (Some x) s2 ->
  run_chain (pre ++ f :: post) node path s = Done x s2.
Proof.
  revert s. induction pre as [|g pre IH]; simpl; intros s Habs Hf.
  - subst. rewrite (bind_done _ _ _ _ _ Hf). reflexivity.
  - destruct Habs as (s' & Hg & Hrest).
    rewrite (bind_done _ _ _ _ _ Hg). apply IH; assumption.
Qed.
End ChainFacts.

(** C1.  A visit tries the bound handlers in the order of construction and
    returns the value of the first one that is present; when all of them are
    absent it returns the node itself.  A function built by [recursiveMapper]
    whose handler is absent at a primitive returns that primitive. *)
Theorem chain_first_present_wins :
  forall (S : Type) (fuel : nat) (node : val) (path : TPath),
    (forall (pre post : list (@Factory S)) (factory : @Factory S) s s1 x s2,
        let bound := fun fac : @Factory S =>
                       fac (reduceInternal fuel (pre ++ factory :: post)) in
        all_absent (map bound pre) node path s s1 ->
        bound factory node path s1 = Done (Some x) s2 ->
        reduceInternal (Datatypes.S fuel) (pre ++ factory :: post) node path s =
          Done x s2)
    /\ (forall (factories : list (@Factory S)) s s',
        all_absent (map (fun fac => fac (reduceInternal fuel factories)) factories)
          node path s s' ->
        reduceInternal (Datatypes.S fuel) factories node path s = Done node s')
    /\ (forall (U : Type) (pathFnFactory : @Factory (world U)) (v : prim) s s',
        pathFnFactory
          (reduceInternal fuel (recursiveMapper_factories pathFnFactory)) v [] s =
          Done None s' ->
        recursiveMapper (Datatypes.S fuel) pathFnFactory v s = Done (VPrim v) s').
Proof.
  intros S fuel node path. split; [|split].
  - intros pre post factory s s1 x s2 bound Habs Hf.
    simpl. rewrite map_app. simpl.
    eapply run_chain_first_present; eassumption.
  - intros factories s s' Habs. simpl. apply run_chain_all_absent, Habs.
  - intros U pathFnFactory v s s' Hf.
    unfold recursiveMapper, recursiveReducerInternal.
    simpl. rewrite (bind_done _ _ _ _ _ Hf).
    unfold extendArrPathFn, extendObjPathFn, isArray. simpl.
    unfold bind, ret. simpl. reflexivity.
Qed.

Lemma chain_first_present_wins_witness :
  recursiveMapper 1 alwaysAbsent (VPrim (PNum 9)) (heap_ab, tt) =
    Done (VPrim (PNum 9)) (heap_ab, tt).
Proof.
  apply (proj2 (proj2 (chain_first_present_wins (world unit) 0 undefined []))
           unit alwaysAbsent (PNum 9) (heap_ab, tt) (heap_ab, tt)).
  reflexivity.
Defined.

(** C3.  In a fold built by [recursiveMapperReducer], a node at which the
    override is present gets the override's value, whatever the descend
    function is: the other handlers are not run, so nothing below the node
    is visited, and one unit of fuel is enough.  Counting the empty arrays
    of [{a: {}, b: [[]], c: []}] gives 2. *)
Theorem override_prunes_descent :
  (forall (U : Type) (mapper : val -> M (world U) val)
          (reduceCallback : val -> val -> M (world U) val)
          (reduceInitial : M (world U) val)
          (optionalMapper : val -> M (world U) (option val))
          (node : val) (path : TPath) (s s' : world U) (x : val),
      optionalMapper node s = Done (Some x) s' ->
      (forall recurse : Recurse,
          run_chain
            (map (fun factory : Factory => factory recurse)
               (recursiveMapperReducer_factories mapper reduceCallback
                  reduceInitial optionalMapper))
            node path s = Done x s')
      /\ (forall fuel,
          reduceInternal (Datatypes.S fuel)
            (recursiveMapperReducer_factories mapper reduceCallback
               reduceInitial optionalMapper)
            node path s = Done x s'))
  /\ countEmptyArrays 3 (VRef 4) (heap_abc, tt) = Done (VPrim (PNum 2)) (heap_abc, tt).
Proof.
  split; [|reflexivity].
  intros U mapper cb seed opt node path s s' x Hopt.
  assert (Hchain : forall recurse : Recurse,
             run_chain
               (map (fun factory : Factory => factory recurse)
                  (recursiveMapperReducer_factories mapper cb seed opt))
               node path s = Done x s').
  { intros recurse. simpl. rewrite (bind_done _ _ _ _ _ Hopt). reflexivity. }
  split; [exact Hchain|].
  intros fuel. simpl. rewrite (bind_done _ _ _ _ _ Hopt). reflexivity.
Qed.

Lemma override_prunes_descent_witness :
  reduceInternal 1
    (recursiveMapperReducer_factories (fun _ => ret (VPrim (PNum 0))) addNumbers
       (ret (VPrim (PNum 0))) emptyArrayOverride)
    (VRef 3) [KStr "c"] (heap_abc, tt) = Done (VPrim (PNum 1)) (heap_abc, tt).
Proof.
  apply (proj2 (proj1 override_prunes_descent unit _ _ _ emptyArrayOverride
                  (VRef 3) [KStr "c"] (heap_abc, tt) (heap_abc, tt) (VPrim (PNum 1))
                  eq_refl) 0%nat).
Defined.

(** ** The order of the discovered promises *)

Lemma comparePromisePaths_neg pivot e :
  (comparePromisePaths pivot e <? 0)%Z = bool_decide (length (path e) < length (path pivot))%nat.
Proof.
  unfold comparePromisePaths. destruct (bool_decide _); reflexivity.
Qed.

Lemma sort_insert_perm pivot placed :
  Permutation (pivot :: placed) (sort_insert comparePromisePaths pivot placed).
Proof.
  induction placed as [|e rest IH]; simpl; [reflexivity|].
  destruct (comparePromisePaths pivot e <? 0)%Z; [reflexivity|].
  rewrite perm_swap. constructor. exact IH.
Qed.

Lemma sort_insert_sorted pivot placed :
  StronglySorted deeper_first placed ->
  StronglySorted deeper_first (sort_insert comparePromisePaths pivot placed).
Proof.
  induction 1 as [|e rest Hsorted IH Hall]; simpl.
  - constructor; constructor.
  - rewrite comparePromisePaths_neg. case_bool_decide as Hlt.
    + constructor; [constructor; assumption|].
      constructor; [unfold deeper_first; lia|].
      eapply Forall_impl; [exact Hall|].
      unfold deeper_first. intros q Hq. lia.
    + constructor; [exact IH|].
      rewrite <- (sort_insert_perm pivot rest).
      constructor; [unfold deeper_first; lia | exact Hall].
Qed.

Lemma filter_none {A} (P : A -> Prop) `{forall x, Decision (P x)} (l : list A) :
  Forall (fun x => ~ P x) l -> filter P l = [].
Proof.
  induction 1 as [|x l Hx _ IH]; [reflexivity|].
  rewrite filter_cons_False by assumption. exact IH.
Qed.

Lemma sort_insert_stable n pivot placed :
  StronglySorted deeper_first placed ->
  filter (fun p => length (path p) = n) (sort_insert comparePromisePaths pivot placed) =
  filter (fun p => length (path p) = n) placed ++
  filter (fun p => length (path p) = n) [pivot].
Proof.
  induction 1 as [|e rest Hsorted IH Hall]; simpl; [reflexivity|].
  rewrite comparePromisePaths_neg. case_bool_decide as Hlt.
  - rewrite (filter_cons _ pivot), (filter_cons _ pivot []), filter_nil.
    destruct (decide (length (path pivot) = n)) as [Hn|Hn]; [|rewrite app_nil_r; reflexivity].
    assert (Hnone : filter (fun p => length (path p) = n) (e :: rest) = []).
    { apply filter_none.
      constructor; [lia|].
      eapply Forall_impl; [exact Hall|].
      unfold deeper_first. intros q Hq. lia. }
    rewrite Hnone. reflexivity.
  - rewrite !(filter_cons _ e), IH.
    destruct (decide (length (path e) = n)); reflexivity.
Qed.

Lemma array_sort_from (l placed : list IPromisePath) :
  StronglySorted deeper_first placed ->
  let sorted := fold_left (fun placed pivot => sort_insert comparePromisePaths pivot placed)
                  l placed in
  Permutation (placed ++ l) sorted /\
  StronglySorted deeper_first sorted /\
  forall n,
    filter (fun p => length (path p) = n) sorted =
    filter (fun p => length (path p) = n) (placed ++ l).
Proof.
  revert placed. induction l as [|x l IH]; intros placed Hsorted; simpl.
  - rewrite app_nil_r. split; [reflexivity|]. split; [assumption|reflexivity].
  - destruct (IH (sort_insert comparePromisePaths x placed)
                (sort_insert_sorted x placed Hsorted)) as (Hperm & Hsrt & Hstable).
    split; [|split].
    + rewrite <- Hperm, <- (sort_insert_perm x placed).
      symmetry. apply Permutation_middle.
    + exact Hsrt.
    + intros n. rewrite Hstable, !filter_app, sort_insert_stable by assumption.
      change (x :: l) with ([x] ++ l).
      rewrite filter_app, <- app_assoc. reflexivity.
Qed.








(** ** Trees and their representation in the heap *)

Lemma tree_nested_ind (P : tree -> Prop) :
  (forall p, P (TPrim p)) ->
  (forall ts, Forall P ts -> P (TArr ts)) ->
  (forall kts, Forall (fun kt => P (snd kt)) kts -> P (TObj kts)) ->
  forall t, P t.
Proof.
  intros Hp Ha Ho. fix IH 1. intros [p|ts|kts].
  - apply Hp.
  - apply Ha. induction ts as [|t ts IHts]; constructor; [apply IH | exact IHts].
  - apply Ho. induction kts as [|[k t] kts IHkts]; constructor; [apply IH | exact IHkts].
Qed.

Lemma Forall2_impl_Forall {A B} (P : A -> Prop) (R R' : A -> B -> Prop) xs ys :
  Forall P xs ->
  Forall2 R xs ys ->
  (forall x y, P x -> R x y -> R' x y) ->
  Forall2 R' xs ys.
Proof.
  intros HP HR Himpl. revert HP.
  induction HR as [|x y xs ys Hxy _ IH]; intros HP; [constructor|].
  inversion HP; subst. constructor; [apply Himpl; assumption | apply IH; assumption].
Qed.

(** A representation survives any change of the heap outside the range of
    addresses it occupies, and the range may be widened. *)
Lemma repr_in_weaken t :
  forall lo hi lo' hi' h h' v,
    (lo' <= lo)%nat -> (hi <= hi')%nat ->
    (forall l, (lo <= l < hi)%nat -> h' !! l = h !! l) ->
    repr_in lo hi h t v -> repr_in lo' hi' h' t v.
Proof.
  induction t as [p|ts IH|kts IH] using tree_nested_ind;
    intros lo hi lo' hi' h h' v Hlo Hhi Hagree Hrepr; inversion Hrepr; subst.
  - constructor.
  - econstructor; [lia | rewrite Hagree by lia; eassumption |].
    eapply Forall2_impl_Forall; [exact IH | eassumption |].
    intros t v IHt Ht. eapply IHt; eassumption.
  - econstructor; [lia | rewrite Hagree by lia; eassumption | assumption |].
    eapply Forall2_impl_Forall; [exact IH | eassumption |].
    intros kt kv IHt [Hk Ht]. split; [exact Hk|]. eapply IHt; eassumption.
Qed.

Lemma depth_item (t : tree) (ts : list tree) :
  t ∈ ts -> (depth t <= fold_right (fun t d => Nat.max (depth t) d) 0 ts)%nat.
Proof.
  induction 1 as [t ts|t t' ts _ IH]; simpl; lia.
Qed.

Lemma depth_prop (kt : string * tree) (kts : list (string * tree)) :
  kt ∈ kts ->
  (depth (snd kt) <= fold_right (fun kt d => Nat.max (depth (snd kt)) d) 0 kts)%nat.
Proof.
  induction 1 as [kt kts|kt kt' kts _ IH]; simpl; lia.
Qed.

Lemma assoc_lookup_NoDup ps :
  NoDup (map fst ps) ->
  forall j k v, ps !! j = Some (k, v) -> assoc k ps = Some v.
Proof.
  induction ps as [|[k' v'] ps IH]; intros Hnd j k v Hj; [discriminate|].
  simpl in Hnd. apply NoDup_cons in Hnd as [Hnotin Hnd].
  destruct j as [|j]; simpl in *.
  - injection Hj as -> ->. rewrite bool_decide_eq_true_2; reflexivity.
  - case_bool_decide as Heq.
    + subst k'. exfalso. apply Hnotin.
      apply list_elem_of_fmap. exists (k, v). split; [reflexivity|].
      eapply list_elem_of_lookup_2. exact Hj.
    + eapply IH; eassumption.
Qed.

Lemma assoc_set_fresh k x ps :
  k ∉ map fst ps -> assoc_set k x ps = ps ++ [(k, x)].
Proof.
  induction ps as [|[k' v'] ps IH]; intros Hnotin; simpl; [reflexivity|].
  simpl in Hnotin. apply not_elem_of_cons in Hnotin as [Hne Hnotin].
  rewrite bool_decide_eq_false_2 by congruence.
  rewrite IH by assumption. reflexivity.
Qed.

(** ** The two folds, with an invariant *)

Section LoopFacts.
Context {U : Type}.

Lemma arr_reduce_loop_inv (red : IArrReduction) (recurse : Recurse) rs path
  (I : nat -> val -> world U -> Prop) :
  forall k i prev s,
    I i prev s ->
    (forall j prev s, (i <= j < i + k)%nat -> I j prev s ->
        hasIndex s.1 rs j = true /\
        exists c s1 prev' s2,
          recurse (getProp s.1 rs (KNum j)) (path ++ [KNum j]) s = Done c s1 /\
          arr_callback red prev c j s1 = Done prev' s2 /\
          I (Datatypes.S j) prev' s2) ->
    exists prev' s',
      arr_reduce_loop red recurse rs path (seq i k) prev s = Done prev' s' /\
      I (i + k)%nat prev' s'.
Proof.
  induction k as [|k IH]; intros i prev s HI Hstep; simpl.
  - exists prev, s. rewrite Nat.add_0_r. split; [reflexivity | exact HI].
  - destruct (Hstep i prev s ltac:(lia) HI) as (Hlt & c & s1 & prev' & s2 & Hrec & Hcb & HI').
    rewrite Hlt.
    rewrite (bind_done _ _ _ _ _ Hrec), (bind_done _ _ _ _ _ Hcb).
    destruct (IH (Datatypes.S i) prev' s2 HI') as (prev'' & s'' & Hloop & HI'').
    { intros j p' s' Hj. apply Hstep. lia. }
    exists prev'', s''. split; [exact Hloop|].
    replace (i + Datatypes.S k)%nat with (Datatypes.S i + k)%nat by lia. exact HI''.
Qed.

Lemma recordReducer_loop_inv (callback : val -> val -> string -> M (world U) val)
  record (I : nat -> val -> world U -> Prop) :
  forall keys i value s,
    I i value s ->
    (forall j key value s, keys !! j = Some key -> I (i + j)%nat value s ->
        exists value' s',
          callback value (getProp s.1 record (KStr key)) key s = Done value' s' /\
          I (Datatypes.S (i + j)) value' s') ->
    exists value' s',
      recordReducer_loop callback record keys value s = Done value' s' /\
      I (i + length keys)%nat value' s'.
Proof.
  induction keys as [|key keys IH]; intros i value s HI Hstep; simpl.
  - exists value, s. rewrite Nat.add_0_r. split; [reflexivity | exact HI].
  - destruct (Hstep 0%nat key value s eq_refl) as (value' & s' & Hcb & HI').
    { rewrite Nat.add_0_r. exact HI. }
    unfold bind at 1. rewrite Hcb.
    rewrite Nat.add_0_r in HI'.
    destruct (IH (Datatypes.S i) value' s' HI') as (value'' & s'' & Hloop & HI'').
    { intros j k v s0 Hj HIj. 
      destruct (Hstep (Datatypes.S j) k v s0 Hj) as (v' & s0' & Hcb' & HIj').
      { replace (i + Datatypes.S j)%nat with (Datatypes.S i + j)%nat by lia. exact HIj. }
      exists v', s0'. split; [exact Hcb'|].
      replace (Datatypes.S (Datatypes.S i + j)) with (Datatypes.S (i + Datatypes.S j)) by lia.
      exact HIj'. }
    exists value'', s''. split; [exact Hloop|].
    replace (i + Datatypes.S (length keys))%nat with (Datatypes.S i + length keys)%nat by lia.
    exact HI''.
Qed.
End LoopFacts.

(** ** Copying with [recursiveMapper] *)

Ltac len := repeat (rewrite length_app in * || cbn [length] in * ); try lia.

Section CopyFacts.
Context {U : Type}.

Lemma hasIndex_app (h ext : heap) l vs j :
  h !! l = Some (OArr vs) -> (j < length vs)%nat -> hasIndex (h ++ ext) (VRef l) j = true.
Proof.
  intros Hl Hj. unfold hasIndex. cbn [deref].
  rewrite (lookup_app_l_Some _ _ _ _ Hl). apply bool_decide_eq_true_2, Hj.
Qed.

Lemma arrayLength_app (h ext : heap) l vs :
  h !! l = Some (OArr vs) -> arrayLength (h ++ ext) (VRef l) = length vs.
Proof.
  intros Hl. unfold arrayLength. cbn [deref].
  rewrite (lookup_app_l_Some _ _ _ _ Hl). reflexivity.
Qed.

Lemma visit_array (n : nat) (h : heap) (u : U) l vs path r s' :
  h !! l = Some (OArr vs) ->
  arr_reduce_loop arrCopyReduction
    (reduceInternal n (recursiveMapper_factories alwaysAbsent))
    (VRef l) path (seq 0 (length vs)) (VRef (length h)) (h ++ [OArr []], u) = Done r s' ->
  reduceInternal (Datatypes.S n) (recursiveMapper_factories alwaysAbsent)
    (VRef l) path (h, u) = Done r s'.
Proof.
  intros Hl Hloop.
  cbn [reduceInternal recursiveMapper_factories map run_chain].
  unfold alwaysAbsent at 1.
  unfold bind at 1. unfold ret at 1.
  unfold bind at 1. unfold extendArrPathFn at 1. cbn [fst snd].
  unfold isArray. cbn [deref]. rewrite Hl.
  assert (Harr : arrReductionToRecursivePathFn arrCopyReduction
            (reduceInternal n (recursiveMapper_factories alwaysAbsent))
            (VRef l) path (h, u) = Done r s').
  { unfold arrReductionToRecursivePathFn, bind. cbn.
    rewrite (arrayLength_app h [OArr []] l vs Hl). exact Hloop. }
  rewrite (bind_done _ _ _ _ _ Harr). reflexivity.
Qed.

Lemma visit_object (n : nat) (h : heap) (u : U) l ps path r s' :
  h !! l = Some (OObj ps) ->
  recordReducer_loop
    (fun prev current key =>
       let* reducedItem :=
         reduceInternal n (recursiveMapper_factories alwaysAbsent) current
           (path ++ [KStr key]) in
       obj_callback objCopyReduction prev reducedItem key)
    (VRef l) (map fst ps) (VRef (length h)) (h ++ [OObj []], u) = Done r s' ->
  reduceInternal (Datatypes.S n) (recursiveMapper_factories alwaysAbsent)
    (VRef l) path (h, u) = Done r s'.
Proof.
  intros Hl Hloop.
  cbn [reduceInternal recursiveMapper_factories map run_chain].
  unfold alwaysAbsent at 1.
  unfold bind at 1. unfold ret at 1.
  unfold bind at 1. unfold extendArrPathFn at 1. cbn [fst snd].
  unfold isArray. cbn [deref]. rewrite Hl. unfold ret at 1.
  assert (Hobj : objReductionToRecursivePathFn objCopyReduction
            (reduceInternal n (recursiveMapper_factories alwaysAbsent))
            (VRef l) path (h, u) = Done r s').
  { unfold objReductionToRecursivePathFn, recordReducer, bind at 1. cbn.
    unfold keysOf. cbn [deref].
    rewrite (lookup_app_l_Some _ _ _ _ Hl). exact Hloop. }
  unfold bind at 1. unfold extendObjPathFn at 1. cbn [isObject].
  rewrite (bind_done _ _ _ _ _ Hobj). reflexivity.
Qed.

Lemma push_done (h : heap) (u : U) l xs x :
  h !! l = Some (OArr xs) ->
  push (VRef l) x (h, u) = Done tt (<[l := OArr (xs ++ [x])]> h, u).
Proof. unfold push. cbn [fst snd]. intros ->. reflexivity. Qed.

Lemma setMember_done (h : heap) (u : U) l o k x :
  h !! l = Some o ->
  setMember (VRef l) k x (h, u) = Done tt (<[l := setOwn o k x]> h, u).
Proof. unfold setMember. cbn [fst snd]. intros ->. reflexivity. Qed.

Lemma insert_middle (h ext : heap) o o' :
  <[length h := o']> (h ++ o :: ext) = h ++ o' :: ext.
Proof. rewrite insert_app_r_alt by lia. rewrite Nat.sub_diag. reflexivity. Qed.

Lemma Forall2_keys {A B} (R : A -> B -> Prop) (kts : list (string * A))
  (ps : list (string * B)) :
  Forall2 (fun kt kv => fst kt = fst kv /\ R (snd kt) (snd kv)) kts ps ->
  map fst kts = map fst ps.
Proof.
  induction 1 as [|kt kv kts ps [Hk _] _ IH]; [reflexivity|].
  simpl. rewrite Hk, IH. reflexivity.
Qed.

Lemma NoDup_not_in_take {A} (l : list A) j x :
  NoDup l -> l !! j = Some x -> x ∉ take j l.
Proof.
  intros Hnd Hj Hin.
  apply list_elem_of_lookup in Hin as [i Hi].
  pose proof (lookup_lt_Some _ _ _ Hi) as Hlt. rewrite length_take in Hlt.
  rewrite lookup_take_lt in Hi by lia.
  pose proof (NoDup_lookup _ _ _ _ Hnd Hi Hj). lia.
Qed.

Lemma no_proto_key_items ts : no_proto_key (TArr ts) -> Forall no_proto_key ts.
Proof.
  induction ts as [|t ts IH]; intros H; [constructor|].
  destruct H as [H1 H2]. constructor; [exact H1 | apply IH, H2].
Qed.

Lemma no_proto_key_props kts :
  no_proto_key (TObj kts) ->
  Forall (fun kt => fst kt <> "__proto__" /\ no_proto_key (snd kt)) kts.
Proof.
  induction kts as [|kt kts IH]; intros H; [constructor|].
  destruct H as [H1 H2]. constructor; [exact H1 | apply IH, H2].
Qed.

(** An assignment to a key a plain object does not have adds the property
    at the end, unless the key is [__proto__]. *)
Lemma setOwn_fresh key x cps :
  key <> "__proto__" -> key ∉ map fst cps ->
  setOwn (OObj cps) (KStr key) x = OObj (cps ++ [(key, x)]).
Proof.
  intros Hne Hfresh. cbn [setOwn key_string].
  rewrite bool_decide_eq_false_2 by exact Hne. cbn [andb].
  rewrite assoc_set_fresh by exact Hfresh. reflexivity.
Qed.

(** An assignment to a key a plain object has replaces the value in
    place, whatever the key. *)
Lemma setOwn_own ps j key v x :
  NoDup (map fst ps) -> ps !! j = Some (key, v) ->
  setOwn (OObj ps) (KStr key) x = OObj (<[j := (key, x)]> ps).
Proof.
  intros Hnd Hj. cbn [setOwn key_string].
  rewrite (assoc_lookup_NoDup ps Hnd j key v Hj).
  rewrite (bool_decide_eq_false_2 (Some v = None)) by discriminate.
  rewrite andb_false_r. f_equal.
  revert j Hnd Hj. induction ps as [|[k' v'] ps IH]; intros j Hnd Hj; [discriminate|].
  simpl in Hnd. apply NoDup_cons in Hnd as [Hnotin Hnd].
  destruct j as [|j]; simpl in *.
  - injection Hj as -> ->. rewrite bool_decide_eq_true_2; reflexivity.
  - case_bool_decide as Heq.
    + subst k'. exfalso. apply Hnotin.
      apply (list_elem_of_fmap_2' fst _ (key, v)); [|reflexivity].
      eapply list_elem_of_lookup_2, Hj.
    + f_equal. eapply IH; eassumption.
Qed.

Lemma copy_tree (t : tree) :
  forall v h (u : U) path fuel,
    repr_in 0 (length h) h t v ->
    no_proto_key t ->
    (depth t <= fuel)%nat ->
    exists v' ext,
      reduceInternal fuel (recursiveMapper_factories alwaysAbsent) v path (h, u) =
        Done v' (h ++ ext, u) /\
      repr_in (length h) (length h + length ext) (h ++ ext) t v'.
Proof.
  induction t as [p|ts IH|kts IH] using tree_nested_ind;
    intros v h u path fuel Hrepr Hkeys0 Hfuel; inversion Hrepr; subst;
    (destruct fuel as [|n]; [simpl in Hfuel; lia|]).
  - exists (VPrim p), []. rewrite app_nil_r. split; [reflexivity | constructor].
  - match goal with H : h !! l = Some _ |- _ => rename H into Hl end.
    match goal with H : Forall2 _ ts vs |- _ => rename H into Hitems end.
    apply no_proto_key_items in Hkeys0.
    destruct (arr_reduce_loop_inv arrCopyReduction
                (reduceInternal n (recursiveMapper_factories alwaysAbsent))
                (VRef l) path
                (fun j prev s =>
                   prev = VRef (length h) /\
                   exists cs ext,
                     s = (h ++ OArr cs :: ext, u) /\
                     Forall2 (repr_in (Datatypes.S (length h))
                                (Datatypes.S (length h) + length ext)
                                (h ++ OArr cs :: ext)) (take j ts) cs)
                (length vs) 0%nat (VRef (length h)) (h ++ [OArr []], u))
      as (prev' & s' & Hloop & HI).
    + split; [reflexivity|]. exists [], []. split; [reflexivity|].
      rewrite take_0. constructor.
    + intros j prev s Hj (-> & cs & ext & -> & Hcs). cbn [fst].
      split; [apply (hasIndex_app h _ l vs j Hl); lia|].
      destruct (lookup_lt_is_Some_2 vs j ltac:(lia)) as [vj Hvj].
      destruct (Forall2_lookup_r _ _ _ _ _ Hitems Hvj) as (tj & Htj & Hrj).
      assert (Hget : getProp (h ++ OArr cs :: ext) (VRef l) (KNum j) = vj).
      { unfold getProp. cbn [deref]. rewrite (lookup_app_l_Some _ _ _ _ Hl).
        cbn. rewrite Hvj. reflexivity. }
      rewrite Hget.
      pose proof (proj1 (Forall_lookup _ _) IH j tj Htj) as IHj. cbn beta in IHj.
      destruct (IHj vj (h ++ OArr cs :: ext) u (path ++ [KNum j]) n)
        as (c & extj & Hrec & Hc).
      { eapply repr_in_weaken; [| | |exact Hrj]; [lia | len |].
        intros l0 Hl0. apply lookup_app_l. lia. }
      { exact (proj1 (Forall_lookup _ _) Hkeys0 j tj Htj). }
      { pose proof (depth_item tj ts (list_elem_of_lookup_2 _ _ _ Htj)).
        simpl in Hfuel. lia. }
      exists c, ((h ++ OArr cs :: ext) ++ extj, u), (VRef (length h)),
             (h ++ OArr (cs ++ [c]) :: (ext ++ extj), u).
      split; [exact Hrec|]. split; [|split; [reflexivity|]].
      * cbn [arr_callback arrCopyReduction ARR_COPY_REDUCTION].
        rewrite <- app_assoc. cbn [app].
        rewrite (bind_done _ _ _ _ _
                   (push_done _ u (length h) cs c
                      (list_lookup_middle h _ _ (length h) eq_refl))).
        rewrite insert_middle. reflexivity.
      * exists (cs ++ [c]), (ext ++ extj). split; [reflexivity|].
        rewrite (take_S_r _ _ _ Htj). apply Forall2_app.
        -- eapply Forall2_impl; [exact Hcs|]. intros t0 v0 Ht0.
           eapply repr_in_weaken; [| | |exact Ht0]; [lia | len |].
           intros l0 Hl0.
           rewrite !lookup_app_r by lia.
           replace (l0 - length h)%nat with (Datatypes.S (l0 - Datatypes.S (length h)))
             by lia.
           cbn. apply lookup_app_l. lia.
        -- constructor; [|constructor].
           eapply repr_in_weaken; [| | |exact Hc]; [len | len |].
           intros l0 Hl0. 
           rewrite <- app_assoc. cbn [app]. 
           assert (length h < l0)%nat by (revert Hl0; len).
           rewrite !lookup_app_r by lia.
           replace (l0 - length h)%nat with (Datatypes.S (l0 - Datatypes.S (length h)))
             by lia.
           reflexivity.
    + destruct HI as (-> & cs & ext & -> & Hcs).
      exists (VRef (length h)), (OArr cs :: ext). split.
      * eapply visit_array; eassumption.
      * econstructor.
        -- len.
        -- apply list_lookup_middle. reflexivity.
        -- rewrite Nat.add_0_l in Hcs.
           rewrite take_ge in Hcs by (rewrite (Forall2_length _ _ _ Hitems); lia).
           eapply Forall2_impl; [exact Hcs|]. intros t0 v0 Ht0.
           eapply repr_in_weaken; [| | |exact Ht0]; [lia | len |].
           reflexivity.
  - match goal with H : h !! l = Some _ |- _ => rename H into Hl end.
    match goal with H : Forall2 _ kts ps |- _ => rename H into Hprops end.
    match goal with H : NoDup _ |- _ => rename H into Hnd end.
    pose proof (Forall2_keys _ _ _ Hprops) as Hkeys.
    apply no_proto_key_props in Hkeys0.
    destruct (recordReducer_loop_inv
                (fun prev current key =>
                   let* reducedItem :=
                     reduceInternal n (recursiveMapper_factories alwaysAbsent) current
                       (path ++ [KStr key]) in
                   obj_callback objCopyReduction prev reducedItem key)
                (VRef l)
                (fun j value s =>
                   value = VRef (length h) /\
                   exists cps ext,
                     s = (h ++ OObj cps :: ext, u) /\
                     Forall2 (fun kt kv =>
                                fst kt = fst kv /\
                                repr_in (Datatypes.S (length h))
                                  (Datatypes.S (length h) + length ext)
                                  (h ++ OObj cps :: ext) (snd kt) (snd kv))
                       (take j kts) cps)
                (map fst ps) 0%nat (VRef (length h)) (h ++ [OObj []], u))
      as (value' & s' & Hloop & HI).
    + split; [reflexivity|]. exists [], []. split; [reflexivity|].
      rewrite take_0. constructor.
    + intros j key value s Hkey (-> & cps & ext & -> & Hcps). cbn [fst].
      rewrite Nat.add_0_l in Hcps |- *.
      apply list_lookup_fmap_Some in Hkey as ([key' vj] & Hkey' & Hvj).
      cbn in Hkey'. subst key'.
      destruct (Forall2_lookup_r _ _ _ _ _ Hprops Hvj) as ([k tj] & Htj & Hk & Hrj).
      cbn in Hk, Hrj. subst k.
      assert (Hget : getProp (h ++ OObj cps :: ext) (VRef l) (KStr key) = vj).
      { unfold getProp. cbn [deref]. rewrite (lookup_app_l_Some _ _ _ _ Hl).
        cbn. rewrite (assoc_lookup_NoDup ps Hnd j key vj Hvj). reflexivity. }
      rewrite Hget.
      pose proof (proj1 (Forall_lookup _ _) IH j _ Htj) as IHj. cbn in IHj.
      pose proof (proj1 (Forall_lookup _ _) Hkeys0 j _ Htj) as [Hkey0 Htj0].
      cbn [fst snd] in Hkey0, Htj0.
      destruct (IHj vj (h ++ OObj cps :: ext) u (path ++ [KStr key]) n)
        as (c & extj & Hrec & Hc).
      { eapply repr_in_weaken; [| | |exact Hrj]; [lia | len |].
        intros l0 Hl0. apply lookup_app_l. lia. }
      { exact Htj0. }
      { pose proof (depth_prop _ kts (list_elem_of_lookup_2 _ _ _ Htj)) as Hd.
        cbn in Hd. simpl in Hfuel. lia. }
      exists (VRef (length h)), (h ++ OObj (cps ++ [(key, c)]) :: (ext ++ extj), u).
      split.
      * rewrite (bind_done _ _ _ _ _ Hrec).
        cbn [obj_callback objCopyReduction OBJ_COPY_REDUCTION].
        rewrite <- app_assoc. cbn [app].
        rewrite (bind_done _ _ _ _ _
                   (setMember_done _ u (length h) (OObj cps) (KStr key) c
                      (list_lookup_middle h _ _ (length h) eq_refl))).
        rewrite insert_middle.
        rewrite setOwn_fresh; [reflexivity | exact Hkey0 |].
        rewrite <- (Forall2_keys _ _ _ Hcps), <- firstn_map, Hkeys.
        apply NoDup_not_in_take; [exact Hnd|].
        rewrite list_lookup_fmap, Hvj. reflexivity.
      * split; [reflexivity|].
        exists (cps ++ [(key, c)]), (ext ++ extj). split; [reflexivity|].
        rewrite (take_S_r _ _ _ Htj). apply Forall2_app.
        -- eapply Forall2_impl; [exact Hcps|]. intros kt kv [Hk Ht0].
           split; [exact Hk|].
           eapply repr_in_weaken; [| | |exact Ht0]; [lia | len |].
           intros l0 Hl0.
           rewrite !lookup_app_r by lia.
           replace (l0 - length h)%nat with (Datatypes.S (l0 - Datatypes.S (length h)))
             by lia.
           cbn. apply lookup_app_l. lia.
        -- constructor; [|constructor]. split; [reflexivity|]. cbn [snd].
           eapply repr_in_weaken; [| | |exact Hc]; [len | len |].
           intros l0 Hl0.
           rewrite <- app_assoc. cbn [app].
           assert (length h < l0)%nat by (revert Hl0; len).
           rewrite !lookup_app_r by lia.
           replace (l0 - length h)%nat with (Datatypes.S (l0 - Datatypes.S (length h)))
             by lia.
           reflexivity.
    + destruct HI as (-> & cps & ext & -> & Hcps).
      exists (VRef (length h)), (OObj cps :: ext). split.
      * eapply visit_object; eassumption.
      * rewrite Nat.add_0_l in Hcps.
        rewrite take_ge in Hcps
          by (rewrite length_map, (Forall2_length _ _ _ Hprops); lia).
        econstructor.
        -- len.
        -- apply list_lookup_middle. reflexivity.
        -- rewrite <- (Forall2_keys _ _ _ Hcps), Hkeys. exact Hnd.
        -- eapply Forall2_impl; [exact Hcps|]. intros kt kv [Hk Ht0].
           split; [exact Hk|].
           eapply repr_in_weaken; [| | |exact Ht0]; [lia | len |].
           reflexivity.
Qed.
End CopyFacts.

Lemma repr_heap_ab :
  repr_in 0 2 heap_ab
    (TObj [("a", TPrim (PBool true)); ("b", TArr [TPrim (PNum 7)])]) (VRef 1).
Proof.
  eapply repr_obj with (ps := [("a", VPrim (PBool true)); ("b", VRef 0)]).
  - lia.
  - reflexivity.
  - apply (bool_decide_unpack _). reflexivity.
  - repeat constructor.
    eapply repr_arr with (vs := [VPrim (PNum 7)]); [lia | reflexivity |].
    repeat constructor.
Qed.

Lemma repr_heap_proto_key :
  repr_in 0 1 heap_proto_key
    (TObj [("__proto__", TPrim (PNum 1)); ("b", TPrim (PNum 2))]) (VRef 0).
Proof.
  eapply repr_obj with (ps := [("__proto__", VPrim (PNum 1)); ("b", VPrim (PNum 2))]).
  - lia.
  - reflexivity.
  - apply (bool_decide_unpack _). reflexivity.
  - repeat constructor.
Qed.

(** C2, as the claim has it, fails.  The copy of an object is built with
    [prev[key] = current] on a new [{}]: for the key [__proto__] this runs
    the setter of [Object.prototype] and adds no property, so the copy of
    [{"__proto__": 1, "b": 2}] is [{"b": 2}], which does not hold the
    structure of the input.  The copy of an array is built by [rs.reduce],
    which skips holes, and [push]: the copy of [[1, , 3]], of length 3, is
    [[1, 3]], of length 2. *)
Lemma recursiveMapper_copy_loses_proto_and_holes :
  (recursiveMapper 2 alwaysAbsent (VRef 0) (heap_proto_key, tt) =
     Done (VRef 1) (heap_proto_key ++ [OObj [("b", VPrim (PNum 2))]], tt))
  /\ (recursiveMapper 2 alwaysAbsent (VRef 0) (heap_hole, tt) =
        Done (VRef 1) (heap_hole ++ [OArr [VPrim (PNum 1); VPrim (PNum 3)]], tt) /\
      arrayLength heap_hole (VRef 0) = 3%nat /\
      arrayLength (heap_hole ++ [OArr [VPrim (PNum 1); VPrim (PNum 3)]]) (VRef 1) = 2%nat)
  /\ ~ (forall (t : tree) (v : val) (h : heap) (fuel : nat),
           repr_in 0 (length h) h t v ->
           (depth t <= fuel)%nat ->
           exists v' ext,
             recursiveMapper fuel alwaysAbsent v (h, tt) = Done v' (h ++ ext, tt) /\
             repr_in (length h) (length h + length ext) (h ++ ext) t v').
Proof.
  assert (Hrun : recursiveMapper 2 alwaysAbsent (VRef 0) (heap_proto_key, tt) =
                 Done (VRef 1) (heap_proto_key ++ [OObj [("b", VPrim (PNum 2))]], tt))
    by (vm_compute; reflexivity).
  split; [exact Hrun|]. split.
  - split; [vm_compute; reflexivity|]. split; reflexivity.
  - intros Hall.
    destruct (Hall _ (VRef 0) heap_proto_key 2%nat repr_heap_proto_key ltac:(simpl; lia))
      as (v' & ext & Hrun' & Hcopy).
    rewrite Hrun in Hrun'. injection Hrun' as <- <-.
    inversion Hcopy as [| |l ps kts Hl Hlook Hnd Hprops]; subst.
    cbn in Hlook. injection Hlook as <-.
    apply Forall2_length in Hprops. discriminate.
Qed.

(** C2, amended.  Take a value that holds a nested structure [t] of arrays
    without holes, plain objects and primitives, all of it in the heap
    [h], in which no object has an own property named [__proto__].  The
    function built by [recursiveMapper] with the handler that is always
    absent returns, given fuel for the depth of [t], a value that holds the
    same structure [t] (same lengths, same order, same keys), every
    container of which is an object allocated by the call, beyond the end
    of [h]; the heap [h] itself is unchanged, so the input still holds
    [t], and a container is never returned as it was given. *)
Theorem recursiveMapper_copies_structure :
  forall (U : Type) (t : tree) (v : val) (h : heap) (u : U) (fuel : nat),
    repr_in 0 (length h) h t v ->
    no_proto_key t ->
    (depth t <= fuel)%nat ->
    exists v' ext,
      recursiveMapper fuel alwaysAbsent v (h, u) = Done v' (h ++ ext, u) /\
      repr_in 0 (length h) (h ++ ext) t v /\
      repr_in (length h) (length h + length ext) (h ++ ext) t v' /\
      (isObject v = true -> v' <> v).
Proof.
  intros U t v h u fuel Hrepr Hkeys Hfuel.
  destruct (copy_tree t v h u [] fuel Hrepr Hkeys Hfuel) as (v' & ext & Hrun & Hcopy).
  exists v', ext. split; [exact Hrun|]. split; [|split; [exact Hcopy|]].
  - eapply repr_in_weaken; [| | |exact Hrepr]; [lia | lia |].
    intros l Hl. apply lookup_app_l. lia.
  - intros Hobj ->. destruct t; inversion Hrepr; subst; try discriminate;
      inversion Hcopy; subst; lia.
Qed.

Lemma recursiveMapper_copies_structure_witness :
  exists v' ext,
    recursiveMapper 3 alwaysAbsent (VRef 1) (heap_ab, tt) = Done v' (heap_ab ++ ext, tt) /\
    repr_in 0 2 (heap_ab ++ ext)
      (TObj [("a", TPrim (PBool true)); ("b", TArr [TPrim (PNum 7)])]) (VRef 1) /\
    repr_in 2 (2 + length ext) (heap_ab ++ ext)
      (TObj [("a", TPrim (PBool true)); ("b", TArr [TPrim (PNum 7)])]) v' /\
    (isObject (VRef 1) = true -> v' <> VRef 1).
Proof.
  apply (recursiveMapper_copies_structure unit
           (TObj [("a", TPrim (PBool true)); ("b", TArr [TPrim (PNum 7)])])
           (VRef 1) heap_ab tt 3 repr_heap_ab).
  - simpl. repeat split; discriminate.
  - simpl. lia.
Defined.

(** ** The iteration limit of [promiseAll] *)

Section Safety.
Context {S : Type}.

Lemma no_limit_error_ret {A} (a : A) : no_limit_error (@ret S A a).
Proof. intros s limit s'. discriminate. Qed.

Lemma no_limit_error_bind {A B} (m : M S A) (k : A -> M S B) :
  no_limit_error m -> (forall a, no_limit_error (k a)) -> no_limit_error (bind m k).
Proof.
  intros Hm Hk s limit s'. unfold bind.
  destruct (m s) as [a s1|e s1|] eqn:Hms; [apply Hk | | discriminate].
  intros Heq. injection Heq as -> ->. exact (Hm _ _ _ Hms).
Qed.

Lemma no_limit_error_run_chain (fs : list (@PathFn S)) current path :
  Forall (fun f => forall v p, no_limit_error (f v p)) fs ->
  no_limit_error (run_chain fs current path).
Proof.
  induction 1 as [|f fs Hf _ IH]; simpl.
  - apply no_limit_error_ret.
  - apply no_limit_error_bind; [apply Hf|].
    intros [v|]; [apply no_limit_error_ret | exact IH].
Qed.

Lemma no_limit_error_reduceInternal (factories : list (@Factory S)) :
  Forall (fun factory =>
            forall recurse : Recurse,
              (forall v p, no_limit_error (recurse v p)) ->
              forall v p, no_limit_error (factory recurse v p)) factories ->
  forall fuel v p, no_limit_error (reduceInternal fuel factories v p).
Proof.
  intros Hfac. induction fuel as [|fuel IH]; intros v p; simpl.
  - intros s limit s'. discriminate.
  - apply no_limit_error_run_chain.
    apply Forall_fmap. eapply Forall_impl; [exact Hfac|].
    intros factory Hf. cbn. apply Hf, IH.
Qed.

Lemma no_limit_error_recordLookup_loop (valueKeyFn : val -> step -> M S val) :
  (forall v k, no_limit_error (valueKeyFn v k)) ->
  forall keys st, no_limit_error (recordLookup_loop valueKeyFn keys st).
Proof.
  intros Hstep. induction keys as [|key keys IH]; intros st; simpl.
  - apply no_limit_error_ret.
  - destruct (nullish (value st)); [apply no_limit_error_ret|].
    apply no_limit_error_bind; [apply Hstep|]. intros v. apply IH.
Qed.
End Safety.

Section SafetyHeap.
Context {U : Type}.

Lemma no_limit_error_alloc o : no_limit_error (@alloc U o).
Proof. intros s limit s'. discriminate. Qed.

Lemma no_limit_error_push a x : no_limit_error (@push U a x).
Proof.
  intros s limit s'. unfold push.
  destruct a as [p|l]; [discriminate|].
  destruct (s.1 !! l) as [[xs|ps|q|slots]|]; discriminate.
Qed.

Lemma no_limit_error_setMember a k x : no_limit_error (@setMember U a k x).
Proof.
  intros s limit s'. unfold setMember.
  destruct a as [p|l]; [discriminate|].
  destruct (s.1 !! l); discriminate.
Qed.

Lemma no_limit_error_getMember a k : no_limit_error (@getMember U a k).
Proof.
  intros s limit s'. unfold getMember. destruct (nullish a); discriminate.
Qed.

Lemma no_limit_error_arr_reduce_loop (red : IArrReduction) (recurse : Recurse) rs path :
  (forall prev c i, no_limit_error (arr_callback red prev c i)) ->
  (forall v p, no_limit_error (recurse v p)) ->
  forall indices prev,
    no_limit_error (@arr_reduce_loop U red recurse rs path indices prev).
Proof.
  intros Hcb Hrec. induction indices as [|i indices IH]; intros prev; simpl.
  - apply no_limit_error_ret.
  - intros s limit s'. destruct (hasIndex _ _ _); [|apply IH].
    apply no_limit_error_bind; [apply Hrec|]. intros c.
    apply no_limit_error_bind; [apply Hcb|]. intros prev'. apply IH.
Qed.

Lemma no_limit_error_recordReducer_loop
  (callback : val -> val -> string -> M (world U) val) record :
  (forall prev c k, no_limit_error (callback prev c k)) ->
  forall keys value, no_limit_error (recordReducer_loop callback record keys value).
Proof.
  intros Hcb. induction keys as [|key keys IH]; intros value; simpl.
  - apply no_limit_error_ret.
  - apply no_limit_error_bind; [|intros v; apply IH].
    intros s limit s'. apply Hcb.
Qed.

Lemma no_limit_error_recursiveMapper (pathFnFactory : @Factory (world U)) :
  (forall recurse v p, no_limit_error (pathFnFactory recurse v p)) ->
  forall fuel a, no_limit_error (recursiveMapper fuel pathFnFactory a).
Proof.
  intros Hcustom fuel a. unfold recursiveMapper, recursiveReducerInternal.
  apply no_limit_error_reduceInternal.
  repeat constructor.
  - intros recurse _. apply Hcustom.
  - intros recurse Hrec v p s limit s'. unfold extendArrPathFn.
    destruct (isArray s.1 v); [|discriminate].
    apply no_limit_error_bind; [|intros r; apply no_limit_error_ret].
    unfold arrReductionToRecursivePathFn.
    apply no_limit_error_bind; [apply no_limit_error_alloc|].
    intros seed s0 limit0 s0'.
    apply no_limit_error_arr_reduce_loop; [|exact Hrec].
    intros prev c i. cbn.
    apply no_limit_error_bind; [apply no_limit_error_push|].
    intros _. apply no_limit_error_ret.
  - intros recurse Hrec v p s limit s'. unfold extendObjPathFn.
    destruct (isObject v); [|discriminate].
    apply no_limit_error_bind; [|intros r; apply no_limit_error_ret].
    unfold objReductionToRecursivePathFn, recordReducer.
    apply no_limit_error_bind; [apply no_limit_error_alloc|].
    intros seed s0 limit0 s0'.
    apply no_limit_error_recordReducer_loop.
    intros prev c k.
    apply no_limit_error_bind; [apply Hrec|]. intros item. cbn.
    apply no_limit_error_bind; [apply no_limit_error_setMember|].
    intros _. apply no_limit_error_ret.
Qed.

End SafetyHeap.

Section SafetyPromiseAll.
Context {U : Type}.

Lemma no_limit_error_extractPromises depth a :
  no_limit_error (@extractPromises U depth a).
Proof.
  intros s limit s'. unfold extractPromises, with_local.
  match goal with |- context [match ?m ?s0 with _ => _ end] =>
    destruct (m s0) as [r s1|e s1|] eqn:Hm end; try discriminate.
  intros Heq. injection Heq as -> _.
  revert Hm. apply no_limit_error_bind; [apply no_limit_error_alloc|].
  intros wrapped. apply no_limit_error_recursiveMapper.
  intros recurse v p s0 limit0 s0'. unfold promiseHandler.
  destruct (isPromise s0.1 v); discriminate.
Qed.

Lemma no_limit_error_awaitAll promises : no_limit_error (@awaitAll U promises).
Proof.
  induction promises as [|p rest IH]; simpl; [apply no_limit_error_ret|].
  intros s limit s'.
  destruct (deref s.1 p) as [[xs|ps|[v|r]|slots]|]; try discriminate;
    (apply no_limit_error_bind; [exact IH | intros vs; apply no_limit_error_ret]).
Qed.

Lemma no_limit_error_spliceAll promisified promisePaths :
  forall resolvedValues,
    no_limit_error (@spliceAll U promisified promisePaths resolvedValues).
Proof.
  induction promisePaths as [|pp pps IH]; intros [|x xs]; simpl;
    try apply no_limit_error_ret.
  apply no_limit_error_bind; [|intros _; apply IH].
  unfold spliceOne. apply no_limit_error_bind.
  - apply no_limit_error_recordLookup_loop. apply no_limit_error_getMember.
  - intros r. apply no_limit_error_setMember.
Qed.

Lemma no_limit_error_splicePass promisified promisePaths :
  no_limit_error (@splicePass U promisified promisePaths).
Proof.
  unfold splicePass, splicePassWith.
  apply no_limit_error_bind; [apply no_limit_error_awaitAll|]. intros vs.
  apply no_limit_error_bind; [apply no_limit_error_spliceAll|]. intros _.
  apply no_limit_error_getMember.
Qed.

Lemma no_limit_error_promiseAll_loop depth :
  forall fuel count a, no_limit_error (@promiseAll_loop U fuel depth 0 count a).
Proof.
  induction fuel as [|fuel IH]; intros count a; simpl.
  - intros s limit s'. discriminate.
  - apply no_limit_error_bind; [apply no_limit_error_extractPromises|].
    intros scan. destruct (bool_decide _); [apply no_limit_error_getMember|].
    cbn. apply no_limit_error_bind; [apply no_limit_error_splicePass|].
    intros next. apply IH.
Qed.
End SafetyPromiseAll.

Section LimitFacts.
Context {U : Type}.

Lemma limitReached_false limit count k :
  limit = 0%Z \/ (Z.of_nat count + Z.of_nat (Datatypes.S k) <= limit)%Z ->
  limitReached limit count = false.
Proof.
  unfold limitReached. intros [->|Hle]; [reflexivity|].
  apply andb_false_iff. right. apply Z.leb_gt. lia.
Qed.

(** Enough passes are allowed: the loop returns what the passes produce. *)
Lemma promiseAll_loop_resolves depth limit :
  forall k fuel count a (s : world U) r s',
    needsPasses depth k a s r s' ->
    (k < fuel)%nat ->
    limit = 0%Z \/ (Z.of_nat count + Z.of_nat k <= limit)%Z ->
    promiseAll_loop fuel depth limit count a s = Done r s'.
Proof.
  induction k as [|k IH]; intros fuel count a s r s' Hneeds Hfuel Hlimit;
    (destruct fuel as [|fuel]; [lia|]); simpl in Hneeds |- *.
  - destruct Hneeds as (promisified & s1 & Hscan & Hget).
    rewrite (bind_done _ _ _ _ _ Hscan). exact Hget.
  - destruct Hneeds as (promisified & pps & s1 & next & s2 & Hscan & Hne & Hsplice & Hrest).
    rewrite (bind_done _ _ _ _ _ Hscan). cbn [fst snd].
    rewrite bool_decide_eq_false_2 by (destruct pps; [congruence | discriminate]).
    rewrite (limitReached_false limit count k Hlimit).
    rewrite (bind_done _ _ _ _ _ Hsplice).
    apply (IH fuel (Datatypes.S count) next s2 r s' Hrest); lia.
Qed.

(** Too few passes are allowed: the loop throws at the first scan that
    finds promises once [count] has reached the limit. *)
Lemma promiseAll_loop_limit depth limit :
  forall k fuel count a (s : world U) r s',
    needsPasses depth (Datatypes.S k) a s r s' ->
    (Datatypes.S k < fuel)%nat ->
    limit <> 0%Z ->
    (limit <= Z.of_nat count + Z.of_nat k)%Z ->
    exists s'', promiseAll_loop fuel depth limit count a s = Throw (LimitError limit) s''.
Proof.
  induction k as [|k IH]; intros fuel count a s r s' Hneeds Hfuel Hnz Hlimit;
    (destruct fuel as [|fuel]; [lia|]);
    destruct Hneeds as (promisified & pps & s1 & next & s2 & Hscan & Hne & Hsplice & Hrest);
    cbn [promiseAll_loop]; rewrite (bind_done _ _ _ _ _ Hscan); cbn [fst snd];
    rewrite bool_decide_eq_false_2 by (destruct pps; [congruence | discriminate]);
    destruct (limitReached limit count) eqn:Hreached;
    try (exists s1; reflexivity).
  - exfalso. unfold limitReached in Hreached.
    apply andb_false_iff in Hreached as [Hz|Hlt].
    + apply negb_false_iff, Z.eqb_eq in Hz. contradiction.
    + apply Z.leb_gt in Hlt. lia.
  - rewrite (bind_done _ _ _ _ _ Hsplice).
    apply (IH fuel (Datatypes.S count) next s2 r s' Hrest); [lia | exact Hnz |].
    unfold limitReached in Hreached.
    apply andb_false_iff in Hreached as [Hz|Hlt].
    + apply negb_false_iff, Z.eqb_eq in Hz. contradiction.
    + apply Z.leb_gt in Hlt. lia.
Qed.
End LimitFacts.

Lemma nested_promise_needs_two :
  exists r s',
    needsPasses 3 2 (VRef 2) (heap_nested_promise, tt) r s' /\
    reify 2 s'.1 r = Some (TArr [TPrim (PNum 1)]).
Proof.
  eexists. eexists. split.
  - simpl. do 5 eexists. split; [vm_compute; reflexivity|].
    split; [discriminate|]. split; [vm_compute; reflexivity|].
    do 5 eexists. split; [vm_compute; reflexivity|].
    split; [discriminate|]. split; [vm_compute; reflexivity|].
    do 2 eexists. split; vm_compute; reflexivity.
  - vm_compute. reflexivity.
Qed.

(** C4.  When a structure needs exactly two scan-and-splice passes, the
    resolver called with limit 2 returns the value those passes produce,
    and called with limit 1 it throws the limit-exceeded error, whose text
    names the limit.  For [Promise.resolve([Promise.resolve(1)])] the
    value returned with limit 2 is [[1]]. *)
Theorem promiseAll_limit_two_passes :
  (forall (U : Type) (fuel depth : nat) (a : val) (s : world U) (r : val) (s' : world U),
      needsPasses depth 2 a s r s' ->
      (2 < fuel)%nat ->
      promiseAll fuel depth a (Some 2%Z) s = Done r s' /\
      exists s'', promiseAll fuel depth a (Some 1%Z) s = Throw (LimitError 1) s'')
  /\ message (LimitError 1) = "Could not resolve all promises with limit 1. Sorry."
  /\ (exists r s',
        promiseAll 3 3 (VRef 2) (Some 2%Z) (heap_nested_promise, tt) = Done r s' /\
        reify 2 s'.1 r = Some (TArr [TPrim (PNum 1)]))
  /\ (exists s'',
        promiseAll 3 3 (VRef 2) (Some 1%Z) (heap_nested_promise, tt) =
          Throw (LimitError 1) s'').
Proof.
  assert (Hgen : forall (U : Type) (fuel depth : nat) (a : val) (s : world U) r s',
             needsPasses depth 2 a s r s' ->
             (2 < fuel)%nat ->
             promiseAll fuel depth a (Some 2%Z) s = Done r s' /\
             exists s'', promiseAll fuel depth a (Some 1%Z) s = Throw (LimitError 1) s'').
  { intros U fuel depth a s r s' Hneeds Hfuel. unfold promiseAll. cbn [default]. split.
    - apply (promiseAll_loop_resolves depth 2 2 fuel 0 a s r s' Hneeds Hfuel). right. lia.
    - apply (promiseAll_loop_limit depth 1 1 fuel 0 a s r s' Hneeds Hfuel); lia. }
  split; [exact Hgen|]. split; [reflexivity|].
  destruct nested_promise_needs_two as (r & s' & Hneeds & Hreify).
  destruct (Hgen unit 3 3 (VRef 2) (heap_nested_promise, tt) r s' Hneeds ltac:(lia))
    as [Hok Hfail].
  split; [exists r, s'; split; assumption | exact Hfail].
Qed.

Lemma promiseAll_limit_two_passes_witness :
  exists r s',
    needsPasses 3 2 (VRef 2) (heap_nested_promise, tt) r s' /\
    promiseAll 3 3 (VRef 2) (Some 2%Z) (heap_nested_promise, tt) = Done r s' /\
    exists s'',
      promiseAll 3 3 (VRef 2) (Some 1%Z) (heap_nested_promise, tt) =
        Throw (LimitError 1) s''.
Proof.
  destruct nested_promise_needs_two as (r & s' & Hneeds & _).
  exists r, s'. split; [exact Hneeds|].
  apply (proj1 promiseAll_limit_two_passes unit 3 3 (VRef 2)
           (heap_nested_promise, tt) r s' Hneeds).
  lia.
Defined.

(** C5, as the source has it.  A call without a limit takes the default
    limit, 10: it is the call with limit 10.  When the structure needs at
    most 10 passes the call returns the value the passes produce; when it
    needs more, the call throws the limit-exceeded error for limit 10. *)
Theorem promiseAll_default_limit :
  forall (U : Type) (fuel depth : nat) (a : val) (s : world U),
    promiseAll fuel depth a None s = promiseAll fuel depth a (Some 10%Z) s /\
    forall k r s',
      needsPasses depth k a s r s' ->
      (k < fuel)%nat ->
      ((k <= 10)%nat -> promiseAll fuel depth a None s = Done r s') /\
      ((10 < k)%nat ->
       exists s'', promiseAll fuel depth a None s = Throw (LimitError 10) s'').
Proof.
  intros U fuel depth a s. split; [reflexivity|].
  intros k r s' Hneeds Hfuel. unfold promiseAll. cbn [default]. split; intros Hk.
  - apply (promiseAll_loop_resolves depth 10 k fuel 0 a s r s' Hneeds Hfuel). right. lia.
  - destruct k as [|k]; [lia|].
    apply (promiseAll_loop_limit depth 10 k fuel 0 a s r s' Hneeds Hfuel); lia.
Qed.

Lemma promiseAll_default_limit_witness :
  exists r s',
    needsPasses 3 2 (VRef 2) (heap_nested_promise, tt) r s' /\
    promiseAll 3 3 (VRef 2) None (heap_nested_promise, tt) = Done r s'.
Proof.
  destruct nested_promise_needs_two as (r & s' & Hneeds & _).
  exists r, s'. split; [exact Hneeds|].
  apply (proj2 (promiseAll_default_limit unit 3 3 (VRef 2) (heap_nested_promise, tt))
           2%nat r s' Hneeds); lia.
Defined.

(** C5, as the claim has it, fails: a call without a limit on a tower of
    11 nested promises throws the limit-exceeded error for limit 10, though
    the tower resolves when the limit is disabled. *)
Lemma promiseAll_without_limit_fails :
  (exists s',
      promiseAll 12 25 (promise_tower 11).2 None ((promise_tower 11).1, tt) =
        Throw (LimitError 10) s')
  /\ (exists r s',
        promiseAll 12 25 (promise_tower 11).2 (Some 0%Z) ((promise_tower 11).1, tt) =
          Done r s').
Proof.
  split.
  - eexists. vm_compute. reflexivity.
  - eexists. eexists. vm_compute. reflexivity.
Qed.

(** C9.  With limit 0 the resolver never throws the limit-exceeded error,
    whatever the input, the state and the fuel; and whatever number of
    passes a structure needs, the call returns the value they produce. *)
Theorem promiseAll_limit_zero_unlimited :
  forall (U : Type) (fuel depth : nat) (a : val) (s : world U),
    (forall limit s',
        promiseAll fuel depth a (Some 0%Z) s <> Throw (LimitError limit) s')
    /\ (forall k r s',
        needsPasses depth k a s r s' ->
        (k < fuel)%nat ->
        promiseAll fuel depth a (Some 0%Z) s = Done r s').
Proof.
  intros U fuel depth a s. split.
  - intros limit s'. apply no_limit_error_promiseAll_loop.
  - intros k r s' Hneeds Hfuel. unfold promiseAll. cbn [default].
    apply (promiseAll_loop_resolves depth 0 k fuel 0 a s r s' Hneeds Hfuel).
    left. reflexivity.
Qed.

Lemma promiseAll_limit_zero_unlimited_witness :
  exists r s',
    needsPasses 3 2 (VRef 2) (heap_nested_promise, tt) r s' /\
    promiseAll 3 3 (VRef 2) (Some 0%Z) (heap_nested_promise, tt) = Done r s'.
Proof.
  destruct nested_promise_needs_two as (r & s' & Hneeds & _).
  exists r, s'. split; [exact Hneeds|].
  apply (proj2 (promiseAll_limit_zero_unlimited unit 3 3 (VRef 2)
                  (heap_nested_promise, tt)) 2%nat r s' Hneeds).
  lia.
Defined.

(** ** Reuse of a fold *)

Lemma frame_trans n n' (h h' h'' : heap) :
  (n <= n')%nat -> frame n h h' -> frame n' h' h'' -> frame n h h''.
Proof.
  intros Hn [Hlen Hag] [Hlen' Hag']. split; [lia|].
  intros l Hl. rewrite Hag' by lia. apply Hag, Hl.
Qed.

Lemma frame_weaken n n' (h h' : heap) :
  (n <= n')%nat -> frame n' h h' -> frame n h h'.
Proof. intros Hn [Hlen Hag]. split; [exact Hlen|]. intros l Hl. apply Hag. lia. Qed.

Lemma frame_arrayLength n (h h' : heap) l vs :
  frame n h h' -> (l < n)%nat -> h !! l = Some (OArr vs) ->
  arrayLength h' (VRef l) = length vs.
Proof.
  intros [_ Hag] Hl Hlook. unfold arrayLength. cbn [deref].
  rewrite (Hag l Hl), Hlook. reflexivity.
Qed.

Lemma frame_hasIndex n (h h' : heap) l vs j :
  frame n h h' -> (l < n)%nat -> h !! l = Some (OArr vs) -> (j < length vs)%nat ->
  hasIndex h' (VRef l) j = true.
Proof.
  intros [_ Hag] Hl Hlook Hj. unfold hasIndex. cbn [deref].
  rewrite (Hag l Hl), Hlook. apply bool_decide_eq_true_2, Hj.
Qed.

Lemma frame_keysOf n (h h' : heap) l ps :
  frame n h h' -> (l < n)%nat -> h !! l = Some (OObj ps) ->
  keysOf h' (VRef l) = map fst ps.
Proof.
  intros [_ Hag] Hl Hlook. unfold keysOf. cbn [deref].
  rewrite (Hag l Hl), Hlook. reflexivity.
Qed.

Lemma foldP_unfold {A} (overrideP : tree -> option A) mapperP combineP seedP t :
  foldP overrideP mapperP combineP seedP t =
  match overrideP t with
  | Some a => a
  | None =>
      match t with
      | TPrim p => mapperP p
      | TArr ts =>
          fold_left (fun a t => combineP a (foldP overrideP mapperP combineP seedP t))
            ts seedP
      | TObj kts =>
          fold_left
            (fun a kt => combineP a (foldP overrideP mapperP combineP seedP (snd kt)))
            kts seedP
      end
  end.
Proof. destruct t; reflexivity. Qed.

Lemma bind_ret_some {S} (m : M S val) s r s' :
  m s = Done r s' -> (let* r := m in ret (Some r)) s = Done (Some r) s'.
Proof. intros H. unfold bind. rewrite H. reflexivity. Qed.

Section FoldFacts.
Context {U A : Type}.
Variable R : nat -> nat -> heap -> val -> A -> Prop.
Variable seedP : A.
Variable mapperP : prim -> A.
Variable combineP : A -> A -> A.
Variable overrideP : tree -> option A.
Variable reduceInitial : M (world U) val.
Variable mapper : val -> M (world U) val.
Variable reduceCallback : val -> val -> M (world U) val.
Variable optionalMapper : val -> M (world U) (option val).
Variable ok : A -> Prop.
Hypothesis R_stable : stable_repr R.
Hypothesis seed_fresh : fresh_seed R seedP reduceInitial.
Hypothesis mapper_local : local_mapper R mapperP mapper.
Hypothesis ok_combine : forall a b, ok (combineP a b) -> ok a /\ ok b.
Hypothesis combine_local : local_combine_on R ok combineP reduceCallback.
Hypothesis override_local : local_override R overrideP optionalMapper.

Let factories :=
  recursiveMapperReducer_factories mapper reduceCallback reduceInitial optionalMapper.

Lemma fold_visit_override n v path s x s' :
  optionalMapper v s = Done (Some x) s' ->
  reduceInternal (Datatypes.S n) factories v path s = Done x s'.
Proof.
  intros Hopt. unfold factories.
  cbn [reduceInternal recursiveMapperReducer_factories map run_chain].
  rewrite (bind_done _ _ _ _ _ Hopt). reflexivity.
Qed.

Lemma fold_visit_prim n (p : prim) path s r s' :
  optionalMapper (VPrim p) s = Done None s ->
  mapper (VPrim p) s = Done r s' ->
  reduceInternal (Datatypes.S n) factories (VPrim p) path s = Done r s'.
Proof.
  intros Hopt Hmap. unfold factories.
  cbn [reduceInternal recursiveMapperReducer_factories map run_chain].
  rewrite (bind_done _ _ _ _ _ Hopt).
  unfold bind at 1. unfold extendArrPathFn at 1. unfold isArray. cbn [deref].
  unfold ret at 1.
  unfold bind at 1. unfold extendObjPathFn at 1. cbn [isObject]. unfold ret at 1.
  unfold bind. rewrite Hmap. reflexivity.
Qed.

Lemma fold_visit_array n l path (h : heap) (u : U) vs v0 h1 r s' :
  optionalMapper (VRef l) (h, u) = Done None (h, u) ->
  h !! l = Some (OArr vs) ->
  reduceInitial (h, u) = Done v0 (h1, u) ->
  arr_reduce_loop
    {| arr_initial := reduceInitial;
       arr_callback := fun prev current _ => reduceCallback prev current |}
    (reduceInternal n factories) (VRef l) path
    (seq 0 (arrayLength h1 (VRef l))) v0 (h1, u) = Done r s' ->
  reduceInternal (Datatypes.S n) factories (VRef l) path (h, u) = Done r s'.
Proof.
  intros Hopt Hl Hseed Hloop. unfold factories.
  cbn [reduceInternal recursiveMapperReducer_factories map run_chain].
  rewrite (bind_done _ _ _ _ _ Hopt).
  unfold bind at 1. unfold extendArrPathFn at 1. cbn [fst]. unfold isArray. cbn [deref].
  rewrite Hl.
  match goal with |- match ?m (h, u) with _ => _ end = _ =>
    assert (Harr : m (h, u) = Done (Some r) s') end.
  { apply bind_ret_some.
    unfold arrReductionToRecursivePathFn. cbn [arr_initial].
    rewrite (bind_done _ _ _ _ _ Hseed). exact Hloop. }
  rewrite Harr. reflexivity.
Qed.

Lemma fold_visit_object n l path (h : heap) (u : U) ps v0 h1 r s' :
  optionalMapper (VRef l) (h, u) = Done None (h, u) ->
  h !! l = Some (OObj ps) ->
  reduceInitial (h, u) = Done v0 (h1, u) ->
  recordReducer_loop
    (fun prev current key =>
       let* reducedItem := reduceInternal n factories current (path ++ [KStr key]) in
       reduceCallback prev reducedItem)
    (VRef l) (keysOf h1 (VRef l)) v0 (h1, u) = Done r s' ->
  reduceInternal (Datatypes.S n) factories (VRef l) path (h, u) = Done r s'.
Proof.
  intros Hopt Hl Hseed Hloop. unfold factories.
  cbn [reduceInternal recursiveMapperReducer_factories map run_chain].
  rewrite (bind_done _ _ _ _ _ Hopt).
  unfold bind at 1. unfold extendArrPathFn at 1. cbn [fst]. unfold isArray. cbn [deref].
  rewrite Hl. unfold ret at 1.
  unfold bind at 1. unfold extendObjPathFn at 1. cbn [isObject].
  match goal with |- match ?m (h, u) with _ => _ end = _ =>
    assert (Hobj : m (h, u) = Done (Some r) s') end.
  { apply bind_ret_some.
    unfold objReductionToRecursivePathFn, recordReducer. cbn [obj_initial obj_callback].
    rewrite (bind_done _ _ _ _ _ Hseed). exact Hloop. }
  rewrite Hobj. reflexivity.
Qed.

Lemma ok_fold_left_prefix {B : Type} (F : A -> B -> A) (l1 l2 : list B) :
  (forall a x, ok (F a x) -> ok a) ->
  ok (fold_left F (l1 ++ l2) seedP) -> ok (fold_left F l1 seedP).
Proof.
  intros HF. induction l2 as [|x l2 IH] using rev_ind.
  - rewrite app_nil_r. trivial.
  - rewrite app_assoc, fold_left_app. simpl. intros H. apply IH, (HF _ x), H.
Qed.

Lemma ok_fold_left_step {B : Type} (F : A -> B -> A) (l : list B) j x :
  (forall a x, ok (F a x) -> ok a) ->
  l !! j = Some x ->
  ok (fold_left F l seedP) -> ok (F (fold_left F (take j l) seedP) x).
Proof.
  intros HF Hx Hok.
  rewrite <- (take_drop (Datatypes.S j) l) in Hok.
  apply ok_fold_left_prefix in Hok; [|exact HF].
  rewrite (take_S_r _ _ _ Hx), fold_left_app in Hok. exact Hok.
Qed.

Lemma fold_tree_on (t : tree) :
  forall v h (u : U) path fuel,
    repr_in 0 (length h) h t v ->
    (depth t <= fuel)%nat ->
    ok (foldP overrideP mapperP combineP seedP t) ->
    exists r h',
      reduceInternal fuel factories v path (h, u) = Done r (h', u) /\
      frame (length h) h h' /\
      R (length h) (length h') h' r (foldP overrideP mapperP combineP seedP t).
Proof.
  induction t as [p|ts IH|kts IH] using tree_nested_ind;
    intros v h u path fuel Hrepr Hfuel;
    (destruct fuel as [|n]; [simpl in Hfuel; lia|]);
    pose proof (override_local _ v h u Hrepr) as Hopt;
    rewrite foldP_unfold;
    (destruct (overrideP _) as [a|] eqn:Hov;
     [intros _; destruct Hopt as (x & h' & Hrun & Hframe & HR);
      exists x, h'; split; [apply fold_visit_override; exact Hrun | split; assumption]|]);
    intros Hok; inversion Hrepr; subst.
  - destruct (mapper_local p h u) as (r & h' & Hmap & Hframe & HR).
    exists r, h'. split; [|split; assumption].
    apply fold_visit_prim; assumption.
  - match goal with H : h !! l = Some _ |- _ => rename H into Hl end.
    match goal with H : Forall2 _ ts vs |- _ => rename H into Hitems end.
    destruct (seed_fresh h u) as (v0 & h1 & Hseed & Hframe1 & HR0).
    pose proof (frame_arrayLength _ _ _ l vs Hframe1 ltac:(lia) Hl) as Hlen1.
    set (F := fun a t => combineP a (foldP overrideP mapperP combineP seedP t)).
    destruct (arr_reduce_loop_inv
                {| arr_initial := reduceInitial;
                   arr_callback := fun prev current _ => reduceCallback prev current |}
                (reduceInternal n factories) (VRef l) path
                (fun j prev s =>
                   exists hj,
                     s = (hj, u) /\ frame (length h) h hj /\
                     R (length h) (length hj) hj prev (fold_left F (take j ts) seedP))
                (length vs) 0%nat v0 (h1, u))
      as (prev' & s' & Hloop & HI).
    + exists h1. rewrite take_0. repeat split; assumption || apply Hframe1.
    + intros j prev s Hj (hj & -> & Hframej & HRj). cbn [fst].
      split; [apply (frame_hasIndex _ _ _ l vs j Hframej ltac:(lia) Hl); lia|].
      destruct (lookup_lt_is_Some_2 vs j ltac:(lia)) as [vj Hvj].
      destruct (Forall2_lookup_r _ _ _ _ _ Hitems Hvj) as (tj & Htj & Hrj).
      assert (Hget : getProp hj (VRef l) (KNum j) = vj).
      { unfold getProp. cbn [deref]. rewrite (proj2 Hframej l ltac:(lia)), Hl.
        cbn. rewrite Hvj. reflexivity. }
      rewrite Hget.
      pose proof (proj1 (Forall_lookup _ _) IH j tj Htj) as IHj. cbn beta in IHj.
      assert (Hokj : ok (F (fold_left F (take j ts) seedP) tj)).
      { apply (ok_fold_left_step F ts j tj); [|exact Htj|exact Hok].
        intros a0 x0 Hax. apply (ok_combine _ _ Hax). }
      destruct (IHj vj hj u (path ++ [KNum j]) n) as (c & h2 & Hrec & Hframe2 & HRc).
      { eapply repr_in_weaken; [| | |exact Hrj]; [lia | apply Hframej |].
        intros l0 Hl0. apply Hframej. lia. }
      { pose proof (depth_item tj ts (list_elem_of_lookup_2 _ _ _ Htj)).
        simpl in Hfuel. lia. }
      { apply (ok_combine _ _ Hokj). }
      destruct (combine_local (length h) (length hj) h2 u prev c
                  (fold_left F (take j ts) seedP)
                  (foldP overrideP mapperP combineP seedP tj))
        as (prev' & h3 & Hcb & Hframe3 & HR3).
      { split; [apply Hframej | apply Hframe2]. }
      { eapply R_stable; [|exact HRj]. intros l0 Hl0. apply Hframe2, Hl0. }
      { exact HRc. }
      { exact Hokj. }
      exists c, (h2, u), prev', (h3, u).
      split; [exact Hrec|]. split; [exact Hcb|].
      exists h3. split; [reflexivity|]. split.
      * eapply frame_trans; [| exact Hframej |]; [reflexivity|].
        eapply frame_trans; [| eapply frame_weaken; [|exact Hframe2] | exact Hframe3];
          [reflexivity | apply Hframej].
      * rewrite (take_S_r _ _ _ Htj), fold_left_app. exact HR3.
    + destruct HI as (h' & -> & Hframe & HR).
      exists prev', h'. split; [|split; [exact Hframe|]].
      * eapply fold_visit_array; try eassumption. rewrite Hlen1. exact Hloop.
      * rewrite Nat.add_0_l in HR.
        rewrite take_ge in HR by (rewrite (Forall2_length _ _ _ Hitems); lia).
        exact HR.
  - match goal with H : h !! l = Some _ |- _ => rename H into Hl end.
    match goal with H : Forall2 _ kts ps |- _ => rename H into Hprops end.
    match goal with H : NoDup _ |- _ => rename H into Hnd end.
    destruct (seed_fresh h u) as (v0 & h1 & Hseed & Hframe1 & HR0).
    pose proof (frame_keysOf _ _ _ l ps Hframe1 ltac:(lia) Hl) as Hkeys1.
    set (G := fun a (kt : string * tree) =>
                combineP a (foldP overrideP mapperP combineP seedP (snd kt))).
    destruct (recordReducer_loop_inv
                (fun prev current key =>
                   let* reducedItem :=
                     reduceInternal n factories current (path ++ [KStr key]) in
                   reduceCallback prev reducedItem)
                (VRef l)
                (fun j prev s =>
                   exists hj,
                     s = (hj, u) /\ frame (length h) h hj /\
                     R (length h) (length hj) hj prev (fold_left G (take j kts) seedP))
                (map fst ps) 0%nat v0 (h1, u))
      as (prev' & s' & Hloop & HI).
    + exists h1. rewrite take_0. repeat split; assumption || apply Hframe1.
    + intros j key prev s Hkey (hj & -> & Hframej & HRj). cbn [fst].
      rewrite Nat.add_0_l in HRj |- *.
      apply list_lookup_fmap_Some in Hkey as ([key' vj] & Hkey' & Hvj).
      cbn in Hkey'. subst key'.
      destruct (Forall2_lookup_r _ _ _ _ _ Hprops Hvj) as ([k tj] & Htj & Hk & Hrj).
      cbn in Hk, Hrj. subst k.
      assert (Hget : getProp hj (VRef l) (KStr key) = vj).
      { unfold getProp. cbn [deref]. rewrite (proj2 Hframej l ltac:(lia)), Hl.
        cbn. rewrite (assoc_lookup_NoDup ps Hnd j key vj Hvj). reflexivity. }
      rewrite Hget.
      pose proof (proj1 (Forall_lookup _ _) IH j _ Htj) as IHj. cbn in IHj.
      assert (Hokj : ok (G (fold_left G (take j kts) seedP) (key, tj))).
      { apply (ok_fold_left_step G kts j (key, tj)); [|exact Htj|exact Hok].
        intros a0 x0 Hax. apply (ok_combine _ _ Hax). }
      destruct (IHj vj hj u (path ++ [KStr key]) n) as (c & h2 & Hrec & Hframe2 & HRc).
      { eapply repr_in_weaken; [| | |exact Hrj]; [lia | apply Hframej |].
        intros l0 Hl0. apply Hframej. lia. }
      { pose proof (depth_prop _ kts (list_elem_of_lookup_2 _ _ _ Htj)) as Hd.
        cbn in Hd. simpl in Hfuel. lia. }
      { apply (ok_combine _ _ Hokj). }
      destruct (combine_local (length h) (length hj) h2 u prev c
                  (fold_left G (take j kts) seedP)
                  (foldP overrideP mapperP combineP seedP tj))
        as (prev' & h3 & Hcb & Hframe3 & HR3).
      { split; [apply Hframej | apply Hframe2]. }
      { eapply R_stable; [|exact HRj]. intros l0 Hl0. apply Hframe2, Hl0. }
      { exact HRc. }
      { exact Hokj. }
      exists prev', (h3, u). split.
      * rewrite (bind_done _ _ _ _ _ Hrec). exact Hcb.
      * exists h3. split; [reflexivity|]. split.
        -- eapply frame_trans; [| exact Hframej |]; [reflexivity|].
           eapply frame_trans; [| eapply frame_weaken; [|exact Hframe2] | exact Hframe3];
             [reflexivity | apply Hframej].
        -- rewrite (take_S_r _ _ _ Htj), fold_left_app. exact HR3.
    + destruct HI as (h' & -> & Hframe & HR).
      exists prev', h'. split; [|split; [exact Hframe|]].
      * eapply fold_visit_object; try eassumption. rewrite Hkeys1. exact Hloop.
      * rewrite Nat.add_0_l in HR.
        rewrite take_ge in HR
          by (rewrite length_map, (Forall2_length _ _ _ Hprops); lia).
        exact HR.
Qed.
End FoldFacts.

Section FoldFactsAll.
Context {U A : Type}.
Variable R : nat -> nat -> heap -> val -> A -> Prop.
Variable seedP : A.
Variable mapperP : prim -> A.
Variable combineP : A -> A -> A.
Variable overrideP : tree -> option A.
Variable reduceInitial : M (world U) val.
Variable mapper : val -> M (world U) val.
Variable reduceCallback : val -> val -> M (world U) val.
Variable optionalMapper : val -> M (world U) (option val).
Hypothesis R_stable : stable_repr R.
Hypothesis seed_fresh : fresh_seed R seedP reduceInitial.
Hypothesis mapper_local : local_mapper R mapperP mapper.
Hypothesis combine_local : local_combine R combineP reduceCallback.
Hypothesis override_local : local_override R overrideP optionalMapper.

Lemma fold_tree (t : tree) :
  forall v h (u : U) path fuel,
    repr_in 0 (length h) h t v ->
    (depth t <= fuel)%nat ->
    exists r h',
      reduceInternal fuel
        (recursiveMapperReducer_factories mapper reduceCallback reduceInitial
           optionalMapper) v path (h, u) = Done r (h', u) /\
      frame (length h) h h' /\
      R (length h) (length h') h' r (foldP overrideP mapperP combineP seedP t).
Proof.
  intros v h u path fuel Hrepr Hfuel.
  apply (fold_tree_on R seedP mapperP combineP overrideP reduceInitial mapper
           reduceCallback optionalMapper (fun _ => True) R_stable seed_fresh
           mapper_local); auto.
  intros lo mid h0 u0 prev current a b Hrange Ha Hb _.
  apply (combine_local lo mid h0 u0 prev current a b Hrange Ha Hb).
Qed.
End FoldFactsAll.

Section RecordFoldFacts.
Context {U A : Type}.
Variable R : nat -> nat -> heap -> val -> A -> Prop.
Variable seedP : A.
Variable combineP : A -> val -> string -> A.
Variable initial : M (world U) val.
Variable callback : val -> val -> string -> M (world U) val.
Hypothesis seed_fresh : fresh_seed R seedP initial.
Hypothesis combine_local : local_record_combine R combineP callback.

Lemma recordReducer_fold (h : heap) (u : U) l ps :
  h !! l = Some (OObj ps) ->
  NoDup (map fst ps) ->
  exists r h',
    recordReducer callback initial (VRef l) (h, u) = Done r (h', u) /\
    frame (length h) h h' /\
    R (length h) (length h') h' r (recordFoldP combineP seedP ps).
Proof.
  intros Hl Hnd.
  pose proof (lookup_lt_Some _ _ _ Hl) as Hlt.
  destruct (seed_fresh h u) as (v0 & h1 & Hseed & Hframe1 & HR0).
  pose proof (frame_keysOf _ _ _ l ps Hframe1 Hlt Hl) as Hkeys1.
  destruct (recordReducer_loop_inv callback (VRef l)
              (fun j prev s =>
                 exists hj,
                   s = (hj, u) /\ frame (length h) h hj /\
                   R (length h) (length hj) hj prev
                     (recordFoldP combineP seedP (take j ps)))
              (map fst ps) 0%nat v0 (h1, u))
    as (prev' & s' & Hloop & HI).
  - exists h1. rewrite take_0. repeat split; assumption || apply Hframe1.
  - intros j key prev s Hkey (hj & -> & Hframej & HRj). cbn [fst].
    rewrite Nat.add_0_l in HRj |- *.
    apply list_lookup_fmap_Some in Hkey as ([key' vj] & Hkey' & Hvj).
    cbn in Hkey'. subst key'.
    assert (Hget : getProp hj (VRef l) (KStr key) = vj).
    { unfold getProp. cbn [deref]. rewrite (proj2 Hframej l Hlt), Hl.
      cbn. rewrite (assoc_lookup_NoDup ps Hnd j key vj Hvj). reflexivity. }
    rewrite Hget.
    destruct (combine_local (length h) hj u prev vj key _ (proj1 Hframej) HRj)
      as (prev' & h3 & Hcb & Hframe3 & HR3).
    exists prev', (h3, u). split; [exact Hcb|].
    exists h3. split; [reflexivity|]. split.
    + eapply frame_trans; [| exact Hframej | exact Hframe3]. reflexivity.
    + unfold recordFoldP. rewrite (take_S_r _ _ _ Hvj), fold_left_app. exact HR3.
  - destruct HI as (h' & -> & Hframe & HR).
    exists prev', h'. split; [|split; [exact Hframe|]].
    + unfold recordReducer. rewrite (bind_done _ _ _ _ _ Hseed).
      cbn [fst]. rewrite Hkeys1. exact Hloop.
    + rewrite Nat.add_0_l in HR. rewrite take_ge in HR by (rewrite length_map; lia).
      exact HR.
Qed.
End RecordFoldFacts.

(** The functions of [extractAll(numberMapper)] and of the list-collecting
    record fold keep to their own accumulator. *)

Lemma collected_stable : stable_repr collected.
Proof.
  intros lo hi h h' v ps Hagree (l & -> & Hl & Hlook).
  exists l. split; [reflexivity|]. split; [exact Hl|].
  rewrite Hagree by lia. exact Hlook.
Qed.

Lemma alloc_frame (h : heap) o : frame (length h) h (h ++ [o]).
Proof.
  split; [len|]. intros l Hl. apply lookup_app_l, Hl.
Qed.

Lemma alloc_empty_fresh {U} : fresh_seed (U := U) collected [] (alloc (OArr [])).
Proof.
  intros h u. exists (VRef (length h)), (h ++ [OArr []]).
  split; [reflexivity|]. split; [apply alloc_frame|].
  exists (length h). split; [reflexivity|]. split; [len|].
  apply list_lookup_middle. reflexivity.
Qed.

Lemma alloc_empty_mapper {U} :
  local_mapper (U := U) collected (fun _ => []) (fun _ => alloc (OArr [])).
Proof. intros p. apply alloc_empty_fresh. Qed.

Lemma insert_frame lo (h : heap) l o :
  (lo <= l)%nat -> frame lo h (<[l := o]> h).
Proof.
  intros Hl. split; [rewrite length_insert; lia|].
  intros l0 Hl0. apply list_lookup_insert_ne. lia.
Qed.

Lemma tooManyArguments_le argumentsLimit n m :
  (n <= m)%nat ->
  tooManyArguments argumentsLimit m = false -> tooManyArguments argumentsLimit n = false.
Proof.
  destruct argumentsLimit as [limit|]; [|reflexivity]. simpl. intros Hle Hm.
  apply bool_decide_eq_false in Hm. apply bool_decide_eq_false. lia.
Qed.

Lemma spreadPushWithin_local {U} argumentsLimit :
  local_combine_on (U := U) collected
    (fun a => tooManyArguments argumentsLimit (length a) = false) app
    (spreadPushWithin argumentsLimit).
Proof.
  intros lo mid h u prev current a b Hrange (l & -> & Hl & Hlook) (l' & -> & Hl' & Hlook')
    Hok.
  exists (VRef l), (<[l := OArr (map VPrim a ++ map VPrim b)]> h).
  split; [|split].
  - unfold spreadPushWithin, spreadItems. cbn [deref fst snd]. rewrite Hlook', Hlook.
    rewrite length_map.
    rewrite (tooManyArguments_le _ (length b) (length (a ++ b)));
      [reflexivity | rewrite length_app; lia | exact Hok].
  - apply insert_frame. lia.
  - exists l. split; [reflexivity|]. rewrite length_insert. split; [lia|].
    rewrite map_app. apply list_lookup_insert_eq. lia.
Qed.

Lemma spreadPush_local {U} : local_combine (U := U) collected app spreadPush.
Proof.
  intros lo mid h u prev current a b Hrange (l & -> & Hl & Hlook) (l' & -> & Hl' & Hlook').
  exists (VRef l), (<[l := OArr (map VPrim a ++ map VPrim b)]> h).
  split; [|split].
  - unfold spreadPush, spreadPushWithin, spreadItems. cbn [deref fst snd].
    rewrite Hlook', Hlook. reflexivity.
  - apply insert_frame. lia.
  - exists l. split; [reflexivity|]. rewrite length_insert. split; [lia|].
    rewrite map_app. apply list_lookup_insert_eq. lia.
Qed.

Lemma numberMapper_local {U} :
  local_override (U := U) collected numbersOnly (extractAll_override numberMapper).
Proof.
  intros t v h u Hrepr.
  destruct t as [p|ts|kts]; inversion Hrepr; subst; try reflexivity.
  destruct p as [| |b|n|s]; try reflexivity.
  cbn [numbersOnly].
  exists (VRef (length h)), (h ++ [OArr [VPrim (PNum n)]]).
  split; [reflexivity|]. split; [apply alloc_frame|].
  exists (length h). split; [reflexivity|]. split; [len|].
  apply list_lookup_middle. reflexivity.
Qed.

Lemma alloc_empty_fresh_values {U} :
  fresh_seed (U := U) collected_values [] (alloc (OArr [])).
Proof.
  intros h u. exists (VRef (length h)), (h ++ [OArr []]).
  split; [reflexivity|]. split; [apply alloc_frame|].
  exists (length h). split; [reflexivity|]. split; [len|].
  apply list_lookup_middle. reflexivity.
Qed.

Lemma pushValue_local {U} :
  local_record_combine (U := U) collected_values (fun a current _ => a ++ [current])
    pushValue.
Proof.
  intros lo h u prev current key a Hlo (l & -> & Hl & Hlook).
  exists (VRef l), (<[l := OArr (a ++ [current])]> h).
  split; [|split].
  - unfold pushValue, bind, push. cbn [fst snd]. rewrite Hlook. reflexivity.
  - apply insert_frame. lia.
  - exists l. split; [reflexivity|]. rewrite length_insert. split; [lia|].
    apply list_lookup_insert_eq. lia.
Qed.

Lemma repr_two_inputs :
  repr_in 0 2 heap_two_inputs (TArr [TPrim (PNum 3); TPrim (PStr "a")]) (VRef 0) /\
  repr_in 0 2 heap_two_inputs (TObj [("b", TPrim (PNum 7))]) (VRef 1).
Proof.
  split.
  - eapply repr_arr with (vs := [VPrim (PNum 3); VPrim (PStr "a")]);
      [lia | reflexivity | repeat constructor].
  - eapply repr_obj with (ps := [("b", VPrim (PNum 7))]);
      [lia | reflexivity | apply (bool_decide_unpack _); reflexivity | repeat constructor].
Qed.

(** A seed that hands out the same array on every call is not fresh, and
    the fold leaks: after the first record has been folded, the fold of the
    second one returns the values of both. *)
Lemma shared_seed_leaks :
  exists r1 s1 r2 s2,
    recordReducer pushValue (ret (VRef 4)) (VRef 1) (heap_shared, tt) = Done r1 s1 /\
    recordReducer pushValue (ret (VRef 4)) (VRef 3) s1 = Done r2 s2 /\
    deref s2.1 r2 =
      Some (OArr [VPrim (PBool true); VRef 0; VPrim (PNum 90);
                  VRef 2; VPrim PNull; VPrim (PStr "h")]).
Proof.
  do 4 eexists. split; [vm_compute; reflexivity|].
  split; vm_compute; reflexivity.
Qed.

(** C8.  Reuse of a fold leaks nothing.  Let the seed factory return a
    fresh accumulator on each call, and let the combine function, the leaf
    mapper and the override change nothing that existed before the
    accumulator they are given was seeded, nor the variables of the
    caller.  Fold a first input, then fold a second input with the same
    function: the second result stands for the summary of the second input
    alone, the one a fold of the second input gives when the first fold has
    not taken place, and it is built from objects allocated after the first
    fold was over.  This holds for the record fold ([recordReducer]) and
    for the recursive fold ([recursiveMapperReducer]). *)
Theorem fold_reuse_isolated :
  (forall (U A : Type) (R : nat -> nat -> heap -> val -> A -> Prop)
          (seedP : A) (combineP : A -> val -> string -> A)
          (initial : M (world U) val)
          (callback : val -> val -> string -> M (world U) val),
      fresh_seed R seedP initial ->
      local_record_combine R combineP callback ->
      forall (h0 : heap) (u : U) l1 ps1 l2 ps2,
        h0 !! l1 = Some (OObj ps1) -> NoDup (map fst ps1) ->
        h0 !! l2 = Some (OObj ps2) -> NoDup (map fst ps2) ->
        exists r1 h1 r2 h2 r2' h2',
          recordReducer callback initial (VRef l1) (h0, u) = Done r1 (h1, u) /\
          recordReducer callback initial (VRef l2) (h1, u) = Done r2 (h2, u) /\
          recordReducer callback initial (VRef l2) (h0, u) = Done r2' (h2', u) /\
          R (length h1) (length h2) h2 r2 (recordFoldP combineP seedP ps2) /\
          R (length h0) (length h2') h2' r2' (recordFoldP combineP seedP ps2))
  /\ (forall (U A : Type) (R : nat -> nat -> heap -> val -> A -> Prop)
             (seedP : A) (mapperP : prim -> A) (combineP : A -> A -> A)
             (overrideP : tree -> option A)
             (reduceInitial : M (world U) val) (mapper : val -> M (world U) val)
             (reduceCallback : val -> val -> M (world U) val)
             (optionalMapper : val -> M (world U) (option val)),
      stable_repr R ->
      fresh_seed R seedP reduceInitial ->
      local_mapper R mapperP mapper ->
      local_combine R combineP reduceCallback ->
      local_override R overrideP optionalMapper ->
      forall (h0 : heap) (u : U) (t1 t2 : tree) (v1 v2 : val) (fuel : nat),
        repr_in 0 (length h0) h0 t1 v1 -> (depth t1 <= fuel)%nat ->
        repr_in 0 (length h0) h0 t2 v2 -> (depth t2 <= fuel)%nat ->
        let fold :=
          recursiveMapperReducer fuel mapper reduceCallback reduceInitial optionalMapper in
        exists r1 h1 r2 h2 r2' h2',
          fold v1 (h0, u) = Done r1 (h1, u) /\
          fold v2 (h1, u) = Done r2 (h2, u) /\
          fold v2 (h0, u) = Done r2' (h2', u) /\
          R (length h1) (length h2) h2 r2 (foldP overrideP mapperP combineP seedP t2) /\
          R (length h0) (length h2') h2' r2'
            (foldP overrideP mapperP combineP seedP t2)).
Proof.
  split.
  - intros U A R seedP combineP initial callback Hseed Hcb h0 u l1 ps1 l2 ps2
      Hl1 Hnd1 Hl2 Hnd2.
    destruct (recordReducer_fold R seedP combineP initial callback Hseed Hcb
                h0 u l1 ps1 Hl1 Hnd1) as (r1 & h1 & Hrun1 & Hframe1 & _).
    assert (Hl2' : h1 !! l2 = Some (OObj ps2)).
    { rewrite (proj2 Hframe1 l2 (lookup_lt_Some _ _ _ Hl2)). exact Hl2. }
    destruct (recordReducer_fold R seedP combineP initial callback Hseed Hcb
                h1 u l2 ps2 Hl2' Hnd2) as (r2 & h2 & Hrun2 & _ & HR2).
    destruct (recordReducer_fold R seedP combineP initial callback Hseed Hcb
                h0 u l2 ps2 Hl2 Hnd2) as (r2' & h2' & Hrun2' & _ & HR2').
    exists r1, h1, r2, h2, r2', h2'. repeat split; assumption.
  - intros U A R seedP mapperP combineP overrideP reduceInitial mapper reduceCallback
      optionalMapper Hstable Hseed Hmapper Hcb Hopt h0 u t1 t2 v1 v2 fuel
      Hrepr1 Hfuel1 Hrepr2 Hfuel2 fold.
    unfold fold, recursiveMapperReducer, recursiveReducerInternal.
    destruct (fold_tree R seedP mapperP combineP overrideP reduceInitial mapper
                reduceCallback optionalMapper Hstable Hseed Hmapper Hcb Hopt
                t1 v1 h0 u [] fuel Hrepr1 Hfuel1) as (r1 & h1 & Hrun1 & Hframe1 & _).
    assert (Hrepr2' : repr_in 0 (length h1) h1 t2 v2).
    { eapply repr_in_weaken; [| | |exact Hrepr2]; [lia | apply Hframe1 |].
      intros l Hl. apply Hframe1. lia. }
    destruct (fold_tree R seedP mapperP combineP overrideP reduceInitial mapper
                reduceCallback optionalMapper Hstable Hseed Hmapper Hcb Hopt
                t2 v2 h1 u [] fuel Hrepr2' Hfuel2) as (r2 & h2 & Hrun2 & _ & HR2).
    destruct (fold_tree R seedP mapperP combineP overrideP reduceInitial mapper
                reduceCallback optionalMapper Hstable Hseed Hmapper Hcb Hopt
                t2 v2 h0 u [] fuel Hrepr2 Hfuel2) as (r2' & h2' & Hrun2' & _ & HR2').
    exists r1, h1, r2, h2, r2', h2'. repeat split; assumption.
Qed.

Lemma fold_reuse_isolated_witness :
  (exists r1 h1 r2 h2 r2' h2',
      recordReducer pushValue (alloc (OArr [])) (VRef 1) (heap_records, tt) =
        Done r1 (h1, tt) /\
      recordReducer pushValue (alloc (OArr [])) (VRef 3) (h1, tt) = Done r2 (h2, tt) /\
      recordReducer pushValue (alloc (OArr [])) (VRef 3) (heap_records, tt) =
        Done r2' (h2', tt) /\
      collected_values (length h1) (length h2) h2 r2
        [VRef 2; VPrim PNull; VPrim (PStr "h")] /\
      collected_values 4 (length h2') h2' r2'
        [VRef 2; VPrim PNull; VPrim (PStr "h")])
  /\ (exists r1 h1 r2 h2 r2' h2',
        extractAll 2 numberMapper (VRef 0) (heap_two_inputs, tt) = Done r1 (h1, tt) /\
        extractAll 2 numberMapper (VRef 1) (h1, tt) = Done r2 (h2, tt) /\
        extractAll 2 numberMapper (VRef 1) (heap_two_inputs, tt) = Done r2' (h2', tt) /\
        collected (length h1) (length h2) h2 r2 [PNum 7] /\
        collected 2 (length h2') h2' r2' [PNum 7]).
Proof.
  split.
  - apply (proj1 fold_reuse_isolated unit (list val) collected_values []
             (fun a current _ => a ++ [current]) (alloc (OArr [])) pushValue
             alloc_empty_fresh_values pushValue_local heap_records tt
             1%nat [("a", VPrim (PBool true)); ("b", VRef 0); ("c", VPrim (PNum 90))]
             3%nat [("a", VRef 2); ("b", VPrim PNull); ("c", VPrim (PStr "h"))]);
      try reflexivity; apply (bool_decide_unpack _); reflexivity.
  - apply (proj2 fold_reuse_isolated unit (list prim) collected [] (fun _ => []) app
             numbersOnly (alloc (OArr [])) (fun _ => alloc (OArr [])) spreadPush
             (extractAll_override numberMapper)
             collected_stable alloc_empty_fresh alloc_empty_mapper spreadPush_local
             numberMapper_local heap_two_inputs tt
             (TArr [TPrim (PNum 3); TPrim (PStr "a")]) (TObj [("b", TPrim (PNum 7))])
             (VRef 0) (VRef 1) 2%nat (proj1 repr_two_inputs)).
    + simpl. lia.
    + exact (proj2 repr_two_inputs).
    + simpl. lia.
Defined.

(** * Further properties of the code *)

Lemma bind_throw_step {S A B} (m : M S A) (k : A -> M S B) s e s' :
  m s = Throw e s' -> bind m k s = Throw e s'.
Proof. unfold bind. intros ->. reflexivity. Qed.

(** ** Path lookup with any step function *)

Section LookupInvariants.
Context {S : Type}.
Variable valueKeyFn : val -> step -> M S val.

Lemma recordLookup_loop_split :
  forall keys st s r s',
    recordLookup_loop valueKeyFn keys st s = Done r s' ->
    unresolvedPath st = keys ->
    exists n,
      (n <= length keys)%nat /\
      resolvedPath r = resolvedPath st ++ take n keys /\
      unresolvedPath r = drop n keys /\
      length (values r) = (length (values st) + n)%nat /\
      (Forall (fun v => nullish v = false) (values st) ->
       Forall (fun v => nullish v = false) (values r)) /\
      (n < length keys -> nullish (value r) = true)%nat.
Proof.
  induction keys as [|key keys IH]; intros st s r s' Hrun Hunres; simpl in Hrun.
  - injection Hrun as <- <-. exists 0%nat. rewrite app_nil_r.
    repeat split; try assumption; simpl; try lia. auto.
  - destruct (nullish (value st)) eqn:Hnull.
    + injection Hrun as <- <-. exists 0%nat. rewrite app_nil_r.
      repeat split; try assumption; simpl; try lia; auto.
    + unfold bind in Hrun.
      destruct (valueKeyFn (value st) key s) as [v1 s1|e s1|] eqn:Hstep;
        try discriminate.
      apply IH in Hrun; [|simpl; rewrite Hunres; reflexivity].
      destruct Hrun as (n & Hn & Hres & Hun & Hlen & Hall & Hnullish).
      cbn [resolvedPath unresolvedPath value values] in *.
      exists (Datatypes.S n). split; [simpl; lia|].
      split; [rewrite Hres, <- app_assoc; reflexivity|].
      split; [exact Hun|].
      split; [rewrite Hlen, length_app; simpl; lia|].
      split.
      * intros Hst. apply Hall. apply Forall_app. split; [exact Hst|].
        constructor; [exact Hnull | constructor].
      * intros Hlt. apply Hnullish. simpl in Hlt. lia.
Qed.

Lemma recordLookup_loop_throws :
  forall pre key post st s v e s',
    walks_to valueKeyFn s (value st) pre v ->
    nullish v = false ->
    valueKeyFn v key s = Throw e s' ->
    recordLookup_loop valueKeyFn (pre ++ key :: post) st s = Throw e s'.
Proof.
  induction pre as [|k pre IH]; intros key post st s v e s' Hwalk Hnull Hthrow;
    simpl in Hwalk |- *.
  - subst v. rewrite Hnull. apply bind_throw_step. exact Hthrow.
  - destruct Hwalk as (Hroot & v1 & Hstep & Hwalk). rewrite Hroot.
    rewrite (bind_done _ _ _ _ _ Hstep).
    eapply IH; eassumption.
Qed.
End LookupInvariants.

(** X1.  Whatever the step function does, a lookup that returns has split
    the path in two: the resolved path followed by the unresolved path is
    the path that was given, there is one visited ancestor per resolved
    step, none of them null or undefined, and steps are left unresolved
    only when the value reached is null or undefined. *)
Theorem recordLookup_splits_path :
  forall (S : Type) (valueKeyFn : val -> step -> M S val) (path : TPath)
         (root : val) (s s' : S) (r : IRecordLookupResult),
    recordLookup path valueKeyFn root s = Done r s' ->
    resolvedPath r ++ unresolvedPath r = path /\
    length (values r) = length (resolvedPath r) /\
    Forall (fun v => nullish v = false) (values r) /\
    (unresolvedPath r <> [] -> nullish (value r) = true).
Proof.
  intros S valueKeyFn path root s s' r Hrun.
  apply recordLookup_loop_split in Hrun; [|reflexivity].
  destruct Hrun as (n & Hn & Hres & Hun & Hlen & Hall & Hnullish).
  cbn [resolvedPath values app length Nat.add] in *.
  rewrite Hres, Hun, Hlen, length_take.
  split; [apply take_drop|]. split; [lia|].
  split; [apply Hall; constructor|].
  intros Hne. apply Hnullish.
  destruct (decide (n < length path)%nat) as [|Hge]; [assumption|].
  exfalso. apply Hne. apply drop_ge. lia.
Qed.

Lemma recordLookup_splits_path_witness :
  let r := {| resolvedPath := [KStr "c"];
              unresolvedPath := [KNum 0];
              value := undefined;
              values := [VRef 1] |} in
  resolvedPath r ++ unresolvedPath r = [KStr "c"; KNum 0] /\
  length (values r) = length (resolvedPath r) /\
  Forall (fun v => nullish v = false) (values r) /\
  (unresolvedPath r <> [] -> nullish (value r) = true).
Proof.
  apply (recordLookup_splits_path (world unit) getMember [KStr "c"; KNum 0]
           (VRef 1) (heap_ab, tt) (heap_ab, tt)).
  reflexivity.
Defined.

(** X2.  With the default step, [value[key]], a lookup always returns and
    leaves the state as it was: the step is never taken from null or
    undefined, so the error of reading a property of null or undefined
    cannot arise, whatever the path and the root. *)
Theorem recordLookup_default_step_returns :
  forall (U : Type) (path : TPath) (root : val) (s : world U),
    exists r, recordLookup path getMember root s = Done r s.
Proof.
  intros U path root s.
  destruct (recordLookup_loop_walk getMember (getProp s.1) s) with
    (path := path) (root := root) (keys := path) (i := 0%nat)
    (st := {| resolvedPath := []; unresolvedPath := path; value := root; values := [] |})
    as (n & _ & Hrun & _); try reflexivity.
  - intros v k Hv. unfold getMember. rewrite Hv. reflexivity.
  - constructor.
  - eexists. exact Hrun.
Qed.

(** X3.  An error thrown by the step function is the error of the lookup:
    when the walk reaches, without a null or undefined value on the way, a
    value at which the step function throws for the next step, the lookup
    throws the same error in the same state, whatever steps follow. *)
Theorem recordLookup_step_error_propagates :
  forall (S : Type) (valueKeyFn : val -> step -> M S val) (pre post : TPath)
         (key : step) (root v : val) (s s' : S) (e : exn),
    walks_to valueKeyFn s root pre v ->
    nullish v = false ->
    valueKeyFn v key s = Throw e s' ->
    recordLookup (pre ++ key :: post) valueKeyFn root s = Throw e s'.
Proof.
  intros S valueKeyFn pre post key root v s s' e Hwalk Hnull Hthrow.
  unfold recordLookup. eapply recordLookup_loop_throws; eassumption.
Qed.

Lemma recordLookup_step_error_propagates_witness :
  let required := fun (v : val) (k : step) (s : world unit) =>
    match getProp s.1 v k with
    | VPrim PUndefined => Throw (Rejection (VPrim (PStr "Value is not present"))) s
    | x => Done x s
    end in
  recordLookup ([KStr "b"] ++ KNum 1 :: [KStr "x"]) required (VRef 1) (heap_ab, tt) =
    Throw (Rejection (VPrim (PStr "Value is not present"))) (heap_ab, tt).
Proof.
  intros required.
  apply (recordLookup_step_error_propagates (world unit) required [KStr "b"]
           [KStr "x"] (KNum 1) (VRef 1) (VRef 0) (heap_ab, tt) (heap_ab, tt)).
  - simpl. split; [reflexivity|]. exists (VRef 0). split; reflexivity.
  - reflexivity.
  - reflexivity.
Defined.

(** ** The limit of [promiseAll], in general *)

(** X4.  A limit other than 0 allows as many scan-and-splice passes as it
    says.  When a structure needs [k] passes, the call returns the value
    they produce if the limit is 0, if [k] is 0, or if the limit is at
    least [k]; it throws the limit-exceeded error for that limit if the
    limit is not 0 and below [k], and [k] is not 0.  A negative limit
    therefore fails as soon as one promise is found, and a structure
    without promises resolves under every limit. *)
Theorem promiseAll_limit_allows_passes :
  forall (U : Type) (fuel depth k : nat) (a : val) (s : world U) (r : val)
         (s' : world U) (limit : Z),
    needsPasses depth k a s r s' ->
    (k < fuel)%nat ->
    (limit = 0%Z \/ k = 0%nat \/ (Z.of_nat k <= limit)%Z ->
     promiseAll fuel depth a (Some limit) s = Done r s') /\
    (limit <> 0%Z -> (0 < k)%nat -> (limit < Z.of_nat k)%Z ->
     exists s'', promiseAll fuel depth a (Some limit) s = Throw (LimitError limit) s'').
Proof.
  intros U fuel depth k a s r s' limit Hneeds Hfuel. unfold promiseAll. cbn [default].
  split.
  - intros [->|[->|Hle]].
    + apply (promiseAll_loop_resolves depth 0 k fuel 0 a s r s' Hneeds Hfuel).
      left. reflexivity.
    + destruct fuel as [|fuel]; [lia|].
      destruct Hneeds as (promisified & s1 & Hscan & Hget).
      cbn [promiseAll_loop]. rewrite (bind_done _ _ _ _ _ Hscan). exact Hget.
    + apply (promiseAll_loop_resolves depth limit k fuel 0 a s r s' Hneeds Hfuel).
      right. lia.
  - intros Hnz Hpos Hlt. destruct k as [|k]; [lia|].
    apply (promiseAll_loop_limit depth limit k fuel 0 a s r s' Hneeds Hfuel Hnz). lia.
Qed.

Lemma promiseAll_limit_allows_passes_witness :
  exists s'',
    promiseAll 3 3 (VRef 2) (Some (-1)%Z) (heap_nested_promise, tt) =
      Throw (LimitError (-1)) s''.
Proof.
  destruct nested_promise_needs_two as (r & s' & Hneeds & _).
  apply (proj2 (promiseAll_limit_allows_passes unit 3 3 2 (VRef 2)
                  (heap_nested_promise, tt) r s' (-1)%Z Hneeds ltac:(lia))); lia.
Defined.

(** ** Folds with pure functions *)

(** X5.  A record fold whose seed and callback leave the state alone
    returns the left fold of the properties of the record, taken in the
    order of its keys, and leaves the state as it was; for a record
    without properties this is the seed. *)
Theorem recordReducer_pure_fold :
  forall (U : Type) (f : val -> val -> string -> val) (v0 : val)
         (callback : val -> val -> string -> M (world U) val)
         (initial : M (world U) val) (h : heap) (u : U) (l : loc)
         (ps : list (string * val)),
    (forall prev current key, callback prev current key (h, u) =
                              Done (f prev current key) (h, u)) ->
    initial (h, u) = Done v0 (h, u) ->
    h !! l = Some (OObj ps) ->
    NoDup (map fst ps) ->
    recordReducer callback initial (VRef l) (h, u) =
      Done (fold_left (fun a kv => f a (snd kv) (fst kv)) ps v0) (h, u).
Proof.
  intros U f v0 callback initial h u l ps Hcb Hseed Hl Hnd.
  destruct (recordReducer_loop_inv callback (VRef l)
              (fun j value s =>
                 s = (h, u) /\
                 value = fold_left (fun a kv => f a (snd kv) (fst kv)) (take j ps) v0)
              (map fst ps) 0%nat v0 (h, u))
    as (value' & s' & Hloop & -> & ->).
  - split; [reflexivity|]. rewrite take_0. reflexivity.
  - intros j key value s Hkey (-> & ->). rewrite Nat.add_0_l. cbn [fst].
    apply list_lookup_fmap_Some in Hkey as ([key' vj] & Hkey' & Hvj).
    cbn in Hkey'. subst key'.
    eexists. exists (h, u). split; [apply Hcb|].
    split; [reflexivity|].
    rewrite (take_S_r _ _ _ Hvj), fold_left_app. cbn [fold_left fst snd].
    unfold getProp. cbn [deref]. rewrite Hl. cbn.
    rewrite (assoc_lookup_NoDup ps Hnd j key vj Hvj). reflexivity.
  - unfold recordReducer. rewrite (bind_done _ _ _ _ _ Hseed).
    unfold keysOf. cbn [fst deref]. rewrite Hl. cbn [ownKeys]. rewrite Hloop.
    rewrite Nat.add_0_l, take_ge by (rewrite length_map; lia). reflexivity.
Qed.

Lemma recordReducer_pure_fold_witness :
  recordReducer (fun prev current _ => ret (plusP prev current)) (ret (VPrim (PNum 0)))
    (VRef 0) (heap_sum, tt) = Done (VPrim (PNum 5)) (heap_sum, tt).
Proof.
  apply (recordReducer_pure_fold unit (fun prev current _ => plusP prev current)
           (VPrim (PNum 0)) (fun prev current _ => ret (plusP prev current))
           (ret (VPrim (PNum 0))) heap_sum tt 0%nat
           [("a", VPrim (PNum 3)); ("b", VPrim (PNum 10)); ("c", VPrim (PNum (-8)))]).
  - reflexivity.
  - reflexivity.
  - reflexivity.
  - apply (bool_decide_unpack _). reflexivity.
Defined.

Section PureFold.
Context {U : Type}.
Variable seedP : val.
Variable mapperP : prim -> val.
Variable combineP : val -> val -> val.
Variable overrideP : tree -> option val.
Variable reduceInitial : M (world U) val.
Variable mapper : val -> M (world U) val.
Variable reduceCallback : val -> val -> M (world U) val.
Variable optionalMapper : val -> M (world U) (option val).
Variable h : heap.
Variable u : U.
Hypothesis seed_pure : reduceInitial (h, u) = Done seedP (h, u).
Hypothesis mapper_pure : forall p, mapper (VPrim p) (h, u) = Done (mapperP p) (h, u).
Hypothesis combine_pure :
  forall a b, reduceCallback a b (h, u) = Done (combineP a b) (h, u).
Hypothesis override_pure :
  forall t v, repr_in 0 (length h) h t v ->
              optionalMapper v (h, u) = Done (overrideP t) (h, u).

Lemma fold_tree_pure (t : tree) :
  forall v path fuel,
    repr_in 0 (length h) h t v ->
    (depth t <= fuel)%nat ->
    reduceInternal fuel
      (recursiveMapperReducer_factories mapper reduceCallback reduceInitial
         optionalMapper) v path (h, u) =
      Done (foldP overrideP mapperP combineP seedP t) (h, u).
Proof.
  induction t as [p|ts IH|kts IH] using tree_nested_ind;
    intros v path fuel Hrepr Hfuel;
    (destruct fuel as [|n]; [simpl in Hfuel; lia|]);
    pose proof (override_pure _ v Hrepr) as Hopt;
    rewrite foldP_unfold;
    (destruct (overrideP _) as [a|] eqn:Hov;
     [apply fold_visit_override; exact Hopt|]);
    inversion Hrepr; subst.
  - apply fold_visit_prim; [exact Hopt | apply mapper_pure].
  - match goal with H : h !! l = Some _ |- _ => rename H into Hl end.
    match goal with H : Forall2 _ ts vs |- _ => rename H into Hitems end.
    set (F := fun a t => combineP a (foldP overrideP mapperP combineP seedP t)).
    destruct (arr_reduce_loop_inv
                {| arr_initial := reduceInitial;
                   arr_callback := fun prev current _ => reduceCallback prev current |}
                (reduceInternal n
                   (recursiveMapperReducer_factories mapper reduceCallback
                      reduceInitial optionalMapper)) (VRef l) path
                (fun j prev s => s = (h, u) /\ prev = fold_left F (take j ts) seedP)
                (length vs) 0%nat seedP (h, u))
      as (prev' & s' & Hloop & -> & ->).
    + split; [reflexivity|]. rewrite take_0. reflexivity.
    + intros j prev s Hj (-> & ->). cbn [fst].
      split; [unfold hasIndex; cbn [deref]; rewrite Hl;
              apply bool_decide_eq_true_2; lia|].
      destruct (lookup_lt_is_Some_2 vs j ltac:(lia)) as [vj Hvj].
      destruct (Forall2_lookup_r _ _ _ _ _ Hitems Hvj) as (tj & Htj & Hrj).
      assert (Hget : getProp h (VRef l) (KNum j) = vj).
      { unfold getProp. cbn [deref]. rewrite Hl. cbn. rewrite Hvj. reflexivity. }
      rewrite Hget.
      pose proof (proj1 (Forall_lookup _ _) IH j tj Htj) as IHj. cbn beta in IHj.
      eexists. exists (h, u). eexists. exists (h, u).
      split; [apply (IHj vj (path ++ [KNum j]) n Hrj)|].
      { pose proof (depth_item tj ts (list_elem_of_lookup_2 _ _ _ Htj)).
        simpl in Hfuel. lia. }
      split; [apply combine_pure|]. split; [reflexivity|].
      rewrite (take_S_r _ _ _ Htj), fold_left_app. reflexivity.
    + eapply fold_visit_array; try eassumption.
      unfold arrayLength. cbn [deref]. rewrite Hl. rewrite Hloop.
      rewrite Nat.add_0_l, take_ge by (rewrite (Forall2_length _ _ _ Hitems); lia).
      reflexivity.
  - match goal with H : h !! l = Some _ |- _ => rename H into Hl end.
    match goal with H : Forall2 _ kts ps |- _ => rename H into Hprops end.
    match goal with H : NoDup _ |- _ => rename H into Hnd end.
    set (G := fun a (kt : string * tree) =>
                combineP a (foldP overrideP mapperP combineP seedP (snd kt))).
    destruct (recordReducer_loop_inv
                (fun prev current key =>
                   let* reducedItem :=
                     reduceInternal n
                       (recursiveMapperReducer_factories mapper reduceCallback
                          reduceInitial optionalMapper) current (path ++ [KStr key]) in
                   reduceCallback prev reducedItem)
                (VRef l)
                (fun j prev s => s = (h, u) /\ prev = fold_left G (take j kts) seedP)
                (map fst ps) 0%nat seedP (h, u))
      as (prev' & s' & Hloop & -> & ->).
    + split; [reflexivity|]. rewrite take_0. reflexivity.
    + intros j key prev s Hkey (-> & ->). rewrite Nat.add_0_l. cbn [fst].
      apply list_lookup_fmap_Some in Hkey as ([key' vj] & Hkey' & Hvj).
      cbn in Hkey'. subst key'.
      destruct (Forall2_lookup_r _ _ _ _ _ Hprops Hvj) as ([k tj] & Htj & Hk & Hrj).
      cbn in Hk, Hrj. subst k.
      assert (Hget : getProp h (VRef l) (KStr key) = vj).
      { unfold getProp. cbn [deref]. rewrite Hl. cbn.
        rewrite (assoc_lookup_NoDup ps Hnd j key vj Hvj). reflexivity. }
      rewrite Hget.
      pose proof (proj1 (Forall_lookup _ _) IH j _ Htj) as IHj. cbn in IHj.
      eexists. exists (h, u). split.
      * rewrite (bind_done _ _ _ _ _ (IHj vj (path ++ [KStr key]) n Hrj
                   ltac:(pose proof (depth_prop _ kts (list_elem_of_lookup_2 _ _ _ Htj))
                           as Hd; cbn in Hd; simpl in Hfuel; lia))).
        apply combine_pure.
      * split; [reflexivity|].
        rewrite (take_S_r _ _ _ Htj), fold_left_app. reflexivity.
    + eapply fold_visit_object; try eassumption.
      unfold keysOf. cbn [deref]. rewrite Hl. cbn [ownKeys]. rewrite Hloop.
      rewrite Nat.add_0_l, take_ge
        by (rewrite length_map, (Forall2_length _ _ _ Hprops); lia).
      reflexivity.
Qed.
End PureFold.

(** X6.  A recursive fold whose four functions leave the state alone
    returns the summary of the structure its input holds and leaves the
    state as it was.  The summary is computed from the leaves up: a node
    the override claims gets the override's value, a primitive (null and
    undefined included) gets the leaf mapper's value, and an array or an
    object gets the left fold of the summaries of its children, from the
    seed, in the order of the indices or keys. *)
Theorem recursiveMapperReducer_pure_fold :
  forall (U : Type) (seedP : val) (mapperP : prim -> val)
         (combineP : val -> val -> val) (overrideP : tree -> option val)
         (reduceInitial : M (world U) val) (mapper : val -> M (world U) val)
         (reduceCallback : val -> val -> M (world U) val)
         (optionalMapper : val -> M (world U) (option val))
         (h : heap) (u : U) (t : tree) (v : val) (fuel : nat),
    reduceInitial (h, u) = Done seedP (h, u) ->
    (forall p, mapper (VPrim p) (h, u) = Done (mapperP p) (h, u)) ->
    (forall a b, reduceCallback a b (h, u) = Done (combineP a b) (h, u)) ->
    (forall t v, repr_in 0 (length h) h t v ->
                 optionalMapper v (h, u) = Done (overrideP t) (h, u)) ->
    repr_in 0 (length h) h t v ->
    (depth t <= fuel)%nat ->
    recursiveMapperReducer fuel mapper reduceCallback reduceInitial optionalMapper v (h, u) =
      Done (foldP overrideP mapperP combineP seedP t) (h, u).
Proof.
  intros U seedP mapperP combineP overrideP reduceInitial mapper reduceCallback
    optionalMapper h u t v fuel Hseed Hmapper Hcb Hopt Hrepr Hfuel.
  unfold recursiveMapperReducer, recursiveReducerInternal.
  apply (fold_tree_pure seedP mapperP combineP overrideP reduceInitial mapper
           reduceCallback optionalMapper h u Hseed Hmapper Hcb Hopt t v [] fuel Hrepr Hfuel).
Qed.

Lemma addNumbers_pure {S : Type} (a b : val) (s : S) :
  addNumbers a b s = Done (plusP a b) s.
Proof.
  destruct a as [[| |x|x|x]|x]; try reflexivity.
  destruct b as [[| |y|y|y]|y]; reflexivity.
Qed.

Lemma recursiveMapperReducer_pure_fold_witness :
  recursiveMapperReducer 3
    (fun a => match a with VPrim p => ret (numberOrZero p) | VRef _ => ret (VPrim (PNum 0)) end)
    addNumbers (ret (VPrim (PNum 0))) emptyMapper (VRef 1) (heap_ab, tt) =
    Done (VPrim (PNum 7)) (heap_ab, tt).
Proof.
  apply (recursiveMapperReducer_pure_fold unit (VPrim (PNum 0)) numberOrZero plusP
           (fun _ => None)
           (ret (VPrim (PNum 0)))
           (fun a => match a with
                     | VPrim p => ret (numberOrZero p)
                     | VRef _ => ret (VPrim (PNum 0))
                     end)
           addNumbers emptyMapper heap_ab tt
           (TObj [("a", TPrim (PBool true)); ("b", TArr [TPrim (PNum 7)])])
           (VRef 1) 3).
  - reflexivity.
  - reflexivity.
  - intros a b. apply addNumbers_pure.
  - reflexivity.
  - exact repr_heap_ab.
  - simpl. lia.
Defined.

(** ** [extractAll] *)

Lemma fold_left_flat_map {A B} (g : B -> list A) (ts : list B) (acc : list A) :
  fold_left (fun a t => a ++ g t) ts acc = acc ++ flat_map g ts.
Proof.
  revert acc. induction ts as [|t ts IH]; intros acc; simpl.
  - rewrite app_nil_r. reflexivity.
  - rewrite IH, <- app_assoc. reflexivity.
Qed.

Lemma foldP_numbersOf (t : tree) :
  foldP numbersOnly (fun _ => []) app [] t = numbersOf t.
Proof.
  induction t as [p|ts IH|kts IH] using tree_nested_ind; rewrite foldP_unfold.
  - destruct p; reflexivity.
  - cbn [numbersOnly numbersOf].
    rewrite (fold_left_flat_map (foldP numbersOnly (fun _ => []) app [])).
    cbn [app]. induction IH as [|t ts Ht _ IHts]; [reflexivity|].
    simpl. rewrite Ht, IHts. reflexivity.
  - cbn [numbersOnly numbersOf].
    rewrite (fold_left_flat_map
               (fun kt : string * tree => foldP numbersOnly (fun _ => []) app [] (snd kt))).
    cbn [app]. induction IH as [|kt kts Ht _ IHkts]; [reflexivity|].
    simpl. rewrite Ht, IHkts. reflexivity.
Qed.

(** The bound of the host is reached on the documented callback: where a
    call takes one argument at most, [extractAll] throws on [[[1, 2]]],
    when the two numbers of the inner array are spread into one call. *)
Example extractAll_bound_reached :
  exists s',
    extractAllWithin (Some 1%nat) 3 numberMapper (VRef 1) (heap_pair_inside, tt) =
      Throw (RangeError "Maximum call stack size exceeded") s'.
Proof. eexists. vm_compute. reflexivity. Qed.

(** X7.  [extractAll] with the mapper that is present on numbers, on a host
    whose calls take [argumentsLimit] arguments at most (any number, if
    there is no bound).  For an input of arrays without holes and plain
    objects, when the numbers at the leaves of the input are not more than
    a call takes, the call returns a new array that holds these numbers, in
    the order of a depth-first walk (indices and keys in order), and
    changes nothing of what the heap held; an input without numbers, such
    as [undefined], [null] or [[]], gives a new empty array. *)
Theorem extractAll_numbers :
  forall (U : Type) (argumentsLimit : option nat) (t : tree) (v : val) (h : heap)
         (u : U) (fuel : nat),
    repr_in 0 (length h) h t v ->
    (depth t <= fuel)%nat ->
    tooManyArguments argumentsLimit (length (numbersOf t)) = false ->
    exists l h',
      extractAllWithin argumentsLimit fuel numberMapper v (h, u) =
        Done (VRef l) (h', u) /\
      frame (length h) h h' /\
      (length h <= l)%nat /\
      h' !! l = Some (OArr (map VPrim (numbersOf t))).
Proof.
  intros U argumentsLimit t v h u fuel Hrepr Hfuel Hargs.
  rewrite <- foldP_numbersOf in Hargs.
  destruct (fold_tree_on (U := U) collected [] (fun _ => []) app numbersOnly
              (alloc (OArr [])) (fun _ => alloc (OArr []))
              (spreadPushWithin argumentsLimit)
              (extractAll_override numberMapper)
              (fun a => tooManyArguments argumentsLimit (length a) = false)
              collected_stable alloc_empty_fresh alloc_empty_mapper)
    with (t := t) (v := v) (h := h) (u := u) (path := @nil step) (fuel := fuel)
    as (r & h' & Hrun & Hframe & (l & -> & Hl & Hlook)).
  - intros a b Hab. split.
    + apply (tooManyArguments_le _ (length a) (length (a ++ b))); [|exact Hab].
      rewrite length_app. lia.
    + apply (tooManyArguments_le _ (length b) (length (a ++ b))); [|exact Hab].
      rewrite length_app. lia.
  - apply spreadPushWithin_local.
  - apply numberMapper_local.
  - exact Hrepr.
  - exact Hfuel.
  - exact Hargs.
  - exists l, h'. split; [exact Hrun|]. split; [exact Hframe|]. split; [lia|].
    rewrite <- foldP_numbersOf. exact Hlook.
Qed.

Lemma extractAll_numbers_witness :
  exists l h',
    extractAllWithin (Some 1%nat) 3 numberMapper (VRef 1) (heap_ab, tt) =
      Done (VRef l) (h', tt) /\
    frame 2 heap_ab h' /\
    (2 <= l)%nat /\
    h' !! l = Some (OArr [VPrim (PNum 7)]).
Proof.
  apply (extractAll_numbers unit (Some 1%nat)
           (TObj [("a", TPrim (PBool true)); ("b", TArr [TPrim (PNum 7)])])
           (VRef 1) heap_ab tt 3 repr_heap_ab).
  - simpl. lia.
  - reflexivity.
Defined.

(** ** Traversals with [recursiveMapper] *)

Lemma shape_nested_ind (P : shape -> Prop) :
  (forall v, P (SLeaf v)) ->
  (forall shs, Forall P shs -> P (SArr shs)) ->
  (forall kshs, Forall (fun ksh => P (snd ksh)) kshs -> P (SObj kshs)) ->
  forall sh, P sh.
Proof.
  intros Hl Ha Ho. fix IH 1. intros [v|shs|kshs].
  - apply Hl.
  - apply Ha. induction shs as [|sh shs IHshs]; constructor; [apply IH | exact IHshs].
  - apply Ho. induction kshs as [|[k sh] kshs IHk]; constructor; [apply IH | exact IHk].
Qed.

Section ChainFacts2.
Context {A B : Type}.
Variable R : nat -> nat -> A -> B -> Prop.
Hypothesis R_le : forall lo hi x y, R lo hi x y -> (lo <= hi)%nat.

Lemma chain_le lo hi xs ys : chain R lo hi xs ys -> (lo <= hi)%nat.
Proof.
  induction 1 as [lo|lo mid hi x xs y ys Hx _ IH]; [lia|].
  pose proof (R_le _ _ _ _ Hx). lia.
Qed.

Lemma chain_length lo hi xs ys : chain R lo hi xs ys -> length xs = length ys.
Proof. induction 1; simpl; congruence. Qed.

Lemma chain_snoc lo mid hi xs ys x y :
  chain R lo mid xs ys -> R mid hi x y -> chain R lo hi (xs ++ [x]) (ys ++ [y]).
Proof.
  induction 1 as [lo|lo m mid x0 xs y0 ys Hx0 _ IH]; intros Hx; simpl.
  - econstructor; [exact Hx | constructor].
  - econstructor; [exact Hx0 | apply IH, Hx].
Qed.

(** The item at an index, with the range it takes and the chains on both
    sides of it. *)
Lemma chain_lookup lo hi xs ys i x :
  chain R lo hi xs ys ->
  xs !! i = Some x ->
  exists a b y,
    ys !! i = Some y /\ (lo <= a)%nat /\ (b <= hi)%nat /\ R a b x y /\
    chain R lo a (take i xs) (take i ys) /\
    chain R b hi (drop (Datatypes.S i) xs) (drop (Datatypes.S i) ys).
Proof.
  intros Hchain. revert i.
  induction Hchain as [lo|lo mid hi x0 xs y0 ys Hx0 Hrest IH]; intros i Hi;
    [discriminate|].
  pose proof (R_le _ _ _ _ Hx0) as Hle0. pose proof (chain_le _ _ _ _ Hrest) as Hle1.
  destruct i as [|i]; simpl in Hi.
  - injection Hi as <-. exists lo, mid, y0. simpl.
    repeat split; try lia; try assumption. constructor.
  - destruct (IH i Hi) as (a & b & y & Hy & Ha & Hb & Hxy & Hpre & Hpost).
    exists a, b, y. simpl. repeat split; try lia; try assumption.
    econstructor; eassumption.
Qed.

Lemma chain_app lo mid hi xs1 ys1 xs2 ys2 :
  chain R lo mid xs1 ys1 -> chain R mid hi xs2 ys2 ->
  chain R lo hi (xs1 ++ xs2) (ys1 ++ ys2).
Proof.
  induction 1 as [lo|lo m mid x0 xs y0 ys Hx0 _ IH]; intros H2; simpl.
  - exact H2.
  - econstructor; [exact Hx0 | apply IH, H2].
Qed.
End ChainFacts2.

Lemma chain_impl_Forall {A B} (P : A -> Prop) (R R' : nat -> nat -> A -> B -> Prop)
  lo hi xs ys :
  (forall lo hi x y, R lo hi x y -> (lo <= hi)%nat) ->
  Forall P xs ->
  chain R lo hi xs ys ->
  (forall a b x y, P x -> (lo <= a)%nat -> (b <= hi)%nat -> R a b x y -> R' a b x y) ->
  chain R' lo hi xs ys.
Proof.
  intros Hle HP Hchain. revert HP.
  induction Hchain as [lo|lo mid hi x xs y ys Hx Hrest IH]; intros HP Himpl;
    [constructor|].
  inversion HP; subst.
  pose proof (Hle _ _ _ _ Hx). pose proof (chain_le R Hle _ _ _ _ Hrest).
  apply chain_cons with (mid := mid).
  - apply Himpl; try assumption; lia.
  - apply IH; [assumption|]. intros a b x' y' Hp Ha Hb. apply Himpl; try assumption; lia.
Qed.

Lemma Forall_snd {A B} (P : B -> Prop) (l : list (A * B)) :
  Forall (fun x => P (snd x)) l -> Forall P (map snd l).
Proof. induction 1; constructor; assumption. Qed.

Lemma chain_le_Forall {A B} (R : nat -> nat -> A -> B -> Prop) lo hi xs ys :
  Forall (fun x => forall lo hi y, R lo hi x y -> (lo <= hi)%nat) xs ->
  chain R lo hi xs ys -> (lo <= hi)%nat.
Proof.
  intros HP Hchain. revert HP.
  induction Hchain as [lo|lo mid hi x xs y ys Hx _ IH]; intros HP; [lia|].
  inversion HP as [|? ? Hx' Hxs]; subst.
  pose proof (Hx' _ _ _ Hx). specialize (IH Hxs). lia.
Qed.

Lemma layout_le h sh : forall lo hi v, layout h lo hi sh v -> (lo <= hi)%nat.
Proof.
  induction sh as [x|shs IH|kshs IH] using shape_nested_ind;
    intros lo hi v Hlay; inversion Hlay; subst.
  - lia.
  - match goal with H : chain _ _ _ shs _ |- _ => rename H into Hchain end.
    pose proof (chain_le_Forall _ _ _ _ _ IH Hchain). lia.
  - match goal with H : chain _ _ _ (map snd kshs) _ |- _ => rename H into Hchain end.
    apply (Forall_snd (fun sh => forall lo hi v, layout h lo hi sh v -> (lo <= hi)%nat))
      in IH.
    pose proof (chain_le_Forall _ _ _ _ _ IH Hchain). lia.
Qed.

Lemma layout_range h lo hi sh v : layout h lo hi sh v -> (lo <= hi)%nat.
Proof. apply layout_le. Qed.

(** A layout survives any change of the heap outside its range. *)
Lemma layout_agree h h' sh :
  forall lo hi v,
    (forall l, (lo <= l < hi)%nat -> h' !! l = h !! l) ->
    layout h lo hi sh v -> layout h' lo hi sh v.
Proof.
  induction sh as [x|shs IH|kshs IH] using shape_nested_ind;
    intros lo hi v Hagree Hlay; inversion Hlay; subst.
  - constructor.
  - match goal with H : chain _ _ _ shs _ |- _ => rename H into Hchain end.
    pose proof (chain_le _ (layout_range h) _ _ _ _ Hchain) as Hle.
    econstructor; [rewrite Hagree by lia; eassumption|].
    eapply chain_impl_Forall; [apply layout_range | exact IH | exact Hchain |].
    intros a b x y IHx Ha Hb Hxy. apply IHx; [|exact Hxy].
    intros l Hl. apply Hagree. lia.
  - match goal with H : chain _ _ _ (map snd kshs) _ |- _ => rename H into Hchain end.
    pose proof (chain_le _ (layout_range h) _ _ _ _ Hchain) as Hle.
    econstructor; [rewrite Hagree by lia; eassumption | assumption | assumption |].
    apply (Forall_snd (fun sh => forall lo hi v,
                         (forall l, (lo <= l < hi)%nat -> h' !! l = h !! l) ->
                         layout h lo hi sh v -> layout h' lo hi sh v)) in IH.
    eapply chain_impl_Forall; [apply layout_range | exact IH | exact Hchain |].
    intros a b x y IHx Ha Hb Hxy. apply IHx; [|exact Hxy].
    intros l Hl. apply Hagree. lia.
Qed.

Lemma mapItems_snoc {A B} (F : A -> TPath -> B) path xs x i :
  mapItems F path (xs ++ [x]) i =
  mapItems F path xs i ++ [F x (path ++ [KNum (i + length xs)])].
Proof.
  revert i. induction xs as [|x0 xs IH]; intros i; simpl.
  - rewrite Nat.add_0_r. reflexivity.
  - rewrite IH.
    replace (Datatypes.S i + length xs)%nat with (i + Datatypes.S (length xs))%nat by lia.
    reflexivity.
Qed.

Lemma logItems_snoc {A L} (F : A -> TPath -> L -> L) path xs x i u :
  logItems F path (xs ++ [x]) i u =
  F x (path ++ [KNum (i + length xs)]) (logItems F path xs i u).
Proof.
  revert i u. induction xs as [|x0 xs IH]; intros i u; simpl.
  - rewrite Nat.add_0_r. reflexivity.
  - rewrite IH.
    replace (Datatypes.S i + length xs)%nat with (i + Datatypes.S (length xs))%nat by lia.
    reflexivity.
Qed.

Lemma holds_weaken sh :
  forall n n' h h' v,
    (n <= n')%nat ->
    (forall l, (l < n)%nat -> h' !! l = h !! l) ->
    holds n h sh v -> holds n' h' sh v.
Proof.
  induction sh as [x|shs IH|kshs IH] using shape_nested_ind;
    intros n n' h h' v Hn Hagree Hholds; inversion Hholds; subst.
  - constructor.
  - econstructor; [lia | rewrite Hagree by lia; eassumption].
  - econstructor; [lia | rewrite Hagree by lia; eassumption |].
    eapply Forall2_impl_Forall; [exact IH | eassumption |].
    intros sh v IHsh Hsh. eapply IHsh; eassumption.
  - econstructor; [lia | rewrite Hagree by lia; eassumption | assumption |].
    eapply Forall2_impl_Forall; [exact IH | eassumption |].
    intros ksh kv IHsh [Hk Hsh]. split; [exact Hk|]. eapply IHsh; eassumption.
Qed.

Lemma all_leaves_items P shs :
  all_leaves P (SArr shs) -> Forall (all_leaves P) shs.
Proof.
  induction shs as [|sh shs IH]; intros H; [constructor|].
  destruct H as [H1 H2]. constructor; [exact H1 | apply IH, H2].
Qed.

Lemma all_leaves_props P kshs :
  all_leaves P (SObj kshs) -> Forall (fun ksh => all_leaves P (snd ksh)) kshs.
Proof.
  induction kshs as [|ksh kshs IH]; intros H; [constructor|].
  destruct H as [H1 H2]. constructor; [exact H1 | apply IH, H2].
Qed.

Lemma shape_no_proto_key_items shs :
  shape_no_proto_key (SArr shs) -> Forall shape_no_proto_key shs.
Proof.
  induction shs as [|sh shs IH]; intros H; [constructor|].
  destruct H as [H1 H2]. constructor; [exact H1 | apply IH, H2].
Qed.

Lemma shape_no_proto_key_props kshs :
  shape_no_proto_key (SObj kshs) ->
  Forall (fun ksh => fst ksh <> "__proto__" /\ shape_no_proto_key (snd ksh)) kshs.
Proof.
  induction kshs as [|ksh kshs IH]; intros H; [constructor|].
  destruct H as [H1 H2]. constructor; [exact H1 | apply IH, H2].
Qed.

Lemma sdepth_item (sh : shape) (shs : list shape) :
  sh ∈ shs -> (sdepth sh <= fold_right (fun sh d => Nat.max (sdepth sh) d) 0 shs)%nat.
Proof. induction 1 as [sh shs|sh sh' shs _ IH]; simpl; lia. Qed.

Lemma sdepth_prop (ksh : string * shape) (kshs : list (string * shape)) :
  ksh ∈ kshs ->
  (sdepth (snd ksh) <= fold_right (fun ksh d => Nat.max (sdepth (snd ksh)) d) 0 kshs)%nat.
Proof. induction 1 as [ksh kshs|ksh ksh' kshs _ IH]; simpl; lia. Qed.

Section Traverse.
Context {L : Type}.
Variable custom : @Factory (world L).
Variable leafOK : val -> Prop.
Variable leafOut : val -> TPath -> val.
Variable leafLog : val -> TPath -> L -> L.

(** The handler is absent on arrays and plain objects, and has no effect
    there. *)
Hypothesis custom_container :
  forall recurse l path (h : heap) (u : L) o,
    h !! l = Some o ->
    (exists vs, o = OArr vs) \/ (exists ps, o = OObj ps) ->
    custom recurse (VRef l) path (h, u) = Done None (h, u).

(** On a leaf the handler leaves the heap alone; it is present with
    [leafOut], or it is absent on a primitive, which [leafOut] then
    returns as it is. *)
Hypothesis custom_leaf :
  forall recurse v path (h : heap) (u : L),
    holds (length h) h (SLeaf v) v ->
    leafOK v ->
    custom recurse v path (h, u) = Done (Some (leafOut v path)) (h, leafLog v path u) \/
    (custom recurse v path (h, u) = Done None (h, leafLog v path u) /\
     (exists p, v = VPrim p) /\ leafOut v path = v).

Let factories := recursiveMapper_factories custom.

Lemma mapper_visit_present n v path s x s' :
  custom (reduceInternal n factories) v path s = Done (Some x) s' ->
  reduceInternal (Datatypes.S n) factories v path s = Done x s'.
Proof.
  intros Hc. unfold factories.
  cbn [reduceInternal recursiveMapper_factories map run_chain].
  rewrite (bind_done _ _ _ _ _ Hc). reflexivity.
Qed.

Lemma mapper_visit_prim n (p : prim) path s s' :
  custom (reduceInternal n factories) (VPrim p) path s = Done None s' ->
  reduceInternal (Datatypes.S n) factories (VPrim p) path s = Done (VPrim p) s'.
Proof.
  intros Hc. unfold factories.
  cbn [reduceInternal recursiveMapper_factories map run_chain].
  rewrite (bind_done _ _ _ _ _ Hc). reflexivity.
Qed.

Lemma mapper_visit_array n l path (h : heap) (u : L) vs r s' :
  h !! l = Some (OArr vs) ->
  arr_reduce_loop arrCopyReduction (reduceInternal n factories)
    (VRef l) path (seq 0 (length vs)) (VRef (length h)) (h ++ [OArr []], u) = Done r s' ->
  reduceInternal (Datatypes.S n) factories (VRef l) path (h, u) = Done r s'.
Proof.
  intros Hl Hloop. unfold factories.
  cbn [reduceInternal recursiveMapper_factories map run_chain].
  rewrite (bind_done _ _ _ _ _
             (custom_container _ l path h u _ Hl (or_introl (ex_intro _ vs eq_refl)))).
  unfold bind at 1. unfold extendArrPathFn at 1. cbn [fst snd].
  unfold isArray. cbn [deref]. rewrite Hl.
  match goal with |- match ?m (h, u) with _ => _ end = _ =>
    assert (Harr : m (h, u) = Done (Some r) s') end.
  { apply bind_ret_some. unfold arrReductionToRecursivePathFn, bind. cbn.
    rewrite (arrayLength_app h [OArr []] l vs Hl). exact Hloop. }
  rewrite Harr. reflexivity.
Qed.

Lemma mapper_visit_object n l path (h : heap) (u : L) ps r s' :
  h !! l = Some (OObj ps) ->
  recordReducer_loop
    (fun prev current key =>
       let* reducedItem := reduceInternal n factories current (path ++ [KStr key]) in
       obj_callback objCopyReduction prev reducedItem key)
    (VRef l) (map fst ps) (VRef (length h)) (h ++ [OObj []], u) = Done r s' ->
  reduceInternal (Datatypes.S n) factories (VRef l) path (h, u) = Done r s'.
Proof.
  intros Hl Hloop. unfold factories.
  cbn [reduceInternal recursiveMapper_factories map run_chain].
  rewrite (bind_done _ _ _ _ _
             (custom_container _ l path h u _ Hl (or_intror (ex_intro _ ps eq_refl)))).
  unfold bind at 1. unfold extendArrPathFn at 1. cbn [fst snd].
  unfold isArray. cbn [deref]. rewrite Hl. unfold ret at 1.
  unfold bind at 1. unfold extendObjPathFn at 1. cbn [isObject].
  match goal with |- match ?m (h, u) with _ => _ end = _ =>
    assert (Hobj : m (h, u) = Done (Some r) s') end.
  { apply bind_ret_some.
    unfold objReductionToRecursivePathFn, recordReducer, bind at 1. cbn.
    unfold keysOf. cbn [deref].
    rewrite (lookup_app_l_Some _ _ _ _ Hl). exact Hloop. }
  rewrite Hobj. reflexivity.
Qed.

Lemma setOwn_plain cps k x : exists cps', setOwn (OObj cps) k x = OObj cps'.
Proof. cbn [setOwn]. destruct (_ && _); eexists; reflexivity. Qed.

(** What a traversal does whatever the keys are: it visits the leaves in
    the order of the walk and leaves the heap it was given as it was. *)
Lemma traverse_log (sh : shape) :
  forall v h (u : L) path fuel,
    holds (length h) h sh v ->
    all_leaves leafOK sh ->
    (sdepth sh <= fuel)%nat ->
    exists v' ext,
      reduceInternal fuel factories v path (h, u) =
        Done v' (h ++ ext, logShape leafLog sh path u).
Proof.
  induction sh as [x|shs IH|kshs IH] using shape_nested_ind;
    intros v h u path fuel Hholds Hleaves Hfuel;
    (destruct fuel as [|n]; [simpl in Hfuel; lia|]).
  - assert (Hv : v = x) by (inversion Hholds; reflexivity). subst x.
    exists (leafOut v path), []. rewrite app_nil_r. cbn [logShape].
    destruct (custom_leaf (reduceInternal n factories) v path h u Hholds Hleaves)
      as [Hpresent|(Habsent & (p & ->) & Hout)].
    + apply mapper_visit_present. exact Hpresent.
    + rewrite Hout. apply mapper_visit_prim. exact Habsent.
  - inversion Hholds; subst.
    match goal with H : h !! l = Some _ |- _ => rename H into Hl end.
    match goal with H : Forall2 _ shs vs |- _ => rename H into Hitems end.
    apply all_leaves_items in Hleaves.
    cbn [logShape].
    destruct (arr_reduce_loop_inv arrCopyReduction (reduceInternal n factories)
                (VRef l) path
                (fun j prev s =>
                   prev = VRef (length h) /\
                   exists cs ext,
                     s = (h ++ OArr cs :: ext,
                          logItems (logShape leafLog) path (take j shs) 0 u))
                (length vs) 0%nat (VRef (length h)) (h ++ [OArr []], u))
      as (prev' & s' & Hloop & HI).
    + split; [reflexivity|]. exists [], []. rewrite take_0. reflexivity.
    + intros j prev s Hj (-> & cs & ext & ->). cbn [fst].
      split; [apply (hasIndex_app h _ l vs j Hl); lia|].
      destruct (lookup_lt_is_Some_2 vs j ltac:(lia)) as [vj Hvj].
      destruct (Forall2_lookup_r _ _ _ _ _ Hitems Hvj) as (shj & Hshj & Hhj).
      assert (Hget : getProp (h ++ OArr cs :: ext) (VRef l) (KNum j) = vj).
      { unfold getProp. cbn [deref]. rewrite (lookup_app_l_Some _ _ _ _ Hl).
        cbn. rewrite Hvj. reflexivity. }
      rewrite Hget.
      pose proof (proj1 (Forall_lookup _ _) IH j shj Hshj) as IHj. cbn beta in IHj.
      destruct (IHj vj (h ++ OArr cs :: ext)
                  (logItems (logShape leafLog) path (take j shs) 0 u)
                  (path ++ [KNum j]) n) as (c & extj & Hrec).
      { eapply holds_weaken; [| |exact Hhj]; [len|].
        intros l0 Hl0. apply lookup_app_l. lia. }
      { exact (proj1 (Forall_lookup _ _) Hleaves j shj Hshj). }
      { pose proof (sdepth_item shj shs (list_elem_of_lookup_2 _ _ _ Hshj)).
        simpl in Hfuel. lia. }
      assert (Hlenj : length (take j shs) = j).
      { rewrite length_take. pose proof (lookup_lt_Some _ _ _ Hshj). lia. }
      exists c, ((h ++ OArr cs :: ext) ++ extj,
                 logShape leafLog shj (path ++ [KNum j])
                   (logItems (logShape leafLog) path (take j shs) 0 u)),
             (VRef (length h)),
             (h ++ OArr (cs ++ [c]) :: (ext ++ extj),
              logShape leafLog shj (path ++ [KNum j])
                (logItems (logShape leafLog) path (take j shs) 0 u)).
      split; [exact Hrec|]. split; [|split; [reflexivity|]].
      * cbn [arr_callback arrCopyReduction ARR_COPY_REDUCTION].
        rewrite <- app_assoc. cbn [app].
        rewrite (bind_done _ _ _ _ _
                   (push_done _ _ (length h) cs c
                      (list_lookup_middle h _ _ (length h) eq_refl))).
        rewrite insert_middle. reflexivity.
      * exists (cs ++ [c]), (ext ++ extj).
        rewrite (take_S_r _ _ _ Hshj), logItems_snoc, Hlenj.
        rewrite !Nat.add_0_l. reflexivity.
    + destruct HI as (-> & cs & ext & ->).
      rewrite Nat.add_0_l in Hloop.
      rewrite take_ge in Hloop by (rewrite (Forall2_length _ _ _ Hitems); lia).
      exists (VRef (length h)), (OArr cs :: ext).
      eapply mapper_visit_array; eassumption.
  - inversion Hholds; subst.
    match goal with H : h !! l = Some _ |- _ => rename H into Hl end.
    match goal with H : Forall2 _ kshs ps |- _ => rename H into Hprops end.
    match goal with H : NoDup _ |- _ => rename H into Hnd end.
    apply all_leaves_props in Hleaves.
    cbn [logShape].
    set (G := fun (u : L) (ksh : string * shape) =>
                logShape leafLog (snd ksh) (path ++ [KStr (fst ksh)]) u).
    destruct (recordReducer_loop_inv
                (fun prev current key =>
                   let* reducedItem :=
                     reduceInternal n factories current (path ++ [KStr key]) in
                   obj_callback objCopyReduction prev reducedItem key)
                (VRef l)
                (fun j prev s =>
                   prev = VRef (length h) /\
                   exists cps ext,
                     s = (h ++ OObj cps :: ext, fold_left G (take j kshs) u))
                (map fst ps) 0%nat (VRef (length h)) (h ++ [OObj []], u))
      as (prev' & s' & Hloop & HI).
    + split; [reflexivity|]. exists [], []. rewrite take_0. reflexivity.
    + intros j key prev s Hkey (-> & cps & ext & ->). cbn [fst].
      rewrite Nat.add_0_l.
      apply list_lookup_fmap_Some in Hkey as ([key' vj] & Hkey' & Hvj).
      cbn in Hkey'. subst key'.
      destruct (Forall2_lookup_r _ _ _ _ _ Hprops Hvj) as ([k shj] & Hshj & Hk & Hhj).
      cbn in Hk, Hhj. subst k.
      assert (Hget : getProp (h ++ OObj cps :: ext) (VRef l) (KStr key) = vj).
      { unfold getProp. cbn [deref]. rewrite (lookup_app_l_Some _ _ _ _ Hl).
        cbn. rewrite (assoc_lookup_NoDup ps Hnd j key vj Hvj). reflexivity. }
      rewrite Hget.
      pose proof (proj1 (Forall_lookup _ _) IH j _ Hshj) as IHj. cbn in IHj.
      destruct (IHj vj (h ++ OObj cps :: ext) (fold_left G (take j kshs) u)
                  (path ++ [KStr key]) n) as (c & extj & Hrec).
      { eapply holds_weaken; [| |exact Hhj]; [len|].
        intros l0 Hl0. apply lookup_app_l. lia. }
      { exact (proj1 (Forall_lookup _ _) Hleaves j _ Hshj). }
      { pose proof (sdepth_prop _ kshs (list_elem_of_lookup_2 _ _ _ Hshj)) as Hd.
        cbn in Hd. simpl in Hfuel. lia. }
      destruct (setOwn_plain cps (KStr key) c) as (cps' & Hset).
      exists (VRef (length h)),
             (h ++ OObj cps' :: (ext ++ extj),
              logShape leafLog shj (path ++ [KStr key]) (fold_left G (take j kshs) u)).
      split.
      * rewrite (bind_done _ _ _ _ _ Hrec).
        cbn [obj_callback objCopyReduction OBJ_COPY_REDUCTION].
        rewrite <- app_assoc. cbn [app].
        rewrite (bind_done _ _ _ _ _
                   (setMember_done _ _ (length h) (OObj cps) (KStr key) c
                      (list_lookup_middle h _ _ (length h) eq_refl))).
        rewrite insert_middle, Hset. reflexivity.
      * split; [reflexivity|].
        exists cps', (ext ++ extj).
        rewrite (take_S_r _ _ _ Hshj), fold_left_app. reflexivity.
    + destruct HI as (-> & cps & ext & ->).
      rewrite Nat.add_0_l in Hloop.
      rewrite take_ge in Hloop
        by (rewrite length_map, (Forall2_length _ _ _ Hprops); lia).
      exists (VRef (length h)), (OObj cps :: ext).
      eapply mapper_visit_object; eassumption.
Qed.

Lemma traverse_shape (sh : shape) :
  forall v h (u : L) path fuel,
    holds (length h) h sh v ->
    shape_no_proto_key sh ->
    all_leaves leafOK sh ->
    (sdepth sh <= fuel)%nat ->
    exists v' ext,
      reduceInternal fuel factories v path (h, u) =
        Done v' (h ++ ext, logShape leafLog sh path u) /\
      layout (h ++ ext) (length h) (length h + length ext)
        (mapShape leafOut sh path) v'.
Proof.
  induction sh as [x|shs IH|kshs IH] using shape_nested_ind;
    intros v h u path fuel Hholds Hkeys0 Hleaves Hfuel;
    (destruct fuel as [|n]; [simpl in Hfuel; lia|]).
  - assert (Hv : v = x) by (inversion Hholds; reflexivity). subst x.
    exists (leafOut v path), []. rewrite app_nil_r, Nat.add_0_r.
    split; [|constructor]. cbn [logShape].
    destruct (custom_leaf (reduceInternal n factories) v path h u Hholds Hleaves)
      as [Hpresent|(Habsent & (p & ->) & Hout)].
    + apply mapper_visit_present. exact Hpresent.
    + rewrite Hout. apply mapper_visit_prim. exact Habsent.
  - inversion Hholds; subst.
    match goal with H : h !! l = Some _ |- _ => rename H into Hl end.
    match goal with H : Forall2 _ shs vs |- _ => rename H into Hitems end.
    apply all_leaves_items in Hleaves.
    apply shape_no_proto_key_items in Hkeys0.
    cbn [mapShape logShape].
    destruct (arr_reduce_loop_inv arrCopyReduction (reduceInternal n factories)
                (VRef l) path
                (fun j prev s =>
                   prev = VRef (length h) /\
                   exists cs ext,
                     s = (h ++ OArr cs :: ext,
                          logItems (logShape leafLog) path (take j shs) 0 u) /\
                     chain (layout (h ++ OArr cs :: ext))
                       (Datatypes.S (length h)) (Datatypes.S (length h) + length ext)
                       (mapItems (mapShape leafOut) path (take j shs) 0) cs)
                (length vs) 0%nat (VRef (length h)) (h ++ [OArr []], u))
      as (prev' & s' & Hloop & HI).
    + split; [reflexivity|]. exists [], []. rewrite take_0. split; [reflexivity|].
      cbn. rewrite Nat.add_0_r. constructor.
    + intros j prev s Hj (-> & cs & ext & -> & Hcs). cbn [fst].
      split; [apply (hasIndex_app h _ l vs j Hl); lia|].
      destruct (lookup_lt_is_Some_2 vs j ltac:(lia)) as [vj Hvj].
      destruct (Forall2_lookup_r _ _ _ _ _ Hitems Hvj) as (shj & Hshj & Hhj).
      assert (Hget : getProp (h ++ OArr cs :: ext) (VRef l) (KNum j) = vj).
      { unfold getProp. cbn [deref]. rewrite (lookup_app_l_Some _ _ _ _ Hl).
        cbn. rewrite Hvj. reflexivity. }
      rewrite Hget.
      pose proof (proj1 (Forall_lookup _ _) IH j shj Hshj) as IHj. cbn beta in IHj.
      destruct (IHj vj (h ++ OArr cs :: ext)
                  (logItems (logShape leafLog) path (take j shs) 0 u)
                  (path ++ [KNum j]) n) as (c & extj & Hrec & Hc).
      { eapply holds_weaken; [| |exact Hhj]; [len|].
        intros l0 Hl0. apply lookup_app_l. lia. }
      { exact (proj1 (Forall_lookup _ _) Hkeys0 j shj Hshj). }
      { exact (proj1 (Forall_lookup _ _) Hleaves j shj Hshj). }
      { pose proof (sdepth_item shj shs (list_elem_of_lookup_2 _ _ _ Hshj)).
        simpl in Hfuel. lia. }
      assert (Hlenj : length (take j shs) = j).
      { rewrite length_take. pose proof (lookup_lt_Some _ _ _ Hshj). lia. }
      exists c, ((h ++ OArr cs :: ext) ++ extj,
                 logShape leafLog shj (path ++ [KNum j])
                   (logItems (logShape leafLog) path (take j shs) 0 u)),
             (VRef (length h)),
             (h ++ OArr (cs ++ [c]) :: (ext ++ extj),
              logShape leafLog shj (path ++ [KNum j])
                (logItems (logShape leafLog) path (take j shs) 0 u)).
      split; [exact Hrec|]. split; [|split; [reflexivity|]].
      * cbn [arr_callback arrCopyReduction ARR_COPY_REDUCTION].
        rewrite <- app_assoc. cbn [app].
        rewrite (bind_done _ _ _ _ _
                   (push_done _ _ (length h) cs c
                      (list_lookup_middle h _ _ (length h) eq_refl))).
        rewrite insert_middle. reflexivity.
      * exists (cs ++ [c]), (ext ++ extj).
        rewrite (take_S_r _ _ _ Hshj), logItems_snoc, mapItems_snoc, Hlenj.
        rewrite !Nat.add_0_l. split; [reflexivity|].
        apply chain_snoc with (mid := (Datatypes.S (length h) + length ext)%nat).
        -- eapply chain_impl_Forall with (P := fun _ => True);
             [apply layout_range | apply Forall_true; auto | exact Hcs |].
           intros a b x y _ Ha Hb Hxy. eapply layout_agree; [|exact Hxy].
           intros l0 Hl0.
           rewrite !lookup_app_r by lia.
           replace (l0 - length h)%nat with (Datatypes.S (l0 - Datatypes.S (length h)))
             by lia.
           cbn. apply lookup_app_l. lia.
        -- assert (E1 : (Datatypes.S (length h) + length ext)%nat =
                        length (h ++ OArr cs :: ext)) by len.
           assert (E2 : (Datatypes.S (length h) + length (ext ++ extj))%nat =
                        (length (h ++ OArr cs :: ext) + length extj)%nat) by len.
           rewrite E1, E2. eapply layout_agree; [|exact Hc].
           intros l0 Hl0. rewrite <- app_assoc. cbn [app].
           assert (length h < l0)%nat by (revert Hl0; len).
           rewrite !lookup_app_r by lia.
           replace (l0 - length h)%nat with (Datatypes.S (l0 - Datatypes.S (length h)))
             by lia.
           reflexivity.
    + destruct HI as (-> & cs & ext & -> & Hcs).
      rewrite Nat.add_0_l in Hcs, Hloop.
      rewrite take_ge in Hcs, Hloop by (rewrite (Forall2_length _ _ _ Hitems); lia).
      exists (VRef (length h)), (OArr cs :: ext). split.
      * eapply mapper_visit_array; eassumption.
      * econstructor; [apply list_lookup_middle; reflexivity|].
        replace (length h + length (OArr cs :: ext))%nat
          with (Datatypes.S (length h) + length ext)%nat by len.
        exact Hcs.
  - inversion Hholds; subst.
    match goal with H : h !! l = Some _ |- _ => rename H into Hl end.
    match goal with H : Forall2 _ kshs ps |- _ => rename H into Hprops end.
    match goal with H : NoDup _ |- _ => rename H into Hnd end.
    pose proof (Forall2_keys _ _ _ Hprops) as Hkeys.
    apply all_leaves_props in Hleaves.
    apply shape_no_proto_key_props in Hkeys0.
    cbn [mapShape logShape].
    set (Fm := fun ksh : string * shape =>
                 (fst ksh, mapShape leafOut (snd ksh) (path ++ [KStr (fst ksh)]))).
    set (G := fun (u : L) (ksh : string * shape) =>
                logShape leafLog (snd ksh) (path ++ [KStr (fst ksh)]) u).
    destruct (recordReducer_loop_inv
                (fun prev current key =>
                   let* reducedItem :=
                     reduceInternal n factories current (path ++ [KStr key]) in
                   obj_callback objCopyReduction prev reducedItem key)
                (VRef l)
                (fun j prev s =>
                   prev = VRef (length h) /\
                   exists cps ext,
                     s = (h ++ OObj cps :: ext, fold_left G (take j kshs) u) /\
                     map fst cps = map fst (take j kshs) /\
                     chain (layout (h ++ OObj cps :: ext))
                       (Datatypes.S (length h)) (Datatypes.S (length h) + length ext)
                       (map snd (map Fm (take j kshs))) (map snd cps))
                (map fst ps) 0%nat (VRef (length h)) (h ++ [OObj []], u))
      as (prev' & s' & Hloop & HI).
    + split; [reflexivity|]. exists [], []. rewrite take_0.
      split; [reflexivity|]. split; [reflexivity|].
      cbn. rewrite Nat.add_0_r. constructor.
    + intros j key prev s Hkey (-> & cps & ext & -> & Hcpk & Hcps). cbn [fst].
      rewrite Nat.add_0_l in Hcpk, Hcps |- *.
      apply list_lookup_fmap_Some in Hkey as ([key' vj] & Hkey' & Hvj).
      cbn in Hkey'. subst key'.
      destruct (Forall2_lookup_r _ _ _ _ _ Hprops Hvj) as ([k shj] & Hshj & Hk & Hhj).
      cbn in Hk, Hhj. subst k.
      assert (Hget : getProp (h ++ OObj cps :: ext) (VRef l) (KStr key) = vj).
      { unfold getProp. cbn [deref]. rewrite (lookup_app_l_Some _ _ _ _ Hl).
        cbn. rewrite (assoc_lookup_NoDup ps Hnd j key vj Hvj). reflexivity. }
      rewrite Hget.
      pose proof (proj1 (Forall_lookup _ _) IH j _ Hshj) as IHj. cbn in IHj.
      destruct (IHj vj (h ++ OObj cps :: ext) (fold_left G (take j kshs) u)
                  (path ++ [KStr key]) n) as (c & extj & Hrec & Hc).
      { eapply holds_weaken; [| |exact Hhj]; [len|].
        intros l0 Hl0. apply lookup_app_l. lia. }
      { exact (proj2 (proj1 (Forall_lookup _ _) Hkeys0 j _ Hshj)). }
      { exact (proj1 (Forall_lookup _ _) Hleaves j _ Hshj). }
      { pose proof (sdepth_prop _ kshs (list_elem_of_lookup_2 _ _ _ Hshj)) as Hd.
        cbn in Hd. simpl in Hfuel. lia. }
      exists (VRef (length h)),
             (h ++ OObj (cps ++ [(key, c)]) :: (ext ++ extj),
              logShape leafLog shj (path ++ [KStr key]) (fold_left G (take j kshs) u)).
      split.
      * rewrite (bind_done _ _ _ _ _ Hrec).
        cbn [obj_callback objCopyReduction OBJ_COPY_REDUCTION].
        rewrite <- app_assoc. cbn [app].
        rewrite (bind_done _ _ _ _ _
                   (setMember_done _ _ (length h) (OObj cps) (KStr key) c
                      (list_lookup_middle h _ _ (length h) eq_refl))).
        rewrite insert_middle.
        rewrite setOwn_fresh;
          [reflexivity | exact (proj1 (proj1 (Forall_lookup _ _) Hkeys0 j _ Hshj)) |].
        rewrite Hcpk, <- firstn_map, Hkeys.
        apply NoDup_not_in_take; [exact Hnd|].
        rewrite list_lookup_fmap, Hvj. reflexivity.
      * split; [reflexivity|].
        exists (cps ++ [(key, c)]), (ext ++ extj).
        rewrite (take_S_r _ _ _ Hshj), fold_left_app, !map_app. cbn [fold_left map].
        split; [reflexivity|]. split; [rewrite Hcpk; reflexivity|].
        cbn [Fm fst snd].
        apply chain_snoc with (mid := (Datatypes.S (length h) + length ext)%nat).
        -- eapply chain_impl_Forall with (P := fun _ => True);
             [apply layout_range | apply Forall_true; auto | exact Hcps |].
           intros a b x y _ Ha Hb Hxy. eapply layout_agree; [|exact Hxy].
           intros l0 Hl0.
           rewrite !lookup_app_r by lia.
           replace (l0 - length h)%nat with (Datatypes.S (l0 - Datatypes.S (length h)))
             by lia.
           cbn. apply lookup_app_l. lia.
        -- assert (E1 : (Datatypes.S (length h) + length ext)%nat =
                        length (h ++ OObj cps :: ext)) by len.
           assert (E2 : (Datatypes.S (length h) + length (ext ++ extj))%nat =
                        (length (h ++ OObj cps :: ext) + length extj)%nat) by len.
           rewrite E1, E2. eapply layout_agree; [|exact Hc].
           intros l0 Hl0. rewrite <- app_assoc. cbn [app].
           assert (length h < l0)%nat by (revert Hl0; len).
           rewrite !lookup_app_r by lia.
           replace (l0 - length h)%nat with (Datatypes.S (l0 - Datatypes.S (length h)))
             by lia.
           reflexivity.
    + destruct HI as (-> & cps & ext & -> & Hcpk & Hcps).
      rewrite Nat.add_0_l in Hcpk, Hcps, Hloop.
      rewrite take_ge in Hcpk, Hcps, Hloop
        by (rewrite length_map, (Forall2_length _ _ _ Hprops); lia).
      exists (VRef (length h)), (OObj cps :: ext). split.
      * eapply mapper_visit_object; eassumption.
      * econstructor.
        -- apply list_lookup_middle; reflexivity.
        -- rewrite Hcpk, map_map. reflexivity.
        -- rewrite Hcpk, Hkeys. exact Hnd.
        -- replace (length h + length (OObj cps :: ext))%nat
             with (Datatypes.S (length h) + length ext)%nat by len.
           exact Hcps.
Qed.
End Traverse.

(** ** The scan of [extractPromises] *)

Lemma logItems_app_list {A} (P : A -> TPath -> list IPromisePath)
  (F : A -> TPath -> list IPromisePath -> list IPromisePath) path xs :
  Forall (fun x => forall p u, F x p u = u ++ P x p) xs ->
  forall i u, logItems F path xs i u = u ++ concat (mapItems P path xs i).
Proof.
  induction 1 as [|x xs Hx _ IH]; intros i u; simpl.
  - rewrite app_nil_r. reflexivity.
  - rewrite IH, Hx, app_assoc. reflexivity.
Qed.

Lemma logShape_notePromise sh :
  forall path u, logShape notePromise sh path u = u ++ promisesOf sh path.
Proof.
  induction sh as [x|shs IH|kshs IH] using shape_nested_ind; intros path u.
  - destruct x; simpl; [rewrite app_nil_r|]; reflexivity.
  - simpl. apply logItems_app_list. exact IH.
  - simpl. revert u. induction IH as [|ksh kshs Hk _ IHk]; intros u; simpl.
    + rewrite app_nil_r. reflexivity.
    + rewrite IHk, Hk, app_assoc. reflexivity.
Qed.

Lemma mapItems_id {A} (F : A -> TPath -> A) path xs :
  Forall (fun x => forall p, F x p = x) xs ->
  forall i, mapItems F path xs i = xs.
Proof. induction 1 as [|x xs Hx _ IH]; intros i; simpl; [|rewrite Hx, IH]; reflexivity. Qed.

Lemma mapShape_id sh : forall path, mapShape (fun v _ => v) sh path = sh.
Proof.
  induction sh as [x|shs IH|kshs IH] using shape_nested_ind; intros path; simpl.
  - reflexivity.
  - f_equal. apply mapItems_id. exact IH.
  - f_equal. induction IH as [|[k sh] kshs Hk _ IHk]; simpl; [reflexivity|].
    simpl in Hk. rewrite Hk, IHk. reflexivity.
Qed.

Lemma promiseHandler_container recurse l path (h : heap) (u : list IPromisePath) o :
  h !! l = Some o ->
  (exists vs, o = OArr vs) \/ (exists ps, o = OObj ps) ->
  promiseHandler recurse (VRef l) path (h, u) = Done None (h, u).
Proof.
  intros Hl Ho. unfold promiseHandler, isPromise. cbn [fst snd deref]. rewrite Hl.
  destruct Ho as [[vs ->]|[ps ->]]; reflexivity.
Qed.

Lemma promiseHandler_leaf recurse v path (h : heap) (u : list IPromisePath) :
  holds (length h) h (SLeaf v) v ->
  True ->
  promiseHandler recurse v path (h, u) = Done (Some v) (h, notePromise v path u) \/
  (promiseHandler recurse v path (h, u) = Done None (h, notePromise v path u) /\
   (exists p, v = VPrim p) /\ v = v).
Proof.
  intros Hholds _. inversion Hholds; subst.
  - right. split; [reflexivity|]. split; [eexists; reflexivity | reflexivity].
  - left. unfold promiseHandler, isPromise. cbn [fst snd deref].
    match goal with H : h !! _ = Some _ |- _ => rewrite H end. reflexivity.
Qed.

Lemma all_leaves_True sh : all_leaves (fun _ => True) sh.
Proof.
  induction sh as [x|shs IH|kshs IH] using shape_nested_ind; simpl.
  - exact I.
  - induction IH; simpl; auto.
  - induction IH; simpl; auto.
Qed.

Lemma holds_wrapped sh a (h : heap) :
  holds (length h) h sh a ->
  holds (length (h ++ [OArr [a]])) (h ++ [OArr [a]]) (SArr [sh]) (VRef (length h)).
Proof.
  intros Hholds. econstructor.
  - rewrite length_app. simpl. lia.
  - apply list_lookup_middle. reflexivity.
  - constructor; [|constructor].
    eapply holds_weaken; [| |exact Hholds].
    + rewrite length_app. simpl. lia.
    + intros l Hl. apply lookup_app_l. exact Hl.
Qed.

(** The scan, whatever the keys are: the promises it finds, and the heap
    of the caller left as it was. *)
Lemma scan_log {U : Type} sh a (h : heap) (u : U) fuel :
  holds (length h) h sh a ->
  (sdepth sh < fuel)%nat ->
  exists promisified ext,
    extractPromises fuel a (h, u) =
      Done (promisified, promisesOf (SArr [sh]) []) (h ++ OArr [a] :: ext, u).
Proof.
  intros Hholds Hfuel.
  destruct (traverse_log promiseHandler (fun _ => True) (fun v _ => v) notePromise
              promiseHandler_container promiseHandler_leaf
              (SArr [sh]) (VRef (length h)) (h ++ [OArr [a]]) [] [] fuel)
    as (v' & ext & Hrun).
  - apply holds_wrapped, Hholds.
  - apply all_leaves_True.
  - simpl. simpl in Hfuel. lia.
  - rewrite logShape_notePromise in Hrun. cbn [app] in Hrun.
    exists v', ext.
    unfold extractPromises, with_local. cbn [fst snd].
    unfold bind at 1. unfold alloc at 1. cbn [fst snd].
    unfold recursiveMapper, recursiveReducerInternal.
    rewrite Hrun. cbn [fst snd]. rewrite <- app_assoc. reflexivity.
Qed.

Lemma scan_shape {U : Type} sh a (h : heap) (u : U) fuel :
  holds (length h) h sh a ->
  shape_no_proto_key sh ->
  (sdepth sh < fuel)%nat ->
  exists ext,
    extractPromises fuel a (h, u) =
      Done (VRef (Datatypes.S (length h)), promisesOf (SArr [sh]) [])
           (h ++ OArr [a] :: ext, u) /\
    layout (h ++ OArr [a] :: ext) (Datatypes.S (length h))
      (Datatypes.S (length h) + length ext) (SArr [sh]) (VRef (Datatypes.S (length h))).
Proof.
  intros Hholds Hkeys Hfuel.
  destruct (traverse_shape promiseHandler (fun _ => True) (fun v _ => v) notePromise
              promiseHandler_container promiseHandler_leaf
              (SArr [sh]) (VRef (length h)) (h ++ [OArr [a]]) [] [] fuel)
    as (v' & ext & Hrun & Hlay).
  - apply holds_wrapped, Hholds.
  - simpl. split; [exact Hkeys | exact I].
  - apply all_leaves_True.
  - simpl. simpl in Hfuel. lia.
  - rewrite mapShape_id in Hlay. rewrite logShape_notePromise in Hrun.
    cbn [app] in Hrun.
    assert (Hv' : v' = VRef (Datatypes.S (length h))).
    { inversion Hlay; subst. rewrite length_app. simpl. f_equal. lia. }
    subst v'. exists ext. split.
    + unfold extractPromises, with_local. cbn [fst snd].
      unfold bind at 1. unfold alloc at 1. cbn [fst snd].
      unfold recursiveMapper, recursiveReducerInternal.
      rewrite Hrun. cbn [fst snd]. rewrite <- app_assoc. reflexivity.
    + rewrite <- app_assoc in Hlay. cbn [app] in Hlay.
      rewrite length_app in Hlay. cbn [length] in Hlay.
      replace (length h + 1)%nat with (Datatypes.S (length h)) in Hlay by lia.
      exact Hlay.
Qed.

(** ** Structures with promises *)

Lemma ptree_nested_ind (P : ptree -> Prop) :
  (forall p, P (PPrim p)) ->
  (forall l inner, P inner -> P (PProm l inner)) ->
  (forall pts, Forall P pts -> P (PArr pts)) ->
  (forall kpts, Forall (fun kpt => P (snd kpt)) kpts -> P (PObj kpts)) ->
  forall pt, P pt.
Proof.
  intros Hp Hm Ha Ho. fix IH 1. intros [p|l inner|pts|kpts].
  - apply Hp.
  - apply Hm, IH.
  - apply Ha. induction pts as [|pt pts IHpts]; constructor; [apply IH | exact IHpts].
  - apply Ho. induction kpts as [|[k pt] kpts IHk]; constructor; [apply IH | exact IHk].
Qed.

Lemma pholds_weaken pt :
  forall n n' h h' v,
    (n <= n')%nat ->
    (forall l, (l < n)%nat -> h' !! l = h !! l) ->
    pholds n h pt v -> pholds n' h' pt v.
Proof.
  induction pt as [p|l0 inner IH|pts IH|kpts IH] using ptree_nested_ind;
    intros n n' h h' v Hn Hagree Hholds; inversion Hholds; subst.
  - constructor.
  - econstructor; [lia | rewrite Hagree by lia; eassumption |].
    eapply IH; eassumption.
  - econstructor; [lia | rewrite Hagree by lia; eassumption |].
    eapply Forall2_impl_Forall; [exact IH | eassumption |].
    intros pt v IHpt Hpt. eapply IHpt; eassumption.
  - econstructor; [lia | rewrite Hagree by lia; eassumption | assumption |].
    eapply Forall2_impl_Forall; [exact IH | eassumption |].
    intros kpt kv IHpt [Hk Hpt]. split; [exact Hk|]. eapply IHpt; eassumption.
Qed.

Lemma pholds_shape pt :
  forall n h v, pholds n h pt v -> holds n h (shape_of pt) v.
Proof.
  induction pt as [p|l0 inner IH|pts IH|kpts IH] using ptree_nested_ind;
    intros n h v Hholds; inversion Hholds; subst; simpl.
  - constructor.
  - econstructor; eassumption.
  - econstructor; [eassumption | eassumption |].
    apply Forall2_fmap_l.
    eapply Forall2_impl_Forall; [exact IH | eassumption |].
    intros pt v IHpt Hpt. apply IHpt, Hpt.
  - econstructor; [eassumption | eassumption | assumption |].
    apply Forall2_fmap_l.
    eapply Forall2_impl_Forall; [exact IH | eassumption |].
    intros kpt kv IHpt [Hk Hpt]. split; [exact Hk|]. apply IHpt, Hpt.
Qed.

Lemma depth_pos t : (1 <= depth t)%nat.
Proof. destruct t; simpl; lia. Qed.

Lemma sdepth_shape_of pt : (sdepth (shape_of pt) <= depth (settle pt))%nat.
Proof.
  induction pt as [p|l0 inner IH|pts IH|kpts IH] using ptree_nested_ind; simpl.
  - lia.
  - apply depth_pos.
  - apply le_n_S. induction IH as [|pt pts Hpt _ IHpts]; simpl; lia.
  - apply le_n_S. induction IH as [|kpt kpts Hpt _ IHk]; simpl; lia.
Qed.

Lemma settle_peel pt : settle (peel pt) = settle pt.
Proof.
  induction pt as [p|l0 inner IH|pts IH|kpts IH] using ptree_nested_ind; simpl.
  - reflexivity.
  - reflexivity.
  - f_equal. induction IH as [|pt pts Hpt _ IHpts]; simpl; [|rewrite Hpt, IHpts];
      reflexivity.
  - f_equal. induction IH as [|kpt kpts Hpt _ IHk]; simpl; [|rewrite Hpt, IHk];
      reflexivity.
Qed.

Lemma ptree_no_proto_key_shape pt :
  ptree_no_proto_key pt -> shape_no_proto_key (shape_of pt).
Proof.
  induction pt as [p|l0 inner IH|pts IH|kpts IH] using ptree_nested_ind; simpl.
  - trivial.
  - trivial.
  - induction IH as [|pt pts Hpt _ IHpts]; simpl; [trivial|].
    intros [H1 H2]. split; [apply Hpt, H1 | apply IHpts, H2].
  - induction IH as [|kpt kpts Hpt _ IHk]; simpl; [trivial|].
    intros [[H0 H1] H2]. split; [split; [exact H0 | apply Hpt, H1] | apply IHk, H2].
Qed.

Lemma ptree_no_proto_key_peel pt :
  ptree_no_proto_key pt -> ptree_no_proto_key (peel pt).
Proof.
  induction pt as [p|l0 inner IH|pts IH|kpts IH] using ptree_nested_ind; simpl.
  - trivial.
  - trivial.
  - induction IH as [|pt pts Hpt _ IHpts]; simpl; [trivial|].
    intros [H1 H2]. split; [apply Hpt, H1 | apply IHpts, H2].
  - induction IH as [|kpt kpts Hpt _ IHk]; simpl; [trivial|].
    intros [[H0 H1] H2]. split; [split; [exact H0 | apply Hpt, H1] | apply IHk, H2].
Qed.

Lemma pnest_peel pt : pnest (peel pt) = (pnest pt - 1)%nat.
Proof.
  induction pt as [p|l0 inner IH|pts IH|kpts IH] using ptree_nested_ind; simpl.
  - reflexivity.
  - lia.
  - induction IH as [|pt pts Hpt _ IHpts]; simpl; [reflexivity|].
    rewrite Hpt, IHpts. lia.
  - induction IH as [|kpt kpts Hpt _ IHk]; simpl; [reflexivity|].
    rewrite Hpt, IHk. lia.
Qed.

Lemma concat_mapItems_nil {A} (P : A -> TPath -> list IPromisePath) path xs :
  Forall (fun x => forall p, P x p = []) xs ->
  forall i, concat (mapItems P path xs i) = [].
Proof. induction 1 as [|x xs Hx _ IH]; intros i; simpl; [|rewrite Hx, IH]; reflexivity. Qed.

(** Without promises the scan sees the whole structure and finds nothing. *)
Lemma pnest_zero pt :
  pnest pt = 0%nat ->
  shape_of pt = tree_shape (settle pt) /\ forall path, promisesOf (shape_of pt) path = [].
Proof.
  induction pt as [p|l0 inner IH|pts IH|kpts IH] using ptree_nested_ind; simpl; intros Hz.
  - split; reflexivity.
  - discriminate.
  - assert (Hall : Forall (fun pt => shape_of pt = tree_shape (settle pt) /\
                             forall path, promisesOf (shape_of pt) path = []) pts).
    { induction IH as [|pt pts Hpt _ IHpts]; constructor; simpl in Hz.
      - apply Hpt. lia.
      - apply IHpts. lia. }
    split.
    + f_equal. rewrite map_map. clear IH Hz.
      induction Hall as [|pt pts [Hpt _] _ IHpts]; simpl; [|rewrite Hpt, IHpts];
        reflexivity.
    + intros path. apply concat_mapItems_nil. apply Forall_fmap.
      eapply Forall_impl; [exact Hall|]. intros pt [_ Hpt]. exact Hpt.
  - assert (Hall : Forall (fun kpt => shape_of (snd kpt) = tree_shape (settle (snd kpt)) /\
                             forall path, promisesOf (shape_of (snd kpt)) path = []) kpts).
    { induction IH as [|kpt kpts Hpt _ IHk]; constructor; simpl in Hz.
      - apply Hpt. lia.
      - apply IHk. lia. }
    split.
    + f_equal. rewrite map_map. clear IH Hz.
      induction Hall as [|kpt kpts [Hpt _] _ IHk]; simpl; [|rewrite Hpt, IHk];
        reflexivity.
    + intros path. clear IH Hz.
      induction Hall as [|kpt kpts [_ Hpt] _ IHk]; simpl; [reflexivity|].
      rewrite Hpt, IHk. reflexivity.
Qed.

Lemma concat_mapItems_not_nil {A} (P : A -> TPath -> list IPromisePath) path xs :
  Exists (fun x => forall p, P x p <> []) xs ->
  forall i, concat (mapItems P path xs i) <> [].
Proof.
  induction 1 as [x xs Hx|x xs _ IH]; intros i; simpl; intros Heq;
    apply app_eq_nil in Heq as [H1 H2].
  - exact (Hx _ H1).
  - exact (IH _ H2).
Qed.

Lemma max_positive {A} (f : A -> nat) (xs : list A) :
  fold_right (fun x d => Nat.max (f x) d) 0%nat xs <> 0%nat ->
  Exists (fun x => f x <> 0%nat) xs.
Proof.
  induction xs as [|x xs IH]; simpl; intros Hne; [congruence|].
  destruct (decide (f x = 0%nat)) as [Hz|Hnz].
  - apply Exists_cons_tl, IH. lia.
  - apply Exists_cons_hd, Hnz.
Qed.

(** With a promise in the structure the scan finds one. *)
Lemma pnest_positive pt :
  pnest pt <> 0%nat -> forall path, promisesOf (shape_of pt) path <> [].
Proof.
  induction pt as [p|l0 inner IH|pts IH|kpts IH] using ptree_nested_ind; simpl; intros Hnz.
  - congruence.
  - discriminate.
  - intros path. apply concat_mapItems_not_nil.
    apply max_positive in Hnz. apply Exists_fmap.
    rewrite Exists_exists in Hnz |- *. destruct Hnz as (pt & Hin & Hpt).
    exists pt. split; [exact Hin|].
    rewrite Forall_forall in IH. intros p. exact (IH pt Hin Hpt p).
  - intros path. apply (max_positive (fun kpt => pnest (snd kpt))) in Hnz.
    rewrite Exists_exists in Hnz. destruct Hnz as (kpt & Hin & Hpt).
    rewrite Forall_forall in IH. specialize (IH kpt Hin Hpt).
    intros Heq. apply list_elem_of_split in Hin as (l1 & l2 & ->).
    rewrite map_app, flat_map_app in Heq. simpl in Heq.
    apply app_eq_nil in Heq as [_ Heq]. apply app_eq_nil in Heq as [Heq _].
    exact (IH _ Heq).
Qed.

(** ** Splicing a value into the copy *)

Lemma recordLookup_loop_descend {U : Type} (h : heap) (u : U) :
  forall keys st x,
    descend h (value st) keys = Some x ->
    exists r,
      recordLookup_loop getMember keys st (h, u) = Done r (h, u) /\ value r = x.
Proof.
  induction keys as [|key keys IH]; intros st x Hd; simpl in Hd |- *.
  - exists st. split; [reflexivity | congruence].
  - destruct (nullish (value st)) eqn:Hnull; [discriminate|].
    unfold bind, getMember. rewrite Hnull. cbn [fst snd].
    apply (IH {| resolvedPath := resolvedPath st ++ [key];
                 unresolvedPath := tail (unresolvedPath st);
                 value := getProp h (value st) key;
                 values := values st ++ [value st] |}).
    exact Hd.
Qed.

Lemma spliceOne_descend {U : Type} (h : heap) (u : U) v w rel pl o :
  descend h v (removelast rel) = Some (VRef pl) ->
  h !! pl = Some o ->
  spliceOne v w rel (h, u) =
    Done tt (<[pl := setOwn o (List.last rel (KStr "undefined")) w]> h, u).
Proof.
  intros Hd Ho. unfold spliceOne, recordLookup.
  destruct (recordLookup_loop_descend h u (removelast rel)
              {| resolvedPath := []; unresolvedPath := removelast rel;
                 value := v; values := [] |} (VRef pl) Hd) as (r & Hr & Hv).
  rewrite (bind_done _ _ _ _ _ Hr). rewrite Hv.
  apply setMember_done, Ho.
Qed.

Lemma chain_replace (h h' : heap) lo hi a b xs ys i x' y' :
  chain (layout h) lo a (take i xs) (take i ys) ->
  chain (layout h) b hi (drop (Datatypes.S i) xs) (drop (Datatypes.S i) ys) ->
  layout h' a b x' y' ->
  (forall l, (lo <= l < a)%nat \/ (b <= l < hi)%nat -> h' !! l = h !! l) ->
  (i < length xs)%nat -> (i < length ys)%nat ->
  chain (layout h') lo hi (<[i := x']> xs) (<[i := y']> ys).
Proof.
  intros Hpre Hpost Hmid Hagree Hix Hiy.
  rewrite !insert_take_drop by assumption.
  apply chain_app with (mid := a).
  - eapply chain_impl_Forall with (P := fun _ => True);
      [apply layout_range | apply Forall_true; auto | exact Hpre |].
    intros a0 b0 x y _ Ha0 Hb0 Hxy. eapply layout_agree; [|exact Hxy].
    intros l Hl. apply Hagree. lia.
  - apply chain_cons with (mid := b); [exact Hmid|].
    eapply chain_impl_Forall with (P := fun _ => True);
      [apply layout_range | apply Forall_true; auto | exact Hpost |].
    intros a0 b0 x y _ Ha0 Hb0 Hxy. eapply layout_agree; [|exact Hxy].
    intros l Hl. apply Hagree. lia.
Qed.

Lemma map_insert {A B} (f : A -> B) (l : list A) i x :
  map f (<[i := x]> l) = <[i := f x]> (map f l).
Proof. exact (list_fmap_insert f l i x). Qed.

Lemma assoc_set_lookup_NoDup ps :
  NoDup (map fst ps) ->
  forall j k v x, ps !! j = Some (k, v) -> assoc_set k x ps = <[j := (k, x)]> ps.
Proof.
  induction ps as [|[k' v'] ps IH]; intros Hnd j k v x Hj; [discriminate|].
  simpl in Hnd. apply NoDup_cons in Hnd as [Hnotin Hnd].
  destruct j as [|j]; simpl in *.
  - injection Hj as -> ->. rewrite bool_decide_eq_true_2; reflexivity.
  - case_bool_decide as Heq.
    + subst k'. exfalso. apply Hnotin.
      apply (list_elem_of_fmap_2' fst _ (k, v)); [|reflexivity].
      eapply list_elem_of_lookup_2, Hj.
    + f_equal. eapply IH; eassumption.
Qed.

(** Replacing a leaf of a laid-out copy: the walk along the parent path
    ends at the container that holds the leaf, an object of the copy, and
    the assignment changes that object only. *)
Lemma splice_rel w rel sh sh' :
  set_leaf w rel sh sh' ->
  rel <> [] ->
  forall (h : heap) lo hi v,
    layout h lo hi sh v ->
    exists pl o,
      descend h v (removelast rel) = Some (VRef pl) /\
      (lo <= pl < hi)%nat /\
      h !! pl = Some o /\
      layout (<[pl := setOwn o (List.last rel (KStr "undefined")) w]> h) lo hi sh' v.
Proof.
  induction 1 as [x|i shs shi shi' p Hlook Hset IH|j key kshs shj shj' p Hlook Hset IH];
    intros Hne h lo hi v Hlay; [congruence| |].
  - inversion Hlay; subst.
    match goal with H : h !! lo = Some _ |- _ => rename H into Hlo end.
    match goal with H : chain _ _ _ shs _ |- _ => rename H into Hchain end.
    destruct (chain_lookup (layout h) (layout_range h) _ _ _ _ _ _ Hchain Hlook)
      as (a & b & y & Hy & Ha & Hb & Hxy & Hpre & Hpost).
    pose proof (layout_range _ _ _ _ _ Hxy) as Hab.
    pose proof (lookup_lt_Some _ _ _ Hlook) as Hi.
    pose proof (lookup_lt_Some _ _ _ Hy) as Hi'.
    pose proof (lookup_lt_Some _ _ _ Hlo) as Hlolt.
    destruct p as [|k p'].
    + inversion Hset; subst. inversion Hxy; subst.
      exists lo, (OArr vs). split; [reflexivity|]. split; [lia|].
      split; [exact Hlo|].
      cbn [List.last setOwn step_index].
      rewrite bool_decide_eq_true_2 by exact Hi'.
      econstructor; [apply list_lookup_insert_eq; exact Hlolt|].
      eapply chain_replace; try eassumption; [constructor|].
      intros l Hl. apply list_lookup_insert_ne. lia.
    + destruct (IH ltac:(discriminate) h a b y Hxy) as (pl & o & Hd & Hpl & Ho & Hlay').
      exists pl, o.
      assert (Hstep : getProp h (VRef lo) (KNum i) = y).
      { unfold getProp. cbn [deref]. rewrite Hlo. cbn [getOwn step_index].
        rewrite Hy. reflexivity. }
      split.
      { change (removelast (KNum i :: k :: p')) with (KNum i :: removelast (k :: p')).
        cbn [descend nullish]. rewrite Hstep. exact Hd. }
      split; [lia|]. split; [exact Ho|].
      change (List.last (KNum i :: k :: p') (KStr "undefined"))
        with (List.last (k :: p') (KStr "undefined")).
      econstructor; [rewrite list_lookup_insert_ne by lia; exact Hlo|].
      rewrite <- (list_insert_id vs i y Hy).
      eapply chain_replace; try eassumption.
      intros l Hl. apply list_lookup_insert_ne. lia.
  - inversion Hlay; subst.
    match goal with H : h !! lo = Some _ |- _ => rename H into Hlo end.
    match goal with H : chain _ _ _ (map snd kshs) _ |- _ => rename H into Hchain end.
    match goal with H : map fst kshs = map fst ps |- _ => rename H into Hkeys end.
    match goal with H : NoDup _ |- _ => rename H into Hnd end.
    assert (Hlook' : map snd kshs !! j = Some shj).
    { rewrite list_lookup_fmap, Hlook. reflexivity. }
    destruct (chain_lookup (layout h) (layout_range h) _ _ _ _ _ _ Hchain Hlook')
      as (a & b & y & Hy & Ha & Hb & Hxy & Hpre & Hpost).
    pose proof (layout_range _ _ _ _ _ Hxy) as Hab.
    pose proof (lookup_lt_Some _ _ _ Hlook) as Hi.
    pose proof (lookup_lt_Some _ _ _ Hlo) as Hlolt.
    assert (Hps : ps !! j = Some (key, y)).
    { apply list_lookup_fmap_Some in Hy as ([k0 y0] & Hkv & Hy0). simpl in Hkv. subst y0.
      assert (Hk : map fst ps !! j = Some key).
      { rewrite <- Hkeys, list_lookup_fmap, Hlook. reflexivity. }
      rewrite list_lookup_fmap, Hy0 in Hk. simpl in Hk. injection Hk as ->. exact Hy0. }
    pose proof (lookup_lt_Some _ _ _ Hps) as Hi'.
    assert (Hfst : forall (x : val), map fst (<[j := (key, x)]> ps) = map fst ps).
    { intros x. rewrite map_insert. apply list_insert_id.
      rewrite list_lookup_fmap, Hps. reflexivity. }
    assert (Hfst' : forall (x : shape), map fst (<[j := (key, x)]> kshs) = map fst kshs).
    { intros x. rewrite map_insert. apply list_insert_id.
      rewrite list_lookup_fmap, Hlook. reflexivity. }
    destruct p as [|k p'].
    + inversion Hset; subst. inversion Hxy; subst.
      exists lo, (OObj ps). split; [reflexivity|]. split; [lia|].
      split; [exact Hlo|].
      cbn [List.last].
      rewrite (setOwn_own ps j key _ w Hnd Hps).
      econstructor; [apply list_lookup_insert_eq; exact Hlolt | | |].
      * rewrite Hfst, Hfst'. exact Hkeys.
      * rewrite Hfst. exact Hnd.
      * rewrite !map_insert. cbn [snd].
        eapply chain_replace; try eassumption;
          [constructor | | rewrite length_map; exact Hi | rewrite length_map; exact Hi'].
        intros l Hl. apply list_lookup_insert_ne. lia.
    + destruct (IH ltac:(discriminate) h a b y Hxy) as (pl & o & Hd & Hpl & Ho & Hlay').
      exists pl, o.
      assert (Hstep : getProp h (VRef lo) (KStr key) = y).
      { unfold getProp. cbn [deref]. rewrite Hlo. cbn [getOwn key_string].
        rewrite (assoc_lookup_NoDup ps Hnd j key y Hps). reflexivity. }
      split.
      { change (removelast (KStr key :: k :: p')) with (KStr key :: removelast (k :: p')).
        cbn [descend nullish]. rewrite Hstep. exact Hd. }
      split; [lia|]. split; [exact Ho|].
      change (List.last (KStr key :: k :: p') (KStr "undefined"))
        with (List.last (k :: p') (KStr "undefined")).
      econstructor; [rewrite list_lookup_insert_ne by lia; exact Hlo | | exact Hnd |].
      * rewrite Hfst'. exact Hkeys.
      * rewrite map_insert. cbn [snd].
        rewrite <- (list_insert_id (map snd ps) j y Hy).
        eapply chain_replace; try eassumption;
          [|rewrite length_map; exact Hi | rewrite length_map; exact Hi'].
        intros l Hl. apply list_lookup_insert_ne. lia.
Qed.

(** ** The leaves of a scan and their paths *)

Lemma mapItems_lookup {A B} (F : A -> TPath -> B) path xs :
  forall k i,
    mapItems F path xs k !! i = (fun x => F x (path ++ [KNum (k + i)])) <$> xs !! i.
Proof.
  induction xs as [|x xs IH]; intros k i; [reflexivity|].
  destruct i as [|i]; simpl.
  - rewrite Nat.add_0_r. reflexivity.
  - rewrite IH. replace (Datatypes.S k + i)%nat with (k + Datatypes.S i)%nat by lia.
    reflexivity.
Qed.

Lemma elem_concat_mapItems {A} (P : A -> TPath -> list IPromisePath) path xs pp :
  forall k,
    pp ∈ concat (mapItems P path xs k) ->
    exists i x, xs !! i = Some x /\ pp ∈ P x (path ++ [KNum (k + i)]).
Proof.
  induction xs as [|x xs IH]; intros k Hin; simpl in Hin.
  - inversion Hin.
  - apply elem_of_app in Hin as [Hin|Hin].
    + exists 0%nat, x. rewrite Nat.add_0_r. split; [reflexivity | exact Hin].
    + destruct (IH _ Hin) as (i & x' & Hi & Hpp).
      exists (Datatypes.S i), x'. split; [exact Hi|].
      replace (k + Datatypes.S i)%nat with (Datatypes.S k + i)%nat by lia. exact Hpp.
Qed.

Lemma elem_flat_map_lookup {A} (P : A -> list IPromisePath) (xs : list A) pp :
  pp ∈ flat_map P xs -> exists j x, xs !! j = Some x /\ pp ∈ P x.
Proof.
  induction xs as [|x xs IH]; intros Hin; simpl in Hin.
  - inversion Hin.
  - apply elem_of_app in Hin as [Hin|Hin].
    + exists 0%nat, x. split; [reflexivity | exact Hin].
    + destruct (IH Hin) as (j & x' & Hj & Hpp).
      exists (Datatypes.S j), x'. split; [exact Hj | exact Hpp].
Qed.

Lemma prefix_step_eq (base p r : TPath) (k k' : step) :
  base ++ [k] `prefix_of` p -> p = base ++ k' :: r -> k = k'.
Proof.
  intros [t Ht] Hp. rewrite Hp, <- app_assoc in Ht. apply app_inv_head in Ht.
  simpl in Ht. congruence.
Qed.

Lemma mapShape_ext_prefix F G sh :
  forall base,
    (forall x p, base `prefix_of` p -> F x p = G x p) ->
    mapShape F sh base = mapShape G sh base.
Proof.
  induction sh as [x|shs IH|kshs IH] using shape_nested_ind; intros base Hext; simpl.
  - f_equal. apply Hext. reflexivity.
  - f_equal. apply list_eq. intros i. rewrite !mapItems_lookup.
    destruct (shs !! i) as [sh|] eqn:Hi; [|reflexivity]. simpl. f_equal.
    rewrite Forall_forall in IH. apply (IH sh (list_elem_of_lookup_2 _ _ _ Hi)).
    intros x p Hpre. apply Hext. eapply prefix_app_l, Hpre.
  - f_equal. apply list_eq. intros j. rewrite !list_lookup_fmap.
    destruct (kshs !! j) as [ksh|] eqn:Hj; [|reflexivity]. simpl. do 2 f_equal.
    rewrite Forall_forall in IH. apply (IH ksh (list_elem_of_lookup_2 _ _ _ Hj)).
    intros x p Hpre. apply Hext. eapply prefix_app_l, Hpre.
Qed.

Lemma distinct_keys_items shs :
  distinct_keys (SArr shs) -> Forall distinct_keys shs.
Proof.
  induction shs as [|sh shs IH]; intros H; [constructor|].
  destruct H as [H1 H2]. constructor; [exact H1 | apply IH, H2].
Qed.

Lemma distinct_keys_props kshs :
  distinct_keys (SObj kshs) ->
  NoDup (map fst kshs) /\ Forall (fun ksh => distinct_keys (snd ksh)) kshs.
Proof.
  intros [Hnd H]. split; [exact Hnd|]. clear Hnd.
  induction kshs as [|ksh kshs IH]; [constructor|].
  destruct H as [H1 H2]. constructor; [exact H1 | apply IH, H2].
Qed.

Lemma Forall2_left {A B} (P : A -> Prop) (R : A -> B -> Prop) xs ys :
  Forall (fun x => forall y, R x y -> P x) xs -> Forall2 R xs ys -> Forall P xs.
Proof.
  intros HP HR. revert HP.
  induction HR as [|x y xs ys Hxy _ IH]; intros HP; [constructor|].
  inversion HP; subst. constructor; [eauto | apply IH; assumption].
Qed.

Lemma distinct_keys_arr shs : Forall distinct_keys shs -> distinct_keys (SArr shs).
Proof. induction 1 as [|sh shs Hsh _ IH]; simpl; [exact I|]. split; assumption. Qed.

Lemma distinct_keys_obj kshs :
  NoDup (map fst kshs) -> Forall (fun ksh => distinct_keys (snd ksh)) kshs ->
  distinct_keys (SObj kshs).
Proof.
  intros Hnd H. split; [exact Hnd|]. clear Hnd.
  induction H as [|ksh kshs Hk _ IH]; simpl; [exact I|]. split; assumption.
Qed.

Lemma holds_distinct_keys sh : forall n h v, holds n h sh v -> distinct_keys sh.
Proof.
  induction sh as [x|shs IH|kshs IH] using shape_nested_ind;
    intros n h v Hholds; inversion Hholds; subst; try exact I.
  - match goal with H : Forall2 _ shs _ |- _ => rename H into Hitems end.
    apply distinct_keys_arr.
    eapply Forall2_left; [|exact Hitems].
    eapply Forall_impl; [exact IH|]. intros sh Hsh y Hy. eapply Hsh, Hy.
  - match goal with H : Forall2 _ kshs _ |- _ => rename H into Hprops end.
    apply distinct_keys_obj.
    + rewrite (Forall2_keys _ _ _ Hprops). assumption.
    + eapply Forall2_left; [|exact Hprops].
      eapply Forall_impl; [exact IH|]. intros ksh Hsh y [_ Hy]. eapply Hsh, Hy.
Qed.

(** A promise found by the scan is a leaf at its path: changing the leaf
    handler at that path alone changes that leaf alone. *)
Lemma promise_set_leaf F F' w pp sh :
  forall base,
    distinct_keys sh ->
    pp ∈ promisesOf sh base ->
    F' (promise pp) (path pp) = w ->
    (forall x p, p <> path pp -> F' x p = F x p) ->
    exists rel,
      path pp = base ++ rel /\
      set_leaf w rel (mapShape F sh base) (mapShape F' sh base).
Proof.
  induction sh as [x|shs IH|kshs IH] using shape_nested_ind;
    intros base Hdk Hin Hw Hsame.
  - destruct x as [p|l]; simpl in Hin; [inversion Hin|].
    apply list_elem_of_singleton in Hin. subst pp. simpl in Hw |- *.
    exists []. rewrite app_nil_r. split; [reflexivity|].
    rewrite Hw. constructor.
  - simpl in Hin. apply elem_concat_mapItems in Hin as (i & shi & Hi & Hpp).
    rewrite Nat.add_0_l in Hpp.
    apply distinct_keys_items in Hdk.
    rewrite Forall_forall in IH, Hdk.
    pose proof (list_elem_of_lookup_2 _ _ _ Hi) as Hini.
    destruct (IH shi Hini (base ++ [KNum i]) (Hdk shi Hini) Hpp Hw Hsame)
      as (rel' & Hpath & Hset).
    rewrite <- app_assoc in Hpath. cbn [app] in Hpath.
    exists (KNum i :: rel'). split; [exact Hpath|]. cbn [mapShape].
    assert (Hrest : mapItems (mapShape F') base shs 0 =
                    <[i := mapShape F' shi (base ++ [KNum i])]>
                      (mapItems (mapShape F) base shs 0)).
    { apply list_eq. intros j. rewrite mapItems_lookup, Nat.add_0_l.
      destruct (decide (i = j)) as [<-|Hij].
      - rewrite list_lookup_insert_eq, Hi; [reflexivity|].
        apply lookup_lt_is_Some. rewrite mapItems_lookup, Hi. eexists. reflexivity.
      - rewrite list_lookup_insert_ne by exact Hij.
        rewrite mapItems_lookup, Nat.add_0_l.
        destruct (shs !! j) as [shj|]; [|reflexivity]. simpl. f_equal.
        apply mapShape_ext_prefix. intros x p Hpre. apply Hsame.
        intros Hp. rewrite Hpath in Hp.
        pose proof (prefix_step_eq _ _ _ _ _ Hpre Hp) as Hk. congruence. }
    rewrite Hrest. econstructor; [|exact Hset].
    rewrite mapItems_lookup, Nat.add_0_l, Hi. reflexivity.
  - simpl in Hin. apply elem_flat_map_lookup in Hin as (j & [key shj] & Hj & Hpp).
    cbn [fst snd] in Hpp.
    apply distinct_keys_props in Hdk as [Hnd Hdk].
    rewrite Forall_forall in IH, Hdk.
    pose proof (list_elem_of_lookup_2 _ _ _ Hj) as Hinj.
    destruct (IH _ Hinj (base ++ [KStr key]) (Hdk _ Hinj) Hpp Hw Hsame)
      as (rel' & Hpath & Hset).
    rewrite <- app_assoc in Hpath. cbn [app snd] in Hpath, Hset.
    exists (KStr key :: rel'). split; [exact Hpath|]. cbn [mapShape].
    set (m := fun G (ksh : string * shape) =>
                (fst ksh, mapShape G (snd ksh) (base ++ [KStr (fst ksh)]))).
    assert (Hrest : map (m F') kshs =
                    <[j := (key, mapShape F' shj (base ++ [KStr key]))]> (map (m F) kshs)).
    { apply list_eq. intros j'. rewrite list_lookup_fmap.
      destruct (decide (j = j')) as [<-|Hjj].
      - rewrite list_lookup_insert_eq, Hj; [reflexivity|].
        rewrite length_map. eapply lookup_lt_Some, Hj.
      - rewrite list_lookup_insert_ne by exact Hjj.
        rewrite list_lookup_fmap.
        destruct (kshs !! j') as [[key' sh']|] eqn:Hj'; [|reflexivity].
        simpl. unfold m. cbn [fst snd]. do 2 f_equal.
        apply mapShape_ext_prefix. intros x p Hpre. apply Hsame.
        intros Hp. rewrite Hpath in Hp.
        pose proof (prefix_step_eq _ _ _ _ _ Hpre Hp) as Hk. injection Hk as Hk.
        apply Hjj. eapply (NoDup_lookup _ j j' key Hnd).
        + rewrite list_lookup_fmap, Hj. reflexivity.
        + rewrite list_lookup_fmap, Hj'. simpl. congruence. }
    change (map (fun ksh : string * shape =>
                   (fst ksh, mapShape F' (snd ksh) (base ++ [KStr (fst ksh)]))) kshs)
      with (map (m F') kshs).
    change (map (fun ksh : string * shape =>
                   (fst ksh, mapShape F (snd ksh) (base ++ [KStr (fst ksh)]))) kshs)
      with (map (m F) kshs).
    rewrite Hrest. econstructor; [|exact Hset].
    rewrite list_lookup_fmap, Hj. reflexivity.
Qed.

(** Leaf handlers that agree on primitives and on the promises of a shape
    build the same shape. *)
Lemma mapShape_ext_promises F G sh :
  forall base,
    (forall p path, F (VPrim p) path = G (VPrim p) path) ->
    (forall pp, pp ∈ promisesOf sh base ->
                F (promise pp) (path pp) = G (promise pp) (path pp)) ->
    mapShape F sh base = mapShape G sh base.
Proof.
  induction sh as [x|shs IH|kshs IH] using shape_nested_ind;
    intros base Hprim Hprom; simpl.
  - f_equal. destruct x as [p|l]; [apply Hprim|].
    apply (Hprom {| promise := VRef l; path := base |}). simpl.
    apply list_elem_of_singleton. reflexivity.
  - f_equal. apply list_eq. intros i. rewrite !mapItems_lookup, Nat.add_0_l.
    destruct (shs !! i) as [sh|] eqn:Hi; [|reflexivity]. simpl. f_equal.
    rewrite Forall_forall in IH.
    apply (IH sh (list_elem_of_lookup_2 _ _ _ Hi)); [exact Hprim|].
    intros pp Hpp. apply Hprom. simpl.
    apply list_elem_of_In, in_concat. exists (promisesOf sh (base ++ [KNum i])).
    split; [|apply list_elem_of_In; exact Hpp].
    apply list_elem_of_In. eapply list_elem_of_lookup_2.
    rewrite mapItems_lookup, Nat.add_0_l, Hi. reflexivity.
  - f_equal. apply list_eq. intros j. rewrite !list_lookup_fmap.
    destruct (kshs !! j) as [ksh|] eqn:Hj; [|reflexivity]. simpl. do 2 f_equal.
    rewrite Forall_forall in IH.
    apply (IH ksh (list_elem_of_lookup_2 _ _ _ Hj)); [exact Hprim|].
    intros pp Hpp. apply Hprom. simpl.
    apply list_elem_of_In, in_flat_map. exists ksh.
    split; apply list_elem_of_In; [eapply list_elem_of_lookup_2, Hj | exact Hpp].
Qed.

(** ** One pass: await and splice *)

Lemma awaitAll_fulfilled {U : Type} (h : heap) (u : U) ps :
  Forall (fun p => forall r, deref h p <> Some (OPromise (Rejected r))) ps ->
  awaitAll ps (h, u) = Done (map (awaited h) ps) (h, u).
Proof.
  induction 1 as [|p ps Hp _ IH]; [reflexivity|].
  cbn [awaitAll fst map]. unfold awaited at 1.
  destruct (deref h p) as [[vs|kvs|[w|r]|slots]|] eqn:Hd;
    try (rewrite (bind_done _ _ _ _ _ IH); reflexivity).
  exfalso. exact (Hp r eq_refl).
Qed.

Lemma spliced_nil h sh : forall base, mapShape (spliced h []) sh base = sh.
Proof.
  intros base. rewrite <- (mapShape_id sh base) at 2.
  apply mapShape_ext_prefix. intros x p _. reflexivity.
Qed.

Lemma spliceAll_layout {U : Type} (h1 : heap) (u : U) sh lo hi root :
  distinct_keys sh ->
  (forall x, sh <> SLeaf x) ->
  forall todo done (h : heap),
    (forall pp, pp ∈ todo -> pp ∈ promisesOf sh []) ->
    layout h lo hi (mapShape (spliced h1 done) sh []) root ->
    exists h',
      spliceAll root todo (map (fun pp => awaited h1 (promise pp)) todo) (h, u) =
        Done tt (h', u) /\
      length h' = length h /\
      (forall l, ~ (lo <= l < hi)%nat -> h' !! l = h !! l) /\
      layout h' lo hi (mapShape (spliced h1 (done ++ todo)) sh []) root.
Proof.
  intros Hdk Hcont. induction todo as [|pp todo IH]; intros done h Hin Hlay.
  - exists h. rewrite app_nil_r. repeat split; try reflexivity. exact Hlay.
  - destruct (promise_set_leaf (spliced h1 done) (spliced h1 (done ++ [pp]))
                (awaited h1 (promise pp)) pp sh [] Hdk)
      as (rel & Hpath & Hset).
    { apply Hin. left. }
    { unfold spliced. rewrite bool_decide_eq_true_2; [reflexivity|].
      rewrite map_app. apply elem_of_app. right. left. }
    { intros x p Hp. unfold spliced.
      rewrite (bool_decide_ext (p ∈ map path (done ++ [pp])) (p ∈ map path done));
        [reflexivity|].
      rewrite map_app, elem_of_app. simpl. rewrite list_elem_of_singleton. tauto. }
    cbn [app] in Hpath.
    assert (Hne : rel <> []).
    { intros ->. inversion Hset as [v0 Hv0| |]. destruct sh; try discriminate.
      exact (Hcont _ eq_refl). }
    destruct (splice_rel _ _ _ _ Hset Hne h lo hi root Hlay)
      as (pl & o & Hd & Hpl & Ho & Hlay').
    destruct (IH (done ++ [pp]) _ (fun pp' Hpp' => Hin pp' (list_elem_of_further _ _ _ Hpp'))
                Hlay') as (h' & Hrun & Hlen & Hagree & Hfinal).
    exists h'. split; [|split; [|split]].
    + cbn [spliceAll map]. rewrite Hpath.
      rewrite (bind_done _ _ _ _ _ (spliceOne_descend h u root _ rel pl o Hd Ho)).
      exact Hrun.
    + rewrite Hlen. apply length_insert.
    + intros l Hl. rewrite Hagree by exact Hl. apply list_lookup_insert_ne. lia.
    + rewrite <- app_assoc in Hfinal. exact Hfinal.
Qed.

Lemma mapItems_length {A B} (F : A -> TPath -> B) path xs :
  forall k, length (mapItems F path xs k) = length xs.
Proof. induction xs as [|x xs IH]; intros k; simpl; [|rewrite IH]; reflexivity. Qed.

Lemma chain_lookup_both {A B} (R : nat -> nat -> A -> B -> Prop) lo hi xs ys i x y :
  (forall lo hi x y, R lo hi x y -> (lo <= hi)%nat) ->
  chain R lo hi xs ys ->
  xs !! i = Some x -> ys !! i = Some y ->
  exists a b, (lo <= a)%nat /\ (b <= hi)%nat /\ R a b x y.
Proof.
  intros Hle Hchain Hx Hy.
  destruct (chain_lookup R Hle _ _ _ _ _ _ Hchain Hx)
    as (a & b & y' & Hy' & Ha & Hb & Hxy & _).
  exists a, b. split; [exact Ha|]. split; [exact Hb|]. congruence.
Qed.

(** A copy of a structure without promises holds the structure. *)
Lemma layout_repr h t :
  forall lo hi v, layout h lo hi (tree_shape t) v -> repr_in lo hi h t v.
Proof.
  induction t as [p|ts IH|kts IH] using tree_nested_ind;
    intros lo hi v Hlay; simpl in Hlay; inversion Hlay; subst.
  - constructor.
  - match goal with H : chain _ _ _ _ _ |- _ => rename H into Hchain end.
    pose proof (chain_le _ (layout_range h) _ _ _ _ Hchain) as Hle.
    pose proof (chain_length _ _ _ _ _ Hchain) as Hlen. rewrite length_map in Hlen.
    econstructor; [lia | eassumption |].
    apply Forall2_same_length_lookup_2; [exact Hlen|].
    intros i t y Ht Hy.
    destruct (chain_lookup_both (layout h) _ _ _ _ i (tree_shape t) y
                (layout_range h) Hchain) as (a & b & Ha & Hb & Hxy).
    { rewrite list_lookup_fmap, Ht. reflexivity. }
    { exact Hy. }
    rewrite Forall_forall in IH.
    eapply repr_in_weaken; [| | |apply (IH t (list_elem_of_lookup_2 _ _ _ Ht)), Hxy];
      [lia | lia | reflexivity].
  - match goal with H : chain _ _ _ _ _ |- _ => rename H into Hchain end.
    match goal with H : map fst _ = map fst ps |- _ => rename H into Hkeys end.
    pose proof (chain_le _ (layout_range h) _ _ _ _ Hchain) as Hle.
    pose proof (chain_length _ _ _ _ _ Hchain) as Hlen. rewrite !length_map in Hlen.
    rewrite map_map in Hkeys, Hchain. cbn [fst snd] in Hkeys, Hchain.
    econstructor; [lia | eassumption | assumption |].
    apply Forall2_same_length_lookup_2; [exact Hlen|].
    intros i kt kv Hkt Hkv.
    destruct (chain_lookup_both (layout h) _ _ _ _ i (tree_shape (snd kt)) (snd kv)
                (layout_range h) Hchain) as (a & b & Ha & Hb & Hxy).
    { rewrite list_lookup_fmap, Hkt. reflexivity. }
    { rewrite list_lookup_fmap, Hkv. reflexivity. }
    split.
    + pose proof (f_equal (fun l => l !! i) Hkeys) as Hk. cbn beta in Hk.
      rewrite !list_lookup_fmap, Hkt, Hkv in Hk. simpl in Hk. congruence.
    + rewrite Forall_forall in IH.
      eapply repr_in_weaken; [| | |apply (IH kt (list_elem_of_lookup_2 _ _ _ Hkt)), Hxy];
        [lia | lia | reflexivity].
Qed.

Lemma awaited_prim h p : awaited h (VPrim p) = VPrim p.
Proof. reflexivity. Qed.

(** After the promises of a scan have been replaced by their values, the
    copy holds the structure with its outermost promises resolved. *)
Lemma layout_peel n (h h1 h2 : heap) pt :
  forall a base lo hi v,
    pholds n h pt a ->
    (forall l, (l < n)%nat -> h1 !! l = h !! l) ->
    (forall l, (l < n)%nat -> h2 !! l = h !! l) ->
    (n <= length h2)%nat ->
    layout h2 lo hi (mapShape (fun x _ => awaited h1 x) (shape_of pt) base) v ->
    pholds (length h2) h2 (peel pt) v.
Proof.
  induction pt as [p|l0 inner IH|pts IH|kpts IH] using ptree_nested_ind;
    intros a base lo hi v Hholds Hag1 Hag2 Hn Hlay;
    inversion Hholds; subst; simpl in Hlay; inversion Hlay; subst; simpl.
  - constructor.
  - unfold awaited. cbn [deref]. rewrite Hag1 by assumption.
    match goal with H : h !! l0 = Some _ |- _ => rewrite H end.
    eapply pholds_weaken; [exact Hn | exact Hag2 | eassumption].
  - match goal with H : chain _ _ _ _ _ |- _ => rename H into Hchain end.
    match goal with H : Forall2 _ pts _ |- _ => rename H into Hitems end.
    match goal with H : h2 !! lo = Some _ |- _ => rename H into Hlo end.
    pose proof (chain_length _ _ _ _ _ Hchain) as Hlen.
    rewrite mapItems_length, length_map in Hlen.
    econstructor; [eapply lookup_lt_Some, Hlo | exact Hlo |].
    apply Forall2_same_length_lookup_2; [rewrite length_map; exact Hlen|].
    intros i pt' y Hpt' Hy.
    apply list_lookup_fmap_Some in Hpt' as (pt & -> & Hpt).
    destruct (Forall2_lookup_l _ _ _ _ _ Hitems Hpt) as (a0 & Ha0 & Hpa).
    destruct (chain_lookup_both (layout h2) _ _ _ _ i
                (mapShape (fun x _ => awaited h1 x) (shape_of pt) (base ++ [KNum i])) y
                (layout_range h2) Hchain) as (a1 & b1 & Ha1 & Hb1 & Hxy).
    { rewrite mapItems_lookup, Nat.add_0_l, list_lookup_fmap, Hpt. reflexivity. }
    { exact Hy. }
    rewrite Forall_forall in IH.
    eapply (IH pt (list_elem_of_lookup_2 _ _ _ Hpt)); eassumption.
  - match goal with H : chain _ _ _ _ _ |- _ => rename H into Hchain end.
    match goal with H : Forall2 _ kpts _ |- _ => rename H into Hprops end.
    match goal with H : h2 !! lo = Some _ |- _ => rename H into Hlo end.
    match goal with H : map fst _ = map fst ps0 |- _ => rename H into Hkeys end.
    pose proof (chain_length _ _ _ _ _ Hchain) as Hlen.
    rewrite !length_map in Hlen.
    rewrite !map_map in Hkeys, Hchain. cbn [fst snd] in Hkeys, Hchain.
    econstructor; [eapply lookup_lt_Some, Hlo | exact Hlo | assumption |].
    apply Forall2_same_length_lookup_2; [rewrite length_map; exact Hlen|].
    intros i kpt' kv Hkpt' Hkv.
    apply list_lookup_fmap_Some in Hkpt' as (kpt & -> & Hkpt). cbn [fst snd].
    destruct (Forall2_lookup_l _ _ _ _ _ Hprops Hkpt) as (kv0 & Hkv0 & Hk0 & Hpa).
    destruct (chain_lookup_both (layout h2) _ _ _ _ i
                (mapShape (fun x _ => awaited h1 x) (shape_of (snd kpt))
                   (base ++ [KStr (fst kpt)])) (snd kv)
                (layout_range h2) Hchain) as (a1 & b1 & Ha1 & Hb1 & Hxy).
    { rewrite list_lookup_fmap, Hkpt. reflexivity. }
    { rewrite list_lookup_fmap, Hkv. reflexivity. }
    split.
    + pose proof (f_equal (fun l => l !! i) Hkeys) as Hk. cbn beta in Hk.
      rewrite !list_lookup_fmap, Hkpt, Hkv in Hk. simpl in Hk. congruence.
    + rewrite Forall_forall in IH.
      eapply (IH kpt (list_elem_of_lookup_2 _ _ _ Hkpt)); eassumption.
Qed.

(** ** The passes of [promiseAll] on a structure with promises *)

Lemma promisesOf_fulfilled n h pt :
  forall v base pp,
    pholds n h pt v ->
    pp ∈ promisesOf (shape_of pt) base ->
    exists l w, promise pp = VRef l /\ (l < n)%nat /\
                h !! l = Some (OPromise (Fulfilled w)).
Proof.
  induction pt as [p|l0 inner IH|pts IH|kpts IH] using ptree_nested_ind;
    intros v base pp Hholds Hin; inversion Hholds; subst; simpl in Hin.
  - inversion Hin.
  - apply list_elem_of_singleton in Hin. subst pp. simpl. eauto.
  - apply elem_concat_mapItems in Hin as (i & sh & Hi & Hpp).
    apply list_lookup_fmap_Some in Hi as (pt & -> & Hpt).
    match goal with H : Forall2 _ pts _ |- _ => rename H into Hitems end.
    destruct (Forall2_lookup_l _ _ _ _ _ Hitems Hpt) as (a0 & _ & Hpa).
    rewrite Forall_forall in IH.
    eapply (IH pt (list_elem_of_lookup_2 _ _ _ Hpt)); eassumption.
  - apply elem_flat_map_lookup in Hin as (j & ksh & Hj & Hpp).
    apply list_lookup_fmap_Some in Hj as (kpt & -> & Hkpt). cbn [fst snd] in Hpp.
    match goal with H : Forall2 _ kpts _ |- _ => rename H into Hprops end.
    destruct (Forall2_lookup_l _ _ _ _ _ Hprops Hkpt) as (kv0 & _ & _ & Hpa).
    rewrite Forall_forall in IH.
    eapply (IH kpt (list_elem_of_lookup_2 _ _ _ Hkpt)); eassumption.
Qed.

Lemma wrapper_promises sh : promisesOf (SArr [sh]) [] = promisesOf sh [KNum 0].
Proof. simpl. apply app_nil_r. Qed.

Lemma first_item {U : Type} (h : heap) (u : U) lo hi sh root :
  layout h lo hi (SArr [sh]) root ->
  exists v0,
    getMember root (KNum 0) (h, u) = Done v0 (h, u) /\
    layout h (Datatypes.S lo) hi sh v0.
Proof.
  intros Hlay. inversion Hlay; subst.
  match goal with H : chain _ _ _ _ _ |- _ => inversion H; subst end.
  match goal with H : chain _ _ _ [] _ |- _ => inversion H; subst end.
  match goal with H : h !! lo = Some _ |- _ => rename H into Hlo end.
  eexists. split; [|eassumption].
  unfold getMember, getProp. cbn [nullish fst deref]. rewrite Hlo. reflexivity.
Qed.

Section Passes.
Context {U : Type}.
Variable pt : ptree.
Variable a : val.
Variable h : heap.
Variable u : U.
Variable fuel : nat.
Hypothesis a_holds : pholds (length h) h pt a.
Hypothesis plain_keys : ptree_no_proto_key pt.
Hypothesis enough_fuel : (depth (settle pt) < fuel)%nat.

Lemma pass_scan :
  exists ext,
    extractPromises fuel a (h, u) =
      Done (VRef (Datatypes.S (length h)), promisesOf (shape_of pt) [KNum 0])
           (h ++ OArr [a] :: ext, u) /\
    layout (h ++ OArr [a] :: ext) (Datatypes.S (length h))
      (length (h ++ OArr [a] :: ext)) (SArr [shape_of pt])
      (VRef (Datatypes.S (length h))).
Proof.
  destruct (scan_shape (shape_of pt) a h u fuel (pholds_shape _ _ _ _ a_holds)
              (ptree_no_proto_key_shape _ plain_keys))
    as (ext & Hrun & Hlay).
  { pose proof (sdepth_shape_of pt). lia. }
  exists ext. rewrite wrapper_promises in Hrun. split; [exact Hrun|].
  replace (length (h ++ OArr [a] :: ext))
    with (Datatypes.S (length h) + length ext)%nat
    by (rewrite length_app; simpl; lia).
  exact Hlay.
Qed.

(** No promise left: the scan after the last pass returns a copy that
    holds the settled structure. *)
Lemma pass_last :
  pnest pt = 0%nat ->
  exists r h1,
    needsPasses fuel 0 a (h, u) r (h1, u) /\
    frame (length h) h h1 /\
    repr_in (length h) (length h1) h1 (settle pt) r.
Proof.
  intros Hz. destruct pass_scan as (ext & Hrun & Hlay).
  destruct (pnest_zero pt Hz) as [Hshape Hnone].
  rewrite Hnone in Hrun.
  destruct (first_item _ u _ _ _ _ Hlay) as (v0 & Hget & Hv0).
  exists v0, (h ++ OArr [a] :: ext). split; [|split].
  - simpl. eexists _, _. split; [exact Hrun | exact Hget].
  - split; [rewrite length_app; lia|]. intros l Hl. apply lookup_app_l, Hl.
  - rewrite Hshape in Hv0. apply layout_repr in Hv0.
    eapply repr_in_weaken; [| | |exact Hv0]; [lia | lia | reflexivity].
Qed.

(** One pass: the promises the scan finds are all replaced by their
    values, in whatever order the sort puts them. *)
Lemma pass_splice :
  pnest pt <> 0%nat ->
  exists promisified promisePaths h1 next h2,
    extractPromises fuel a (h, u) = Done (promisified, promisePaths) (h1, u) /\
    promisePaths <> [] /\
    splicePass promisified promisePaths (h1, u) = Done next (h2, u) /\
    frame (length h) h h2 /\
    pholds (length h2) h2 (peel pt) next.
Proof.
  intros Hnz. destruct pass_scan as (ext & Hrun & Hlay).
  set (h1 := h ++ OArr [a] :: ext) in *.
  set (root := VRef (Datatypes.S (length h))) in *.
  set (pps := promisesOf (shape_of pt) [KNum 0]) in *.
  set (sorted := array_sort comparePromisePaths pps).
  assert (Hlen1 : length h1 = (Datatypes.S (length h) + length ext)%nat).
  { unfold h1. rewrite length_app. simpl. lia. }
  assert (Hag1 : forall l, (l < length h)%nat -> h1 !! l = h !! l).
  { intros l Hl. apply lookup_app_l, Hl. }
  destruct (array_sort_from pps [] (SSorted_nil _)) as (Hperm & _ & _).
  cbn [app] in Hperm. fold (array_sort comparePromisePaths pps) in Hperm.
  fold sorted in Hperm.
  assert (Hsorted_in : forall pp, pp ∈ sorted -> pp ∈ pps).
  { intros pp Hpp. rewrite Hperm. exact Hpp. }
  assert (Hawait : awaitAll (map promise sorted) (h1, u) =
                   Done (map (fun pp => awaited h1 (promise pp)) sorted) (h1, u)).
  { rewrite <- (map_map promise (awaited h1)). apply awaitAll_fulfilled.
    apply Forall_forall. intros p Hp.
    apply list_elem_of_fmap in Hp as (pp & -> & Hpp).
    destruct (promisesOf_fulfilled _ _ _ _ _ _ a_holds (Hsorted_in _ Hpp))
      as (l & w & -> & Hl & Hw).
    intros r. cbn [deref]. rewrite Hag1 by exact Hl. rewrite Hw. discriminate. }
  destruct (spliceAll_layout h1 u (SArr [shape_of pt]) (Datatypes.S (length h))
              (length h1) root) with (todo := sorted) (done := @nil IPromisePath) (h := h1)
    as (h2 & Hsplice & Hlen2 & Hag2 & Hlay2).
  { apply distinct_keys_arr. constructor; [|constructor].
    eapply holds_distinct_keys, pholds_shape, a_holds. }
  { discriminate. }
  { intros pp Hpp. rewrite wrapper_promises. apply Hsorted_in, Hpp. }
  { rewrite spliced_nil. exact Hlay. }
  cbn [app] in Hlay2.
  rewrite (mapShape_ext_promises (spliced h1 sorted) (fun x _ => awaited h1 x))
    in Hlay2.
  2:{ intros p path0. unfold spliced. destruct (bool_decide _); reflexivity. }
  2:{ intros pp Hpp. unfold spliced. rewrite bool_decide_eq_true_2; [reflexivity|].
      apply list_elem_of_fmap. exists pp. split; [reflexivity|].
      rewrite <- Hperm. rewrite wrapper_promises in Hpp. exact Hpp. }
  cbn [mapShape mapItems app] in Hlay2.
  destruct (first_item _ u _ _ _ _ Hlay2) as (next & Hget & Hnext).
  exists root, pps, h1, next, h2. split; [exact Hrun|]. split; [|split; [|split]].
  - apply pnest_positive, Hnz.
  - unfold splicePass, splicePassWith. fold sorted.
    rewrite (bind_done _ _ _ _ _ Hawait), (bind_done _ _ _ _ _ Hsplice).
    exact Hget.
  - split; [lia|]. intros l Hl. rewrite Hag2 by lia. apply Hag1, Hl.
  - eapply (layout_peel (length h) h h1 h2 pt a); [exact a_holds | exact Hag1 | | lia |
                                                    exact Hnext].
    intros l Hl. rewrite Hag2 by lia. apply Hag1, Hl.
Qed.
End Passes.

(** The number of passes is the depth to which promises are nested, and
    the last scan returns the settled structure. *)
Lemma resolve_passes {U : Type} (u : U) fuel :
  forall k pt a (h : heap),
    pnest pt = k ->
    pholds (length h) h pt a ->
    ptree_no_proto_key pt ->
    (depth (settle pt) < fuel)%nat ->
    exists r h',
      needsPasses fuel k a (h, u) r (h', u) /\
      frame (length h) h h' /\
      repr_in (length h) (length h') h' (settle pt) r.
Proof.
  induction k as [|k IH]; intros pt a h Hk Hholds Hkeys Hfuel.
  - apply pass_last; assumption.
  - destruct (pass_splice pt a h u fuel Hholds Hkeys Hfuel ltac:(lia))
      as (promisified & pps & h1 & next & h2 & Hscan & Hne & Hsplice & Hframe & Hnext).
    destruct (IH (peel pt) next h2) as (r & h' & Hneeds & Hframe' & Hrepr).
    { rewrite pnest_peel. lia. }
    { exact Hnext. }
    { apply ptree_no_proto_key_peel, Hkeys. }
    { rewrite settle_peel. exact Hfuel. }
    exists r, h'. split; [|split].
    + simpl. exists promisified, pps, (h1, u), next, (h2, u). auto.
    + eapply frame_trans; [|exact Hframe|exact Hframe']. apply Hframe.
    + rewrite settle_peel in Hrepr.
      eapply repr_in_weaken; [| | |exact Hrepr]; [apply Hframe | lia | reflexivity].
Qed.

(** ** What the scan returns *)

Lemma descend_leaf w rel sh sh' :
  set_leaf w rel sh sh' ->
  sh' = sh ->
  forall (h : heap) lo hi v, layout h lo hi sh v -> descend h v rel = Some w.
Proof.
  induction 1 as [x|i shs shi shi' p Hlook Hset IH|j key kshs shj shj' p Hlook Hset IH];
    intros Heq h lo hi v Hlay.
  - injection Heq as ->. inversion Hlay; subst. reflexivity.
  - injection Heq as Heq.
    assert (Hsame : shi' = shi).
    { pose proof (f_equal (fun l => l !! i) Heq) as Hi. cbn beta in Hi.
      rewrite list_lookup_insert_eq in Hi by (eapply lookup_lt_Some, Hlook).
      congruence. }
    inversion Hlay; subst.
    match goal with H : h !! lo = Some _ |- _ => rename H into Hlo end.
    match goal with H : chain _ _ _ shs _ |- _ => rename H into Hchain end.
    destruct (chain_lookup (layout h) (layout_range h) _ _ _ _ _ _ Hchain Hlook)
      as (a & b & y & Hy & _ & _ & Hxy & _).
    cbn [descend nullish]. unfold getProp. cbn [deref]. rewrite Hlo.
    cbn [getOwn step_index]. rewrite Hy. cbn [default].
    eapply IH; [reflexivity | exact Hxy].
  - injection Heq as Heq.
    assert (Hsame : shj' = shj).
    { pose proof (f_equal (fun l => l !! j) Heq) as Hj. cbn beta in Hj.
      rewrite list_lookup_insert_eq in Hj by (eapply lookup_lt_Some, Hlook).
      congruence. }
    inversion Hlay; subst.
    match goal with H : h !! lo = Some _ |- _ => rename H into Hlo end.
    match goal with H : chain _ _ _ (map snd kshs) _ |- _ => rename H into Hchain end.
    match goal with H : map fst kshs = map fst ps |- _ => rename H into Hkeys end.
    match goal with H : NoDup _ |- _ => rename H into Hnd end.
    assert (Hlook' : map snd kshs !! j = Some shj).
    { rewrite list_lookup_fmap, Hlook. reflexivity. }
    destruct (chain_lookup (layout h) (layout_range h) _ _ _ _ _ _ Hchain Hlook')
      as (a & b & y & Hy & _ & _ & Hxy & _).
    assert (Hps : ps !! j = Some (key, y)).
    { apply list_lookup_fmap_Some in Hy as ([k0 y0] & Hkv & Hy0). simpl in Hkv. subst y0.
      pose proof (f_equal (fun l => l !! j) Hkeys) as Hk. cbn beta in Hk.
      rewrite !list_lookup_fmap, Hlook, Hy0 in Hk. simpl in Hk. congruence. }
    cbn [descend nullish]. unfold getProp. cbn [deref]. rewrite Hlo.
    cbn [getOwn key_string]. rewrite (assoc_lookup_NoDup ps Hnd j key y Hps).
    cbn [default]. eapply IH; [reflexivity | exact Hxy].
Qed.

(** X8.  The scan of [extractPromises].  For a value whose arrays (none
    with a hole) and plain objects (none with an own property named
    [__proto__]) have primitives and promises (settled either way) as
    leaves, the scan returns, in [promisePaths], the promises of the value
    in the order of a depth-first walk, each with the path that leads to it
    from the wrapper array (index 0 first, then the keys and indices); and,
    as [promisified], a new array whose containers are all allocated by the
    scan, laid out in the order of the walk, with the shape of the wrapped
    value and the same leaves: the promises themselves are not copied.
    The heap of the caller is unchanged, and looking up a recorded path in
    [promisified] resolves the whole path and gives the recorded promise. *)
Theorem extractPromises_scan :
  forall (U : Type) (sh : shape) (a : val) (h : heap) (u : U) (fuel : nat),
    holds (length h) h sh a ->
    shape_no_proto_key sh ->
    (sdepth sh < fuel)%nat ->
    exists promisified h1,
      extractPromises fuel a (h, u) =
        Done (promisified, promisesOf sh [KNum 0]) (h1, u) /\
      frame (length h) h h1 /\
      h1 !! length h = Some (OArr [a]) /\
      layout h1 (Datatypes.S (length h)) (length h1) (SArr [sh]) promisified /\
      forall pp,
        pp ∈ promisesOf sh [KNum 0] ->
        exists r,
          recordLookup (path pp) getMember promisified (h1, u) = Done r (h1, u) /\
          value r = promise pp /\
          resolvedPath r = path pp /\
          unresolvedPath r = [].
Proof.
  intros U sh a h u fuel Hholds Hkeys Hfuel.
  destruct (scan_shape sh a h u fuel Hholds Hkeys Hfuel) as (ext & Hrun & Hlay).
  rewrite wrapper_promises in Hrun.
  exists (VRef (Datatypes.S (length h))), (h ++ OArr [a] :: ext).
  split; [exact Hrun|]. split; [|split; [|split]].
  - split; [rewrite length_app; lia|]. intros l Hl. apply lookup_app_l, Hl.
  - apply list_lookup_middle. reflexivity.
  - replace (length (h ++ OArr [a] :: ext))
      with (Datatypes.S (length h) + length ext)%nat
      by (rewrite length_app; simpl; lia).
    exact Hlay.
  - intros pp Hpp.
    destruct (promise_set_leaf (fun v _ => v) (fun v _ => v) (promise pp) pp
                (SArr [sh]) [])
      as (rel & Hpath & Hset).
    { apply distinct_keys_arr. constructor; [|constructor].
      eapply holds_distinct_keys, Hholds. }
    { rewrite wrapper_promises. exact Hpp. }
    { reflexivity. }
    { reflexivity. }
    cbn [app] in Hpath. rewrite !mapShape_id in Hset.
    pose proof (descend_leaf _ _ _ _ Hset eq_refl _ _ _ _ Hlay) as Hd.
    rewrite <- Hpath in Hd. unfold recordLookup.
    destruct (recordLookup_loop_descend (h ++ OArr [a] :: ext) u (path pp)
                {| resolvedPath := []; unresolvedPath := path pp;
                   value := VRef (Datatypes.S (length h)); values := [] |}
                (promise pp) Hd) as (r & Hr & Hv).
    exists r. split; [exact Hr|]. split; [exact Hv|].
    destruct (recordLookup_loop_split getMember _ _ _ _ _ Hr eq_refl)
      as (n & Hn & Hres & Hun & _ & _ & Hnull).
    cbn [resolvedPath app] in Hres.
    assert (Hpromise : exists l, promise pp = VRef l).
    { clear -Hpp. revert Hpp. generalize [KNum 0].
      induction sh as [x|shs IH|kshs IH] using shape_nested_ind;
        intros base Hpp; simpl in Hpp.
      - destruct x as [p|l]; [inversion Hpp|].
        apply list_elem_of_singleton in Hpp. subst pp. simpl. eauto.
      - apply elem_concat_mapItems in Hpp as (i & shi & Hi & Hin).
        rewrite Forall_forall in IH.
        eapply (IH shi (list_elem_of_lookup_2 _ _ _ Hi)), Hin.
      - apply elem_flat_map_lookup in Hpp as (j & ksh & Hj & Hin).
        rewrite Forall_forall in IH.
        eapply (IH ksh (list_elem_of_lookup_2 _ _ _ Hj)), Hin. }
    destruct Hpromise as (l & Hl).
    assert (Hfull : n = length (path pp)).
    { destruct (decide (n < length (path pp))%nat) as [Hlt|Hge]; [|lia].
      specialize (Hnull Hlt). rewrite Hv, Hl in Hnull. discriminate. }
    subst n. rewrite Hres, Hun, take_ge, drop_ge by lia. split; reflexivity.
Qed.

Lemma holds_heap_rejected :
  holds 3 heap_rejected (SArr [SLeaf (VRef 1); SLeaf (VRef 0)]) (VRef 2).
Proof.
  eapply holds_arr with (vs := [VRef 1; VRef 0]); [lia | reflexivity |].
  constructor; [|constructor; [|constructor]].
  - eapply holds_promise; [lia | reflexivity].
  - eapply holds_promise; [lia | reflexivity].
Qed.

Lemma extractPromises_scan_witness :
  exists promisified h1,
    extractPromises 3 (VRef 2) (heap_rejected, tt) =
      Done (promisified,
            [ {| promise := VRef 1; path := [KNum 0; KNum 0] |};
              {| promise := VRef 0; path := [KNum 0; KNum 1] |} ]) (h1, tt) /\
    frame 3 heap_rejected h1 /\
    h1 !! 3%nat = Some (OArr [VRef 2]) /\
    layout h1 4 (length h1) (SArr [SArr [SLeaf (VRef 1); SLeaf (VRef 0)]]) promisified /\
    forall pp,
      pp ∈ [ {| promise := VRef 1; path := [KNum 0; KNum 0] |};
             {| promise := VRef 0; path := [KNum 0; KNum 1] |} ] ->
      exists r,
        recordLookup (path pp) getMember promisified (h1, tt) = Done r (h1, tt) /\
        value r = promise pp /\
        resolvedPath r = path pp /\
        unresolvedPath r = [].
Proof.
  apply (extractPromises_scan unit (SArr [SLeaf (VRef 1); SLeaf (VRef 0)]) (VRef 2)
           heap_rejected tt 3 holds_heap_rejected).
  - simpl. tauto.
  - simpl. lia.
Defined.

(** ** The resolver, end to end *)

(** X9.  [promiseAll] resolves nested promises.  Take a value that is a
    structure of arrays without holes, plain objects none of which has an
    own property named [__proto__], primitives and fulfilled promises,
    where a promise may be fulfilled with such a structure in turn, and let
    [k] be the largest number of promises one inside the other.  With fuel
    for [k] passes and for the depth of the settled structure, the call
    returns a value that holds the settled structure (every promise
    replaced by its value, all the way down), all of it in containers
    allocated by the call, and leaves the heap of the caller unchanged,
    provided the limit is 0, or [k] is 0, or [k] is at most the limit; it
    throws the limit-exceeded error if the limit is not 0 and below [k],
    and [k] is not 0.  Without a limit argument the limit is 10. *)
Theorem promiseAll_resolves_nested :
  forall (U : Type) (pt : ptree) (a : val) (h : heap) (u : U)
         (fuel depthFuel : nat) (limit : option Z),
    pholds (length h) h pt a ->
    ptree_no_proto_key pt ->
    (pnest pt < fuel)%nat ->
    (depth (settle pt) < depthFuel)%nat ->
    (default 10%Z limit = 0%Z \/ pnest pt = 0%nat \/
     (Z.of_nat (pnest pt) <= default 10%Z limit)%Z ->
     exists r h',
       promiseAll fuel depthFuel a limit (h, u) = Done r (h', u) /\
       frame (length h) h h' /\
       repr_in (length h) (length h') h' (settle pt) r) /\
    (default 10%Z limit <> 0%Z -> (0 < pnest pt)%nat ->
     (default 10%Z limit < Z.of_nat (pnest pt))%Z ->
     exists s',
       promiseAll fuel depthFuel a limit (h, u) =
         Throw (LimitError (default 10%Z limit)) s').
Proof.
  intros U pt a h u fuel depthFuel limit Hholds Hkeys Hfuel Hdepth.
  destruct (resolve_passes u depthFuel (pnest pt) pt a h eq_refl Hholds Hkeys Hdepth)
    as (r & h' & Hneeds & Hframe & Hrepr).
  unfold promiseAll. split.
  - intros Hlim. exists r, h'. split; [|split; assumption].
    destruct Hlim as [Hz|[Hz|Hle]].
    + rewrite Hz.
      apply (promiseAll_loop_resolves depthFuel 0 _ fuel 0 a _ r _ Hneeds Hfuel).
      left. reflexivity.
    + destruct fuel as [|fuel]; [lia|]. rewrite Hz in Hneeds.
      destruct Hneeds as (promisified & s1 & Hscan & Hget).
      cbn [promiseAll_loop]. rewrite (bind_done _ _ _ _ _ Hscan). exact Hget.
    + apply (promiseAll_loop_resolves depthFuel _ _ fuel 0 a _ r _ Hneeds Hfuel).
      right. lia.
  - intros Hnz Hpos Hlt. destruct (pnest pt) as [|k] eqn:Hk; [lia|].
    apply (promiseAll_loop_limit depthFuel _ k fuel 0 a _ r _ Hneeds Hfuel Hnz). lia.
Qed.

Lemma pholds_doc_promises : pholds 7 heap_doc_promises doc_promises (VRef 6).
Proof.
  eapply pholds_obj with (ps := [("a", VRef 4); ("b", VRef 5)]);
    [lia | reflexivity | apply (bool_decide_unpack _); reflexivity |].
  constructor; [|constructor; [|constructor]]; (split; [reflexivity|]); cbn [snd].
  - eapply pholds_prom; [lia | reflexivity |].
    eapply pholds_obj
      with (ps := [("aa", VRef 0); ("ab", VPrim (PNum 2)); ("ac", VRef 2)]);
      [lia | reflexivity | apply (bool_decide_unpack _); reflexivity |].
    constructor; [|constructor; [|constructor; [|constructor]]];
      (split; [reflexivity|]); cbn [snd].
    + eapply pholds_prom; [lia | reflexivity | constructor].
    + constructor.
    + eapply pholds_arr with (vs := [VRef 1; VPrim (PStr "10")]); [lia | reflexivity |].
      constructor; [|constructor; [|constructor]].
      * eapply pholds_prom; [lia | reflexivity | constructor].
      * constructor.
  - eapply pholds_prom; [lia | reflexivity | constructor].
Qed.

Lemma promiseAll_resolves_nested_witness :
  exists r h',
    promiseAll 3 5 (VRef 6) None (heap_doc_promises, tt) = Done r (h', tt) /\
    frame 7 heap_doc_promises h' /\
    repr_in 7 (length h') h'
      (TObj [("a", TObj [("aa", TPrim (PNum 1)); ("ab", TPrim (PNum 2));
                         ("ac", TArr [TPrim (PNum 3); TPrim (PStr "10")])]);
             ("b", TPrim (PNum 2))]) r.
Proof.
  apply (proj1 (promiseAll_resolves_nested unit doc_promises (VRef 6) heap_doc_promises
                  tt 3 5 None pholds_doc_promises
                  ltac:(simpl; repeat split; discriminate)
                  ltac:(simpl; lia) ltac:(simpl; lia))).
  right. right. simpl. lia.
Defined.

(** ** Rejected promises *)

Lemma awaitAll_rejected {U : Type} (h : heap) (u : U) ps :
  Exists (fun p => exists r, deref h p = Some (OPromise (Rejected r))) ps ->
  exists p r,
    p ∈ ps /\ deref h p = Some (OPromise (Rejected r)) /\
    awaitAll ps (h, u) = Throw (Rejection r) (h, u).
Proof.
  induction ps as [|p ps IH]; intros Hex; [inversion Hex|].
  destruct (deref h p) as [[vs|kvs|[w|r]|slots]|] eqn:Hd.
  4:{ exists p, r. split; [left|]. split; [exact Hd|].
      cbn [awaitAll fst]. rewrite Hd. reflexivity. }
  all: assert (Hrest : Exists (fun p => exists r, deref h p = Some (OPromise (Rejected r)))
                         ps)
         by (inversion Hex as [? ? [r Hr]|]; subst; [congruence | assumption]);
       destruct (IH Hrest) as (p' & r & Hin & Hp' & Hrun);
       exists p', r; (split; [right; exact Hin|]); (split; [exact Hp'|]);
       cbn [awaitAll fst]; rewrite Hd;
       apply bind_throw_step; exact Hrun.
Qed.

(** X10.  A rejected promise.  Take a value whose arrays and plain objects
    have primitives and promises as leaves, one of the promises rejected.
    If the limit allows a pass (it is 0, or at least 1), [promiseAll]
    throws the reason of a rejected promise of the value, and nothing has
    been spliced: the heap of the caller is unchanged.  With a negative
    limit the call throws the limit-exceeded error instead, before any
    promise is awaited. *)
Theorem promiseAll_rejected :
  forall (U : Type) (sh : shape) (a : val) (h : heap) (u : U)
         (fuel depthFuel : nat) (limit : option Z) (pp : IPromisePath)
         (l : loc) (reason : val),
    holds (length h) h sh a ->
    (0 < fuel)%nat ->
    (sdepth sh < depthFuel)%nat ->
    pp ∈ promisesOf sh [KNum 0] ->
    promise pp = VRef l ->
    h !! l = Some (OPromise (Rejected reason)) ->
    (default 10%Z limit = 0%Z \/ (1 <= default 10%Z limit)%Z ->
     exists pp' l' reason' h',
       promiseAll fuel depthFuel a limit (h, u) = Throw (Rejection reason') (h', u) /\
       pp' ∈ promisesOf sh [KNum 0] /\
       promise pp' = VRef l' /\
       h !! l' = Some (OPromise (Rejected reason')) /\
       frame (length h) h h') /\
    ((default 10%Z limit < 0)%Z ->
     exists s',
       promiseAll fuel depthFuel a limit (h, u) =
         Throw (LimitError (default 10%Z limit)) s').
Proof.
  intros U sh a h u fuel depthFuel limit pp l reason Hholds Hfuel Hdepth Hpp Hl Hrej.
  destruct (scan_log sh a h u depthFuel Hholds Hdepth) as (promisified & ext & Hscan).
  rewrite wrapper_promises in Hscan.
  set (h1 := h ++ OArr [a] :: ext) in *.
  set (pps := promisesOf sh [KNum 0]) in *.
  assert (Hne : bool_decide (length pps = 0%nat) = false).
  { apply bool_decide_eq_false_2. destruct pps; [inversion Hpp | discriminate]. }
  assert (Hag1 : forall l0, (l0 < length h)%nat -> h1 !! l0 = h !! l0).
  { intros l0 Hl0. apply lookup_app_l, Hl0. }
  assert (Hpromises : forall pp0, pp0 ∈ pps ->
            exists l0, promise pp0 = VRef l0 /\ (l0 < length h)%nat).
  { intros pp0 Hpp0. clear -Hholds Hpp0. unfold pps in Hpp0. clear pps.
    revert a Hholds Hpp0. generalize [KNum 0].
    induction sh as [x|shs IH|kshs IH] using shape_nested_ind;
      intros base a Hholds Hpp0; inversion Hholds; subst; simpl in Hpp0.
    - inversion Hpp0.
    - apply list_elem_of_singleton in Hpp0. subst pp0. simpl. eauto.
    - apply elem_concat_mapItems in Hpp0 as (i & shi & Hi & Hin).
      match goal with H : Forall2 _ shs _ |- _ => rename H into Hitems end.
      destruct (Forall2_lookup_l _ _ _ _ _ Hitems Hi) as (a0 & _ & Ha0).
      rewrite Forall_forall in IH.
      eapply (IH shi (list_elem_of_lookup_2 _ _ _ Hi)); eassumption.
    - apply elem_flat_map_lookup in Hpp0 as (j & ksh & Hj & Hin).
      match goal with H : Forall2 _ kshs _ |- _ => rename H into Hprops end.
      destruct (Forall2_lookup_l _ _ _ _ _ Hprops Hj) as (kv0 & _ & _ & Ha0).
      rewrite Forall_forall in IH.
      eapply (IH ksh (list_elem_of_lookup_2 _ _ _ Hj)); eassumption. }
  destruct fuel as [|fuel]; [lia|].
  unfold promiseAll. cbn [promiseAll_loop].
  rewrite (bind_done _ _ _ _ _ Hscan). cbn [fst snd]. rewrite Hne.
  split.
  - intros Hlim.
    assert (Hreached : limitReached (default 10%Z limit) 0 = false).
    { unfold limitReached. destruct Hlim as [->|Hle]; [reflexivity|].
      apply andb_false_iff. right. apply Z.leb_gt. lia. }
    rewrite Hreached.
    destruct (array_sort_from pps [] (SSorted_nil _)) as (Hperm & _ & _).
    cbn [app] in Hperm. fold (array_sort comparePromisePaths pps) in Hperm.
    destruct (awaitAll_rejected h1 u (map promise (array_sort comparePromisePaths pps)))
      as (p' & reason' & Hin & Hp' & Hrun).
    { apply Exists_exists. exists (VRef l). split.
      - apply list_elem_of_fmap. exists pp. split; [congruence|].
        rewrite <- Hperm. exact Hpp.
      - exists reason. cbn [deref]. rewrite Hag1 by (eapply lookup_lt_Some, Hrej).
        exact Hrej. }
    apply list_elem_of_fmap in Hin as (pp' & -> & Hpp').
    rewrite <- Hperm in Hpp'.
    destruct (Hpromises pp' Hpp') as (l' & Hl' & Hlt).
    exists pp', l', reason', h1. split; [|split; [|split; [|split]]].
    + unfold splicePass, splicePassWith, bind. rewrite Hrun. reflexivity.
    + exact Hpp'.
    + exact Hl'.
    + rewrite Hl' in Hp'. cbn [deref] in Hp'. rewrite Hag1 in Hp' by exact Hlt.
      exact Hp'.
    + split; [unfold h1; rewrite length_app; lia | exact Hag1].
  - intros Hneg.
    assert (Hreached : limitReached (default 10%Z limit) 0 = true).
    { unfold limitReached. apply andb_true_iff. split.
      - apply negb_true_iff, Z.eqb_neq. lia.
      - apply Z.leb_le. lia. }
    rewrite Hreached. eexists. reflexivity.
Qed.

Lemma promiseAll_rejected_witness :
  exists pp' l' reason' h',
    promiseAll 1 3 (VRef 2) None (heap_rejected, tt) = Throw (Rejection reason') (h', tt) /\
    pp' ∈ promisesOf (SArr [SLeaf (VRef 1); SLeaf (VRef 0)]) [KNum 0] /\
    promise pp' = VRef l' /\
    heap_rejected !! l' = Some (OPromise (Rejected reason')) /\
    frame 3 heap_rejected h'.
Proof.
  apply (proj1 (promiseAll_rejected unit (SArr [SLeaf (VRef 1); SLeaf (VRef 0)]) (VRef 2)
                  heap_rejected tt 1 3 None
                  {| promise := VRef 0; path := [KNum 0; KNum 1] |} 0
                  (VPrim (PStr "no")) holds_heap_rejected ltac:(lia) ltac:(simpl; lia)
                  ltac:(simpl; apply list_elem_of_further, list_elem_of_here) eq_refl eq_refl)).
  right. simpl. lia.
Defined.

(** ** Mapping the leaves of a structure *)

Lemma repr_holds t :
  forall lo hi n h v,
    repr_in lo hi h t v -> (hi <= n)%nat -> holds n h (tree_shape t) v.
Proof.
  induction t as [p|ts IH|kts IH] using tree_nested_ind;
    intros lo hi n h v Hrepr Hn; inversion Hrepr; subst; simpl.
  - constructor.
  - econstructor; [lia | eassumption |].
    apply Forall2_fmap_l.
    eapply Forall2_impl_Forall; [exact IH | eassumption |].
    intros t v IHt Ht. eapply IHt; eassumption.
  - econstructor; [lia | eassumption | assumption |].
    apply Forall2_fmap_l.
    eapply Forall2_impl_Forall; [exact IH | eassumption |].
    intros kt kv IHt [Hk Ht]. split; [exact Hk|]. eapply IHt; eassumption.
Qed.

Lemma sdepth_tree_shape t : sdepth (tree_shape t) = depth t.
Proof.
  induction t as [p|ts IH|kts IH] using tree_nested_ind; simpl.
  - reflexivity.
  - f_equal. induction IH as [|t ts Ht _ IHts]; simpl; [|rewrite Ht, IHts]; reflexivity.
  - f_equal. induction IH as [|kt kts Ht _ IHk]; simpl; [|rewrite Ht, IHk]; reflexivity.
Qed.

Lemma no_proto_key_shape t : no_proto_key t -> shape_no_proto_key (tree_shape t).
Proof.
  induction t as [p|ts IH|kts IH] using tree_nested_ind; simpl.
  - trivial.
  - induction IH as [|t ts Ht _ IHts]; simpl; [trivial|].
    intros [H1 H2]. split; [apply Ht, H1 | apply IHts, H2].
  - induction IH as [|kt kts Ht _ IHk]; simpl; [trivial|].
    intros [[H0 H1] H2]. split; [split; [exact H0 | apply Ht, H1] | apply IHk, H2].
Qed.

Lemma all_leaves_tree t : all_leaves (fun v => exists p, v = VPrim p) (tree_shape t).
Proof.
  induction t as [p|ts IH|kts IH] using tree_nested_ind; simpl.
  - eexists. reflexivity.
  - induction IH; simpl; auto.
  - induction IH; simpl; auto.
Qed.

Lemma logItems_const {A L} (path : TPath) (xs : list A) :
  forall i (u : L), logItems (fun _ _ u => u) path xs i u = u.
Proof. induction xs as [|x xs IH]; intros i u; simpl; [reflexivity | apply IH]. Qed.

Lemma logShape_const {L} sh :
  forall path (u : L), logShape (fun _ _ u => u) sh path u = u.
Proof.
  induction sh as [x|shs IH|kshs IH] using shape_nested_ind; intros path u; simpl.
  - reflexivity.
  - revert u. generalize 0%nat.
    induction IH as [|sh shs Hsh _ IHshs]; intros i u; simpl; [reflexivity|].
    rewrite Hsh. apply IHshs.
  - revert u. induction IH as [|ksh kshs Hsh _ IHk]; intros u; simpl; [reflexivity|].
    rewrite Hsh. apply IHk.
Qed.

Lemma mapShape_tree g t :
  forall path, mapShape (mappedLeaf g) (tree_shape t) path = tree_shape (mapTree g t path).
Proof.
  induction t as [p|ts IH|kts IH] using tree_nested_ind; intros path; simpl.
  - reflexivity.
  - f_equal. generalize 0%nat.
    induction IH as [|t ts Ht _ IHts]; intros i; simpl; [reflexivity|].
    rewrite Ht, IHts. reflexivity.
  - f_equal. induction IH as [|kt kts Ht _ IHk]; simpl; [reflexivity|].
    rewrite Ht, IHk. reflexivity.
Qed.

(** X11.  [recursiveMapper] maps the leaves.  Let the handler be absent on
    arrays and plain objects, and on a primitive leaf do nothing but return
    what a function [g] of the leaf and its path gives, present or absent.
    Then for a value that holds a structure [t] of arrays without holes and
    plain objects none of which has an own property named [__proto__], the
    mapper returns a value
    that holds [t] with every leaf replaced by what [g] gives for it at the
    path of keys and indices that leads to it from the root, a leaf for
    which [g] is absent being kept; the result is built of containers
    allocated by the call, and the input is unchanged. *)
Theorem recursiveMapper_maps_leaves :
  forall (U : Type) (custom : @Factory (world U))
         (g : prim -> TPath -> option prim)
         (t : tree) (a : val) (h : heap) (u : U) (fuel : nat),
    (forall recurse l path (h : heap) (u : U) o,
        h !! l = Some o ->
        (exists vs, o = OArr vs) \/ (exists ps, o = OObj ps) ->
        custom recurse (VRef l) path (h, u) = Done None (h, u)) ->
    (forall recurse p path (h : heap) (u : U),
        custom recurse (VPrim p) path (h, u) = Done (VPrim <$> g p path) (h, u)) ->
    repr_in 0 (length h) h t a ->
    no_proto_key t ->
    (depth t <= fuel)%nat ->
    exists r h',
      recursiveMapper fuel custom a (h, u) = Done r (h', u) /\
      frame (length h) h h' /\
      repr_in (length h) (length h') h' (mapTree g t []) r.
Proof.
  intros U custom g t a h u fuel Hcont Hleaf Hrepr Hkeys Hfuel.
  destruct (traverse_shape custom (fun v => exists p, v = VPrim p) (mappedLeaf g)
              (fun _ _ u => u) Hcont) with (sh := tree_shape t) (v := a) (h := h) (u := u)
              (path := @nil step) (fuel := fuel)
    as (r & ext & Hrun & Hlay).
  - intros recurse v path h0 u0 _ [p ->]. rewrite Hleaf. simpl.
    destruct (g p path) as [q|]; [left; reflexivity|].
    right. split; [reflexivity|]. split; [eexists|]; reflexivity.
  - eapply repr_holds; [exact Hrepr | lia].
  - apply no_proto_key_shape, Hkeys.
  - apply all_leaves_tree.
  - rewrite sdepth_tree_shape. exact Hfuel.
  - rewrite logShape_const in Hrun. rewrite mapShape_tree in Hlay.
    exists r, (h ++ ext). split; [exact Hrun|]. split.
    + split; [rewrite length_app; lia|]. intros l Hl. apply lookup_app_l, Hl.
    + rewrite length_app. apply layout_repr, Hlay.
Qed.

Lemma repr_heap_strings :
  repr_in 0 2 heap_strings
    (TObj [("a", TPrim (PStr "value1")); ("b", TArr [TPrim (PStr "b0")])]) (VRef 1).
Proof.
  eapply repr_obj with (ps := [("a", VPrim (PStr "value1")); ("b", VRef 0)]).
  - lia.
  - reflexivity.
  - apply (bool_decide_unpack _). reflexivity.
  - repeat constructor.
    eapply repr_arr with (vs := [VPrim (PStr "b0")]); [lia | reflexivity |].
    repeat constructor.
Qed.

Lemma recursiveMapper_maps_leaves_witness :
  exists r h',
    recursiveMapper 3 prependPath (VRef 1) (heap_strings, tt) = Done r (h', tt) /\
    frame 2 heap_strings h' /\
    repr_in 2 (length h') h'
      (TObj [("a", TPrim (PStr "[a]:value1")); ("b", TArr [TPrim (PStr "[b,0]:b0")])]) r.
Proof.
  apply (recursiveMapper_maps_leaves unit prependPath prependPathP
           (TObj [("a", TPrim (PStr "value1")); ("b", TArr [TPrim (PStr "b0")])])
           (VRef 1) heap_strings tt 3).
  - intros recurse l path h u o _ _. reflexivity.
  - intros recurse p path h u. destruct p; reflexivity.
  - exact repr_heap_strings.
  - simpl. repeat split; discriminate.
  - simpl. lia.
Defined.

(** X12.  A promise is not copied as a promise.  When the handler of
    [recursiveMapper] is absent on a promise, the promise is taken for a
    plain object without properties: the mapper returns a new empty
    object, never the promise itself nor its value.  (This is why the scan
    of [promiseAll] has a handler that claims promises.) *)
Theorem recursiveMapper_promise_as_object :
  forall (U : Type) (custom : @Factory (world U)) (l : loc) (st : settlement)
         (h : heap) (u : U) (fuel : nat),
    h !! l = Some (OPromise st) ->
    (forall recurse, custom recurse (VRef l) [] (h, u) = Done None (h, u)) ->
    (0 < fuel)%nat ->
    recursiveMapper fuel custom (VRef l) (h, u) =
      Done (VRef (length h)) (h ++ [OObj []], u).
Proof.
  intros U custom l st h u fuel Hl Habsent Hfuel.
  destruct fuel as [|n]; [lia|].
  unfold recursiveMapper, recursiveReducerInternal.
  cbn [reduceInternal recursiveMapper_factories map run_chain].
  rewrite (bind_done _ _ _ _ _ (Habsent _)).
  unfold bind at 1. unfold extendArrPathFn at 1. cbn [fst snd].
  unfold isArray. cbn [deref]. rewrite Hl. unfold ret at 1.
  unfold bind at 1. unfold extendObjPathFn at 1. cbn [isObject].
  unfold bind at 1. unfold objReductionToRecursivePathFn, recordReducer.
  unfold bind at 1. cbn [obj_initial objCopyReduction OBJ_COPY_REDUCTION].
  unfold alloc at 1. cbn [fst snd]. unfold keysOf. cbn [deref].
  rewrite (lookup_app_l_Some _ _ _ _ Hl). reflexivity.
Qed.

Lemma recursiveMapper_promise_as_object_witness :
  recursiveMapper 1 alwaysAbsent (VRef 2) (heap_nested_promise, tt) =
    Done (VRef 3) (heap_nested_promise ++ [OObj []], tt).
Proof.
  apply (recursiveMapper_promise_as_object unit alwaysAbsent 2 (Fulfilled (VRef 1))
           heap_nested_promise tt 1 eq_refl).
  - intros recurse. reflexivity.
  - lia.
Defined.

(** ** The earlier version of the library *)

(** X13.  In the earlier [recursiveReducers.ts] the copy reduction for
    objects has the object [{}] where a function is expected, and
    [objReducer] calls it before it looks at any key: the function built
    by [recursiveReducerFromMapper] throws a type error on every plain
    object its mapper does not claim, whatever the object holds, and
    changes nothing. *)
Theorem recursiveReducerFromMapper_object_throws :
  forall (U : Type) (mapper : val -> M (world U) (option val)) (l : loc)
         (ps : list (string * val)) (h : heap) (u : U) (fuel : nat),
    h !! l = Some (OObj ps) ->
    mapper (VRef l) (h, u) = Done None (h, u) ->
    (0 < fuel)%nat ->
    recursiveReducers.recursiveReducerFromMapper fuel mapper (VRef l) (h, u) =
      Throw (TypeError "initial is not a function") (h, u).
Proof.
  intros U mapper l ps h u fuel Hl Habsent Hfuel.
  destruct fuel as [|n]; [lia|].
  unfold recursiveReducers.recursiveReducerFromMapper, recursiveReducerInternal.
  cbn [reduceInternal map run_chain].
  rewrite (bind_done _ _ _ _ _ Habsent).
  unfold bind at 1. unfold extendArrPathFn at 1. cbn [fst snd].
  unfold isArray. cbn [deref]. rewrite Hl. unfold ret at 1.
  reflexivity.
Qed.

Lemma recursiveReducerFromMapper_object_throws_witness :
  recursiveReducers.recursiveReducerFromMapper 3 emptyMapper (VRef 1) (heap_ab, tt) =
    Throw (TypeError "initial is not a function") (heap_ab, tt).
Proof.
  apply (recursiveReducerFromMapper_object_throws unit emptyMapper 1
           [("a", VPrim (PBool true)); ("b", VRef 0)] heap_ab tt 3 eq_refl eq_refl).
  lia.
Defined.

Lemma bind_ext {S A B} (m m' : M S A) (k k' : A -> M S B) s :
  m s = m' s -> (forall a s', k a s' = k' a s') -> bind m k s = bind m' k' s.
Proof.
  intros Hm Hk. unfold bind. rewrite Hm. destruct (m' s); [apply Hk | reflexivity..].
Qed.

Section RecurseExt.
Context {U : Type}.
Variables recurse1 recurse2 : @Recurse (world U).
Hypothesis recurse_ext : forall v p s, recurse1 v p s = recurse2 v p s.

Lemma arr_reduce_loop_ext arrReduction rs path :
  forall indices prev s,
    arr_reduce_loop arrReduction recurse1 rs path indices prev s =
    arr_reduce_loop arrReduction recurse2 rs path indices prev s.
Proof.
  induction indices as [|index indices IH]; intros prev s; [reflexivity|].
  cbn [arr_reduce_loop]. destruct (hasIndex _ _ _); [|apply IH].
  apply bind_ext; [apply recurse_ext|]. intros s1 s'.
  apply bind_ext; [reflexivity|]. intros prev' s''. apply IH.
Qed.

Lemma arr_handler_ext arrReduction a path s :
  extendArrPathFn (arrReductionToRecursivePathFn arrReduction recurse1) a path s =
  extendArrPathFn (arrReductionToRecursivePathFn arrReduction recurse2) a path s.
Proof.
  unfold extendArrPathFn. destruct (isArray s.1 a); [|reflexivity].
  apply bind_ext; [|reflexivity].
  unfold arrReductionToRecursivePathFn.
  apply bind_ext; [reflexivity|]. intros seed s'. apply arr_reduce_loop_ext.
Qed.

Lemma recordReducer_loop_ext
  (callback1 callback2 : val -> val -> string -> M (world U) val) record :
  (forall prev current key s,
      callback1 prev current key s = callback2 prev current key s) ->
  forall keys value s,
    recordReducer_loop callback1 record keys value s =
    recordReducer_loop callback2 record keys value s.
Proof.
  intros Hcb. induction keys as [|key keys IH]; intros value s; [reflexivity|].
  cbn [recordReducer_loop]. apply bind_ext; [apply Hcb|]. intros value' s'. apply IH.
Qed.

Lemma obj_handler_ext objReduction a path s :
  extendObjPathFn
    (recursiveReducers.objReductionToRecursivePathFn objReduction recurse1) a path s =
  extendObjPathFn (objReductionToRecursivePathFn objReduction recurse2) a path s.
Proof.
  unfold extendObjPathFn. destruct (isObject a); [|reflexivity].
  apply bind_ext; [|reflexivity].
  unfold recursiveReducers.objReductionToRecursivePathFn, recursiveReducers.objReducer,
    objReductionToRecursivePathFn, recordReducer.
  apply bind_ext; [reflexivity|]. intros value s'.
  apply recordReducer_loop_ext. intros prev current key s0.
  apply bind_ext; [apply recurse_ext | reflexivity].
Qed.
End RecurseExt.

(** X14.  The override is an addition that changes nothing when it is
    left out: [recursiveMapperReducer] called with three arguments, so
    that [optionalMapper] is its default [() => empty()], does in every
    state exactly what the earlier three-argument
    [recursiveReducerFromMapReduce] does with the same functions: the same
    result or the same error, and the same final state. *)
Theorem recursiveMapperReducer_default_is_earlier :
  forall (U : Type) (fuel : nat) (mapper : val -> M (world U) val)
         (reduceCallback : val -> val -> M (world U) val)
         (reduceInitial : M (world U) val) (a : val) (s : world U),
    recursiveMapperReducer fuel mapper reduceCallback reduceInitial emptyMapper a s =
    recursiveReducers.recursiveReducerFromMapReduce fuel mapper reduceCallback
      reduceInitial a s.
Proof.
  intros U fuel mapper reduceCallback reduceInitial a s.
  unfold recursiveMapperReducer, recursiveReducers.recursiveReducerFromMapReduce,
    recursiveReducerInternal.
  generalize (@nil step). revert a s.
  induction fuel as [|n IH]; intros a s path; [reflexivity|].
  cbn [reduceInternal recursiveMapperReducer_factories map run_chain].
  unfold bind at 1. unfold emptyMapper at 1. unfold ret at 1.
  apply bind_ext.
  { symmetry. apply arr_handler_ext. intros v p s0. symmetry. apply IH. }
  intros [r|] s1; [reflexivity|].
  apply bind_ext; [|reflexivity].
  symmetry. apply obj_handler_ext. intros v p s0. symmetry. apply IH.
Qed.
